(** * Swap-request matching engine: a verified model of [match.py]

    The development follows the Python source function by function:
    - insertion-ordered dictionaries (Python [dict] / [defaultdict]);
    - [hopcroft_karp] with its closures [bfs] and [dfs] over the shared
      dictionaries [match_left], [match_right] and [dist];
    - [match_student_pairs]: partitioning, graph construction, matching
      and aggregation of the pairs.

    Loops are driven by a fuel argument; the theorems show that an
    explicit amount of fuel always suffices.  The recursion of [dfs] is
    driven by the number of frames the interpreter's call stack still has
    room for: Python bounds the depth of the stack
    ([sys.getrecursionlimit()], 1000 unless it is raised, and [match.py]
    never raises it) and a call that does not fit raises
    [RecursionError]. *)

From Stdlib Require Import List ZArith Lia Bool String Arith.
Import ListNotations.

Set Implicit Arguments.

(* ================================================================== *)
(** ** Results of a run *)

(** A run either returns a value, raises [KeyError] (a subscript on a
    missing key), raises [RecursionError] (a call that does not fit on the
    interpreter's stack), or exhausts the fuel of its loops. *)
Inductive result (A : Type) : Type :=
| Ok (a : A)
| KeyError
| RecursionError
| OutOfFuel.

Arguments Ok {A} a.
Arguments KeyError {A}.
Arguments RecursionError {A}.
Arguments OutOfFuel {A}.

Definition bind {A B : Type} (m : result A) (k : A -> result B) : result B :=
  match m with
  | Ok a => k a
  | KeyError => KeyError
  | RecursionError => RecursionError
  | OutOfFuel => OutOfFuel
  end.

Notation "x <- m ;; k" := (bind m (fun x => k))
  (at level 61, m at next level, right associativity).
Notation "' p <- m ;; k" := (bind m (fun x => let p := x in k))
  (at level 61, p pattern, m at next level, right associativity).

(* ================================================================== *)
(** ** Insertion-ordered dictionaries *)

(** A Python [dict] keeps its items in insertion order; assigning to an
    existing key keeps the key's position. *)
Section Dict.
Context {K V : Type}.
Variable keqb : K -> K -> bool.

Fixpoint dict_get (d : list (K * V)) (k : K) : option V :=
  match d with
  | [] => None
  | (k', v) :: d' => if keqb k k' then Some v else dict_get d' k
  end.

Fixpoint dict_set (d : list (K * V)) (k : K) (v : V) : list (K * V) :=
  match d with
  | [] => [(k, v)]
  | (k', v') :: d' =>
      if keqb k k' then (k', v) :: d' else (k', v') :: dict_set d' k v
  end.

Definition dict_mem (d : list (K * V)) (k : K) : bool :=
  match dict_get d k with Some _ => true | None => false end.

(** [d.get(k, dflt)] *)
Definition dict_get_default (d : list (K * V)) (k : K) (dflt : V) : V :=
  match dict_get d k with Some v => v | None => dflt end.

(** [d[k]] *)
Definition dict_getitem (d : list (K * V)) (k : K) : result V :=
  match dict_get d k with Some v => Ok v | None => KeyError end.
End Dict.

(* ================================================================== *)
(** ** Nodes, distances, graphs *)

(** Nodes are student ids. *)
Abbreviation node := Z (only parsing).

(** Keys of [dist]: a left node, or the sentinel [None]. *)
Abbreviation okey := (option Z) (only parsing).

Definition okey_eqb (a b : okey) : bool :=
  match a, b with
  | None, None => true
  | Some x, Some y => Z.eqb x y
  | _, _ => false
  end.

(** Values of [dist]: a layer number or [float('inf')]. *)
Inductive dval : Type :=
| Fin (n : nat)
| INF.

Definition dval_eqb (a b : dval) : bool :=
  match a, b with
  | Fin x, Fin y => Nat.eqb x y
  | INF, INF => true
  | _, _ => false
  end.

Definition dval_ltb (a b : dval) : bool :=
  match a, b with
  | Fin x, Fin y => Nat.ltb x y
  | Fin _, INF => true
  | INF, _ => false
  end.

(** [d + 1]; [inf + 1] is [inf]. *)
Definition dval_succ (a : dval) : dval :=
  match a with
  | Fin x => Fin (S x)
  | INF => INF
  end.

(** The [graph] argument: a plain [dict] raises [KeyError] on a missing
    key, a [defaultdict(list)] answers the empty list.  Keys are nodes, so
    the sentinel [None] is never a key. *)
Inductive pygraph : Type :=
| Dict (items : list (node * list node))
| DefaultDict (items : list (node * list node)).

Definition graph_getitem (g : pygraph) (u : okey) : result (list node) :=
  match g, u with
  | Dict items, Some x => dict_getitem Z.eqb items x
  | Dict _, None => KeyError
  | DefaultDict items, Some x => Ok (dict_get_default Z.eqb items x [])
  | DefaultDict _, None => Ok []
  end.

(* ================================================================== *)
(** ** [hopcroft_karp] *)

(** The variables shared by the closures [bfs] and [dfs], and the counter
    of the main loop. *)
Record hk_state : Type := mk_state {
  match_left : list (node * node);
  match_right : list (node * node);
  dist : list (okey * dval);
  matching_size : nat
}.

Definition set_dist (s : hk_state) (d : list (okey * dval)) : hk_state :=
  mk_state (match_left s) (match_right s) d (matching_size s).

Definition dist_get (d : list (okey * dval)) (k : okey) : dval :=
  dict_get_default okey_eqb d k INF.

Section HopcroftKarp.
Variable graph : pygraph.
Variable left_nodes : list node.

(** First loop of [bfs]: [for u in left_nodes: ...]. *)
Fixpoint bfs_init (us : list node) (ml : list (node * node))
         (d : list (okey * dval)) (q : list okey)
  : list (okey * dval) * list okey :=
  match us with
  | [] => (d, q)
  | u :: us' =>
      if dict_mem Z.eqb ml u
      then bfs_init us' ml (dict_set okey_eqb d (Some u) INF) q
      else bfs_init us' ml (dict_set okey_eqb d (Some u) (Fin 0))
                    (q ++ [Some u])
  end.

(** [for v in graph[u]: ...] inside the [while] of [bfs]. *)
Fixpoint bfs_scan (u : okey) (vs : list node) (mr : list (node * node))
         (d : list (okey * dval)) (q : list okey)
  : result (list (okey * dval) * list okey) :=
  match vs with
  | [] => Ok (d, q)
  | v :: vs' =>
      let u_prime := dict_get Z.eqb mr v in
      if dval_eqb (dist_get d u_prime) INF then
        du <- dict_getitem okey_eqb d u ;;
        bfs_scan u vs' mr (dict_set okey_eqb d u_prime (dval_succ du))
                 (q ++ [u_prime])
      else bfs_scan u vs' mr d q
  end.

(** [while queue: ...] *)
Fixpoint bfs_loop (fuel : nat) (mr : list (node * node))
         (d : list (okey * dval)) (q : list okey)
  : result (list (okey * dval)) :=
  match fuel with
  | O => OutOfFuel
  | S fuel' =>
      match q with
      | [] => Ok d
      | u :: q' =>
          du <- dict_getitem okey_eqb d u ;;
          dn <- dict_getitem okey_eqb d None ;;
          if dval_ltb du dn then
            adj <- graph_getitem graph u ;;
            ' (d', q'') <- bfs_scan u adj mr d q' ;;
            bfs_loop fuel' mr d' q''
          else bfs_loop fuel' mr d q'
      end
  end.

Definition bfs (fuel : nat) (s : hk_state) : result (bool * hk_state) :=
  let '(d0, q0) := bfs_init left_nodes (match_left s) (dist s) [] in
  let d1 := dict_set okey_eqb d0 None INF in
  d2 <- bfs_loop fuel (match_right s) d1 q0 ;;
  dn <- dict_getitem okey_eqb d2 None ;;
  Ok (negb (dval_eqb dn INF), set_dist s d2).

(** [for v in graph[u]: ...] of [dfs(u)], with the recursive call
    abstracted as [rec]; after the loop, [dist[u] = INF; return False]. *)
Fixpoint dfs_scan (rec : okey -> hk_state -> result (bool * hk_state))
         (u : node) (vs : list node) (s : hk_state)
  : result (bool * hk_state) :=
  match vs with
  | [] => Ok (false, set_dist s (dict_set okey_eqb (dist s) (Some u) INF))
  | v :: vs' =>
      let u_prime := dict_get Z.eqb (match_right s) v in
      du <- dict_getitem okey_eqb (dist s) (Some u) ;;
      if dval_eqb (dist_get (dist s) u_prime) (dval_succ du) then
        ' (found, s') <- rec u_prime s ;;
        if found then
          Ok (true,
              mk_state (dict_set Z.eqb (match_left s') u v)
                       (dict_set Z.eqb (match_right s') v u)
                       (dist s') (matching_size s'))
        else dfs_scan rec u vs' s'
      else dfs_scan rec u vs' s
  end.

(** [dfs(u)].  [depth] is the number of frames of [dfs] the interpreter's
    stack still has room for: every call takes one frame, also [dfs(None)],
    and the calls it makes find one frame less.  With no room left the call
    raises [RecursionError]; nothing in [match.py] catches it. *)
Fixpoint dfs (depth : nat) (u : okey) (s : hk_state)
  : result (bool * hk_state) :=
  match depth with
  | O => RecursionError
  | S depth' =>
      match u with
      | Some x =>
          adj <- graph_getitem graph (Some x) ;;
          dfs_scan (dfs depth') x adj s
      | None => Ok (true, s)
      end
  end.

(** Body of the main loop: [for u in left_nodes: if u not in match_left:
    if dfs(u): matching_size += 1].  Each [dfs(u)] of the loop starts with
    the same room [depth] on the stack. *)
Fixpoint dfs_phase (depth : nat) (us : list node) (s : hk_state)
  : result hk_state :=
  match us with
  | [] => Ok s
  | u :: us' =>
      if dict_mem Z.eqb (match_left s) u then dfs_phase depth us' s
      else
        ' (found, s') <- dfs depth (Some u) s ;;
        if found then
          dfs_phase depth us'
            (mk_state (match_left s') (match_right s') (dist s')
                      (matching_size s' + 1))
        else dfs_phase depth us' s'
  end.

(** [while bfs(): ...] with [limit] frames of room for [dfs]; [rounds]
    bounds the number of iterations and [fuel] the loop of [bfs]. *)
Fixpoint hk_while_limit (limit rounds fuel : nat) (s : hk_state)
  : result hk_state :=
  match rounds with
  | O => OutOfFuel
  | S rounds' =>
      ' (again, s1) <- bfs fuel s ;;
      if again then
        s2 <- dfs_phase limit left_nodes s1 ;;
        hk_while_limit limit rounds' fuel s2
      else Ok s1
  end.

(** The same loop with one number [fuel] for the loops and for the room
    on the stack. *)
Fixpoint hk_while (rounds fuel : nat) (s : hk_state) : result hk_state :=
  match rounds with
  | O => OutOfFuel
  | S rounds' =>
      ' (again, s1) <- bfs fuel s ;;
      if again then
        s2 <- dfs_phase fuel left_nodes s1 ;;
        hk_while rounds' fuel s2
      else Ok s1
  end.

Definition hk_init : hk_state := mk_state [] [] [] 0.

(** [hopcroft_karp(graph, left_nodes)] called where the stack has room for
    [limit] frames of [dfs]. *)
Definition hopcroft_karp_limit (limit fuel : nat)
  : result (list (node * node)) :=
  s <- hk_while_limit limit fuel fuel hk_init ;;
  Ok (match_left s).

Definition hopcroft_karp (fuel : nat) : result (list (node * node)) :=
  s <- hk_while fuel fuel hk_init ;;
  Ok (match_left s).
End HopcroftKarp.

(** A number that always suffices for [left_nodes], as fuel of the loops
    and as room on the stack (see [hopcroft_karp_correct]). *)
Definition hk_fuel (left_nodes : list node) : nat :=
  2 * List.length left_nodes + 3.

(* ================================================================== *)
(** ** [match_student_pairs] *)

Definition group := string.

(** One record of [students_info]:
    [(student_id, current_group, desired_group, accept_teammate_swap,
      teammate_student_id)]. *)
Record student : Type := mk_student {
  student_id : Z;
  current_group : group;
  desired_group : group;
  accept_swap : bool;
  teammate_id : option Z
}.

Definition gkey := (group * group)%type.

Definition gkey_eqb (a b : gkey) : bool :=
  String.eqb (fst a) (fst b) && String.eqb (snd a) (snd b).

(** [teammate != student] on an optional id. *)
Definition teammate_neqb (t : option Z) (j : Z) : bool :=
  match t with
  | Some i => negb (Z.eqb i j)
  | None => true
  end.

(** [d[k].append(x)] on a [defaultdict(list)]. *)
Definition dd_append {K V : Type} (keqb : K -> K -> bool)
           (d : list (K * list V)) (k : K) (x : V) : list (K * list V) :=
  dict_set keqb d k (dict_get_default keqb d k [] ++ [x]).

(** First loop: fills [swaps] and [student_lookup]. *)
Definition partition_step
           (st : list (gkey * list student) * list (Z * student))
           (record : student)
  : list (gkey * list student) * list (Z * student) :=
  let '(swaps, student_lookup) := st in
  let student_lookup' := dict_set Z.eqb student_lookup (student_id record) record in
  if String.eqb (current_group record) (desired_group record)
  then (swaps, student_lookup')
  else (dd_append gkey_eqb swaps
                  (current_group record, desired_group record) record,
        student_lookup').

Definition partition (students_info : list student)
  : list (gkey * list student) * list (Z * student) :=
  fold_left partition_step students_info ([], []).

(** The flag [valid] of the innermost loop. *)
Definition valid_edge (record_i record_j : student) : bool :=
  let valid := true in
  let valid :=
    if negb (accept_swap record_i)
       && teammate_neqb (teammate_id record_i) (student_id record_j)
    then false else valid in
  let valid :=
    if negb (accept_swap record_j)
       && teammate_neqb (teammate_id record_j) (student_id record_i)
    then false else valid in
  valid.

(** [for record_j in V: ... graph[student_i].append(student_j)]. *)
Fixpoint add_edges (record_i : student) (V : list student)
         (graph : list (node * list node)) : list (node * list node) :=
  match V with
  | [] => graph
  | record_j :: V' =>
      if valid_edge record_i record_j
      then add_edges record_i V'
             (dd_append Z.eqb graph (student_id record_i) (student_id record_j))
      else add_edges record_i V' graph
  end.

(** [for record_i in U: left_ids.append(student_i); ...]. *)
Fixpoint build_graph (U V : list student)
         (graph : list (node * list node)) (left_ids : list node)
  : list (node * list node) * list node :=
  match U with
  | [] => (graph, left_ids)
  | record_i :: U' =>
      build_graph U' V (add_edges record_i V graph)
                  (left_ids ++ [student_id record_i])
  end.

(** [tuple(sorted([student_i, student_j]))]. *)
Definition sorted_pair (p : Z * Z) : Z * Z :=
  let '(student_i, student_j) := p in
  if Z.ltb student_j student_i then (student_j, student_i)
  else (student_i, student_j).

(** Python's [set], used for [processed_pairs]: only [add] and [in] are
    used, so any implementation with these laws will do. *)
Class PySet (S : Type) : Type := {
  set_empty : S;
  set_add : S -> gkey -> S;
  set_mem : S -> gkey -> bool;
  set_mem_empty : forall k, set_mem set_empty k = false;
  set_mem_add : forall s k k',
      set_mem (set_add s k) k' = gkey_eqb k k' || set_mem s k'
}.

Section MatchStudentPairs.
Context {S : Type} {PS : PySet S}.

(** [for (group_A, group_B) in list(swaps.keys()): ...]. *)
Fixpoint pairs_loop (fuel : nat) (swaps : list (gkey * list student))
         (keys : list gkey) (processed_pairs : S)
         (paired_matches : list (Z * Z)) : result (list (Z * Z)) :=
  match keys with
  | [] => Ok paired_matches
  | (group_A, group_B) :: keys' =>
      if set_mem processed_pairs (group_A, group_B)
      then pairs_loop fuel swaps keys' processed_pairs paired_matches
      else
        let reverse_key := (group_B, group_A) in
        if negb (dict_mem gkey_eqb swaps reverse_key)
        then pairs_loop fuel swaps keys'
               (set_add processed_pairs (group_A, group_B)) paired_matches
        else
          let U := dict_get_default gkey_eqb swaps (group_A, group_B) [] in
          let V := dict_get_default gkey_eqb swaps reverse_key [] in
          let '(graph, left_ids) := build_graph U V [] [] in
          let processed_pairs' :=
            set_add (set_add processed_pairs (group_A, group_B))
                    (group_B, group_A) in
          match left_ids with
          | [] => pairs_loop fuel swaps keys' processed_pairs' paired_matches
          | _ :: _ =>
              match_left <- hopcroft_karp (DefaultDict graph) left_ids fuel ;;
              pairs_loop fuel swaps keys' processed_pairs'
                (paired_matches ++ map sorted_pair match_left)
          end
  end.

Definition match_student_pairs (fuel : nat) (students_info : list student)
  : result (list (Z * Z)) :=
  let '(swaps, student_lookup) := partition students_info in
  pairs_loop fuel swaps (map fst swaps) set_empty [].
End MatchStudentPairs.

(** Fuel that suffices for every partition of [students_info]. *)
Definition msp_fuel (students_info : list student) : nat :=
  2 * List.length students_info + 3.

(** A list-backed set. *)
#[export] Instance ListSet : PySet (list gkey).
Proof.
  refine {| set_empty := [];
            set_add := fun s k => k :: s;
            set_mem := fun s k => existsb (gkey_eqb k) s |}.
  - reflexivity.
  - intros s k k'. simpl.
    assert (E : gkey_eqb k' k = gkey_eqb k k').
    { unfold gkey_eqb. rewrite (String.eqb_sym (fst k')), (String.eqb_sym (snd k')).
      reflexivity. }
    rewrite E. reflexivity.
Defined.

(* ================================================================== *)
(** ** Facts about dictionaries *)

Section DictFacts.
Context {K V : Type}.
Variable keqb : K -> K -> bool.
Hypothesis keqb_spec : forall a b, keqb a b = true <-> a = b.

Lemma keqb_refl : forall a, keqb a a = true.
Proof. intros a. apply keqb_spec. reflexivity. Qed.

Lemma keqb_neq : forall a b, a <> b -> keqb a b = false.
Proof.
  intros a b Hab. destruct (keqb a b) eqn:E; [|reflexivity].
  apply keqb_spec in E. contradiction.
Qed.

Lemma keqb_dec : forall a b : K, {a = b} + {a <> b}.
Proof.
  intros a b. destruct (keqb a b) eqn:E.
  - left. apply keqb_spec. exact E.
  - right. intros ->. rewrite keqb_refl in E. discriminate.
Qed.

Lemma dict_get_set_same : forall (d : list (K * V)) k v,
    dict_get keqb (dict_set keqb d k v) k = Some v.
Proof.
  induction d as [|[k' v'] d IH]; intros k v; simpl.
  - rewrite keqb_refl. reflexivity.
  - destruct (keqb k k') eqn:E; simpl; rewrite E; auto.
Qed.

Lemma dict_get_set_other : forall (d : list (K * V)) k k' v,
    k <> k' -> dict_get keqb (dict_set keqb d k v) k' = dict_get keqb d k'.
Proof.
  induction d as [|[k0 v0] d IH]; intros k k' v Hne; simpl.
  - rewrite (keqb_neq (not_eq_sym Hne)). reflexivity.
  - destruct (keqb k k0) eqn:E; simpl.
    + apply keqb_spec in E. subst k0.
      rewrite (keqb_neq (not_eq_sym Hne)). reflexivity.
    + destruct (keqb k' k0); auto.
Qed.

Lemma dict_get_set : forall (d : list (K * V)) k k' v,
    dict_get keqb (dict_set keqb d k v) k'
    = if keqb k k' then Some v else dict_get keqb d k'.
Proof.
  intros d k k' v. destruct (keqb k k') eqn:E.
  - apply keqb_spec in E. subst. apply dict_get_set_same.
  - apply dict_get_set_other. intros ->. rewrite keqb_refl in E. discriminate.
Qed.

Lemma dict_get_some_in : forall (d : list (K * V)) k v,
    dict_get keqb d k = Some v -> In (k, v) d.
Proof.
  induction d as [|[k' v'] d IH]; intros k v H; simpl in *.
  - discriminate.
  - destruct (keqb k k') eqn:E.
    + apply keqb_spec in E. inversion H. subst. left. reflexivity.
    + right. auto.
Qed.

Lemma dict_get_none_keys : forall (d : list (K * V)) k,
    dict_get keqb d k = None <-> ~ In k (map fst d).
Proof.
  induction d as [|[k' v'] d IH]; intros k; simpl.
  - split; auto.
  - destruct (keqb k k') eqn:E.
    + apply keqb_spec in E. subst. split; [discriminate|].
      intros H. exfalso. apply H. left. reflexivity.
    + rewrite IH. split.
      * intros H [H1|H1]; [|auto]. subst. rewrite keqb_refl in E. discriminate.
      * intros H H1. apply H. right. exact H1.
Qed.

Lemma dict_mem_keys : forall (d : list (K * V)) k,
    dict_mem keqb d k = true <-> In k (map fst d).
Proof.
  intros d k. unfold dict_mem.
  destruct (dict_get keqb d k) eqn:E.
  - split; [intros _|reflexivity].
    apply dict_get_some_in in E. apply (in_map fst) in E. exact E.
  - split; [discriminate|]. intros H. apply dict_get_none_keys in E. contradiction.
Qed.

Lemma dict_in_get : forall (d : list (K * V)) k v,
    NoDup (map fst d) -> In (k, v) d -> dict_get keqb d k = Some v.
Proof.
  induction d as [|[k' v'] d IH]; intros k v Hnd Hin; simpl in *.
  - contradiction.
  - inversion Hnd as [|? ? Hni Hnd']; subst.
    destruct Hin as [Heq|Hin].
    + inversion Heq; subst. rewrite keqb_refl. reflexivity.
    + destruct (keqb k k') eqn:E.
      * apply keqb_spec in E. subst. exfalso. apply Hni.
        apply (in_map fst) in Hin. exact Hin.
      * auto.
Qed.

Lemma dict_keys_set : forall (d : list (K * V)) k v,
    map fst (dict_set keqb d k v)
    = if dict_mem keqb d k then map fst d else map fst d ++ [k].
Proof.
  unfold dict_mem.
  induction d as [|[k' v'] d IH]; intros k v; simpl.
  - reflexivity.
  - destruct (keqb k k') eqn:E; simpl.
    + reflexivity.
    + rewrite IH. destruct (dict_get keqb d k); reflexivity.
Qed.

Lemma dict_set_length : forall (d : list (K * V)) k v,
    List.length (dict_set keqb d k v)
    = if dict_mem keqb d k then List.length d else S (List.length d).
Proof.
  intros d k v.
  rewrite <- (length_map fst (dict_set keqb d k v)), dict_keys_set.
  destruct (dict_mem keqb d k); rewrite ?length_app, length_map; simpl; lia.
Qed.

Lemma dict_set_NoDup : forall (d : list (K * V)) k v,
    NoDup (map fst d) -> NoDup (map fst (dict_set keqb d k v)).
Proof.
  intros d k v Hnd. rewrite dict_keys_set.
  destruct (dict_mem keqb d k) eqn:E; [exact Hnd|].
  assert (Hni : ~ In k (map fst d)).
  { intros H. apply dict_mem_keys in H. congruence. }
  clear E. induction (map fst d) as [|a l IH]; simpl.
  - constructor; [intros []|constructor].
  - inversion Hnd; subst. constructor.
    + rewrite in_app_iff. intros [H|[H|[]]]; [contradiction|].
      subst. apply Hni. left. reflexivity.
    + apply IH; [assumption|]. intros H. apply Hni. right. exact H.
Qed.

Lemma dict_keys_set_in : forall (d : list (K * V)) k v a,
    In a (map fst (dict_set keqb d k v)) <-> a = k \/ In a (map fst d).
Proof.
  intros d k v a. rewrite dict_keys_set.
  destruct (dict_mem keqb d k) eqn:E.
  - split; [auto|]. intros [->|H]; [|exact H]. apply dict_mem_keys. exact E.
  - rewrite in_app_iff. simpl. intuition.
Qed.
End DictFacts.

Lemma okey_eqb_spec : forall a b, okey_eqb a b = true <-> a = b.
Proof.
  intros [x|] [y|]; simpl; split; intros H; try discriminate; try reflexivity.
  - apply Z.eqb_eq in H. subst. reflexivity.
  - inversion H. apply Z.eqb_refl.
Qed.

Lemma gkey_eqb_spec : forall a b, gkey_eqb a b = true <-> a = b.
Proof.
  intros [a1 a2] [b1 b2]. unfold gkey_eqb. simpl.
  rewrite andb_true_iff, !String.eqb_eq. split.
  - intros [-> ->]. reflexivity.
  - intros H. inversion H. auto.
Qed.

Lemma dval_eqb_spec : forall a b, dval_eqb a b = true <-> a = b.
Proof.
  intros [x|] [y|]; simpl; split; intros H; try discriminate; try reflexivity.
  - apply Nat.eqb_eq in H. subst. reflexivity.
  - inversion H. apply Nat.eqb_refl.
Qed.

(* ================================================================== *)
(** ** Generic list facts *)

Lemma filter_length_lt {A : Type} (f g : A -> bool) (l : list A) (a : A) :
  (forall x, g x = true -> f x = true) ->
  In a l -> f a = true -> g a = false ->
  List.length (filter g l) < List.length (filter f l).
Proof.
  intros Hgf Hin Hfa Hga.
  assert (Hle : forall l', List.length (filter g l') <= List.length (filter f l')).
  { induction l' as [|x l' IH]; simpl; [lia|].
    destruct (g x) eqn:Eg.
    - rewrite (Hgf x Eg). simpl. lia.
    - destruct (f x); simpl; lia. }
  induction l as [|x l IH]; simpl in *; [contradiction|].
  destruct Hin as [->|Hin].
  - rewrite Hfa, Hga. simpl. specialize (Hle l). lia.
  - specialize (IH Hin). destruct (g x) eqn:Eg.
    + rewrite (Hgf x Eg). simpl. lia.
    + destruct (f x); simpl; lia.
Qed.

(* ================================================================== *)
(** ** Distances *)

Lemma dist_get_set : forall d k k' v,
    dist_get (dict_set okey_eqb d k v) k'
    = if okey_eqb k k' then v else dist_get d k'.
Proof.
  intros d k k' v. unfold dist_get, dict_get_default.
  rewrite (dict_get_set okey_eqb okey_eqb_spec).
  destruct (okey_eqb k k'); reflexivity.
Qed.

Lemma dist_get_set_same : forall d k v,
    dist_get (dict_set okey_eqb d k v) k = v.
Proof.
  intros. rewrite dist_get_set, (keqb_refl okey_eqb okey_eqb_spec). reflexivity.
Qed.

Lemma dist_get_set_other : forall d k k' v,
    k <> k' -> dist_get (dict_set okey_eqb d k v) k' = dist_get d k'.
Proof.
  intros. rewrite dist_get_set, (keqb_neq okey_eqb okey_eqb_spec); auto.
Qed.

(** A key whose distance is not [INF] is present, so [dist[k]] succeeds. *)
Lemma dist_getitem_ok : forall d k,
    dist_get d k <> INF ->
    dict_getitem okey_eqb d k = Ok (dist_get d k).
Proof.
  intros d k H. unfold dist_get, dict_get_default, dict_getitem in *.
  destruct (dict_get okey_eqb d k); [reflexivity|contradiction].
Qed.

Lemma dist_getitem_present : forall d k,
    dict_get okey_eqb d k <> None ->
    dict_getitem okey_eqb d k = Ok (dist_get d k).
Proof.
  intros d k H. unfold dist_get, dict_get_default, dict_getitem in *.
  destruct (dict_get okey_eqb d k); [reflexivity|contradiction].
Qed.

Lemma dval_ltb_irrefl : forall a, dval_ltb a a = false.
Proof. intros [n|]; simpl; [apply Nat.ltb_irrefl|reflexivity]. Qed.

Lemma dval_eqb_INF : forall a, dval_eqb a INF = true <-> a = INF.
Proof. intros a. apply dval_eqb_spec. Qed.

Lemma dval_eqb_INF_false : forall a, dval_eqb a INF = false <-> a <> INF.
Proof.
  intros a. destruct a; simpl; split; intros H; try congruence; try discriminate.
Qed.

(** [d'] keeps every finite entry of [d] (the [bfs] direction). *)
Definition dist_ext (d d' : list (okey * dval)) : Prop :=
  forall a, dist_get d a <> INF -> dist_get d' a = dist_get d a.

(** [d'] is [d] with some entries reset to [INF] (the [dfs] direction). *)
Definition dist_mono (d d' : list (okey * dval)) : Prop :=
  forall a, dist_get d' a = dist_get d a \/ dist_get d' a = INF.

Lemma dist_ext_refl : forall d, dist_ext d d.
Proof. intros d a _. reflexivity. Qed.

Lemma dist_ext_trans : forall d1 d2 d3,
    dist_ext d1 d2 -> dist_ext d2 d3 -> dist_ext d1 d3.
Proof.
  intros d1 d2 d3 H12 H23 a Ha.
  rewrite H23; rewrite H12; auto.
Qed.

Lemma dist_mono_refl : forall d, dist_mono d d.
Proof. intros d a. left. reflexivity. Qed.

Lemma dist_mono_trans : forall d1 d2 d3,
    dist_mono d1 d2 -> dist_mono d2 d3 -> dist_mono d1 d3.
Proof.
  intros d1 d2 d3 H12 H23 a.
  destruct (H23 a) as [H|H]; [|right; exact H].
  rewrite H. apply H12.
Qed.

Lemma dist_mono_fin : forall d d' a k,
    dist_mono d d' -> dist_get d' a = Fin k -> dist_get d a = Fin k.
Proof.
  intros d d' a k Hm H. destruct (Hm a) as [E|E]; congruence.
Qed.

Lemma dist_mono_set_INF : forall d k, dist_mono d (dict_set okey_eqb d k INF).
Proof.
  intros d k a. rewrite dist_get_set. destruct (okey_eqb k a); auto.
Qed.

(* ================================================================== *)
(** ** Correctness of [hopcroft_karp] *)

Section HKProofs.
Variable graph : pygraph.
Variable left_nodes : list node.

(** [graph] maps every left node to a list. *)
Hypothesis graph_total :
  forall u, In u left_nodes ->
            exists adj, graph_getitem graph (Some u) = Ok adj.

Definition edge (u v : node) : Prop :=
  exists adj, graph_getitem graph (Some u) = Ok adj /\ In v adj.

(** Keys that may carry a distance: the sentinel and the left nodes. *)
Definition closed (a : okey) : Prop :=
  match a with
  | None => True
  | Some x => In x left_nodes
  end.

Definition univ : list okey := None :: map Some left_nodes.

Lemma closed_univ : forall a, closed a -> In a univ.
Proof.
  intros [x|] H; simpl in *; [right; apply in_map; exact H|left; reflexivity].
Qed.

(** Number of keys still at [INF]; it decreases with every [append] of
    [bfs]. *)
Definition cnt_inf (d : list (okey * dval)) : nat :=
  List.length (filter (fun a => dval_eqb (dist_get d a) INF) univ).

Lemma cnt_inf_le : forall d, cnt_inf d <= List.length left_nodes + 1.
Proof.
  intros d. unfold cnt_inf.
  etransitivity; [apply filter_length_le|].
  unfold univ. simpl. rewrite length_map. lia.
Qed.

(** A reached key leaves at most [|left_nodes|] keys at [INF]. *)
Lemma cnt_inf_reached : forall d a k,
    closed a -> dist_get d a = Fin k -> cnt_inf d <= List.length left_nodes.
Proof.
  intros d a k Hc Ha. unfold cnt_inf.
  assert (Hall : List.length (filter (fun _ : option Z => true) univ)
                 = List.length left_nodes + 1).
  { assert (Hf : forall l : list (option Z), filter (fun _ => true) l = l).
    { induction l as [|x l IH]; simpl; [reflexivity|rewrite IH; reflexivity]. }
    rewrite Hf. unfold univ. simpl. rewrite length_map. lia. }
  assert (Hlt : List.length (filter (fun a => dval_eqb (dist_get d a) INF) univ)
                < List.length (filter (fun _ : option Z => true) univ)).
  { apply filter_length_lt with (a := a).
    - reflexivity.
    - apply closed_univ. exact Hc.
    - reflexivity.
    - rewrite Ha. reflexivity. }
  lia.
Qed.

Lemma cnt_inf_set : forall d a n,
    closed a -> dist_get d a = INF ->
    cnt_inf (dict_set okey_eqb d a (Fin n)) < cnt_inf d.
Proof.
  intros d a n Hc Ha. unfold cnt_inf.
  apply filter_length_lt with (a := a).
  - intros x Hx. rewrite dist_get_set in Hx.
    destruct (okey_eqb a x) eqn:E; [discriminate|exact Hx].
  - apply closed_univ. exact Hc.
  - rewrite Ha. reflexivity.
  - rewrite dist_get_set_same. reflexivity.
Qed.

(** *** The invariant of the matching *)

Record hk_inv (s : hk_state) : Prop := {
  inv_nodup : NoDup (map fst (match_left s));
  inv_sym : forall u v,
      dict_get Z.eqb (match_left s) u = Some v
      <-> dict_get Z.eqb (match_right s) v = Some u;
  inv_left : forall u v,
      dict_get Z.eqb (match_left s) u = Some v -> In u left_nodes;
  inv_edge : forall u v,
      dict_get Z.eqb (match_left s) u = Some v -> edge u v;
  inv_size : matching_size s = List.length (match_left s);
  inv_dist : forall a, dist_get (dist s) a <> INF -> closed a
}.

Lemma hk_inv_init : hk_inv hk_init.
Proof.
  constructor; simpl; try (intros; discriminate); try reflexivity.
  - constructor.
  - intros u v. split; discriminate.
  - intros a H. exfalso. apply H. reflexivity.
Qed.

Lemma hk_inv_mr_closed : forall s v,
    hk_inv s -> closed (dict_get Z.eqb (match_right s) v).
Proof.
  intros s v Hinv. destruct (dict_get Z.eqb (match_right s) v) as [w|] eqn:E;
    simpl; [|exact I].
  apply (inv_sym Hinv) in E. eapply inv_left; eauto.
Qed.

(** *** [bfs] *)

Section Bfs.
Variable ml mr : list (node * node).
Hypothesis mr_closed : forall v, closed (dict_get Z.eqb mr v).

(** Where a finite distance comes from: layer 0 holds the unmatched
    left nodes, layer [k+1] is entered through an edge and the partner
    of its right end. *)
Definition dist_pred (d : list (okey * dval)) (a : okey) (k : nat) : Prop :=
  match k with
  | O => exists u, a = Some u /\ In u left_nodes /\ dict_get Z.eqb ml u = None
  | S k' => exists x v, dist_get d (Some x) = Fin k' /\ In x left_nodes /\
                        edge x v /\ dict_get Z.eqb mr v = a
  end.

Record bfs_inv (d : list (okey * dval)) : Prop := {
  bi_none : dict_get okey_eqb d None <> None;
  bi_free : forall u, In u left_nodes -> dict_get Z.eqb ml u = None ->
                      dist_get d (Some u) = Fin 0;
  bi_pred : forall a k, dist_get d a = Fin k -> dist_pred d a k;
  bi_bound : forall a k, dist_get d a = Fin k ->
                         k + cnt_inf d <= List.length left_nodes;
  bi_closed : forall a, dist_get d a <> INF -> closed a
}.

Definition queue_ok (d : list (okey * dval)) (q : list okey) : Prop :=
  forall a, In a q -> dist_get d a <> INF.

(** While the sentinel is unreached, every reached left node is either
    waiting in the queue or has all its neighbours' partners reached. *)
Definition expanded (d : list (okey * dval)) (q : list okey) : Prop :=
  dist_get d None = INF ->
  forall x, dist_get d (Some x) <> INF ->
            In (Some x) q \/
            (forall v, edge x v -> dist_get d (dict_get Z.eqb mr v) <> INF).

Lemma bfs_inv_set : forall d x k v,
    bfs_inv d -> dist_get d (Some x) = Fin k -> In x left_nodes ->
    edge x v -> dist_get d (dict_get Z.eqb mr v) = INF ->
    bfs_inv (dict_set okey_eqb d (dict_get Z.eqb mr v) (Fin (S k))).
Proof.
  intros d x k v Hinv Hx Hin He Hv.
  set (u' := dict_get Z.eqb mr v) in *.
  assert (Hne : forall a j, dist_get d a = Fin j -> u' <> a).
  { intros a j Ha ->. congruence. }
  constructor.
  - rewrite (dict_get_set okey_eqb okey_eqb_spec).
    destruct (okey_eqb u' None); [discriminate|apply (bi_none Hinv)].
  - intros u Hu Hfree. rewrite dist_get_set_other.
    + apply (bi_free Hinv); assumption.
    + apply Hne with (j := 0). apply (bi_free Hinv); assumption.
  - intros a j Ha. rewrite dist_get_set in Ha.
    destruct (okey_eqb u' a) eqn:E.
    + apply okey_eqb_spec in E. subst a. inversion Ha; subst j. simpl.
      exists x, v. rewrite dist_get_set_other by (eapply Hne; eauto).
      auto.
    + pose proof (bi_pred Hinv _ Ha) as Hp. destruct j as [|j]; simpl in *.
      * exact Hp.
      * destruct Hp as (x0 & v0 & H1 & H2 & H3 & H4).
        exists x0, v0. rewrite dist_get_set_other by (eapply Hne; eauto).
        auto.
  - intros a j Ha.
    assert (Hlt : cnt_inf (dict_set okey_eqb d u' (Fin (S k))) < cnt_inf d).
    { apply cnt_inf_set; [apply mr_closed|exact Hv]. }
    rewrite dist_get_set in Ha. destruct (okey_eqb u' a) eqn:E.
    + inversion Ha; subst j. pose proof (bi_bound Hinv _ Hx). lia.
    + pose proof (bi_bound Hinv _ Ha). lia.
  - intros a Ha. rewrite dist_get_set in Ha.
    destruct (okey_eqb u' a) eqn:E.
    + apply okey_eqb_spec in E. subst a. apply mr_closed.
    + apply (bi_closed Hinv). exact Ha.
Qed.

Lemma bfs_scan_spec : forall vs x k d q,
    In x left_nodes -> (forall v, In v vs -> edge x v) ->
    dist_get d (Some x) = Fin k -> bfs_inv d -> queue_ok d q ->
    exists d' q',
      bfs_scan (Some x) vs mr d q = Ok (d', q') /\
      bfs_inv d' /\ queue_ok d' q' /\ dist_ext d d' /\
      (forall a, In a q -> In a q') /\
      (forall a, dist_get d a = INF -> dist_get d' a <> INF -> In a q') /\
      (forall v, In v vs -> dist_get d' (dict_get Z.eqb mr v) <> INF) /\
      List.length q' + cnt_inf d' <= List.length q + cnt_inf d.
Proof.
  induction vs as [|v vs IH]; intros x k d q Hx Hedges Hdx Hinv Hq; simpl.
  - exists d, q.
    split; [reflexivity|]. split; [exact Hinv|]. split; [exact Hq|].
    split; [apply dist_ext_refl|]. split; [auto|].
    split; [intros a H1 H2; contradiction|].
    split; [intros v []|lia].
  - destruct (dval_eqb (dist_get d (dict_get Z.eqb mr v)) INF) eqn:E.
    + apply dval_eqb_INF in E.
      rewrite dist_getitem_ok by congruence. simpl. rewrite Hdx. simpl.
      set (u' := dict_get Z.eqb mr v) in *.
      set (d1 := dict_set okey_eqb d u' (Fin (S k))).
      assert (Hne : forall a, dist_get d a <> INF -> u' <> a).
      { intros a Ha ->. congruence. }
      assert (Hext : dist_ext d d1).
      { intros a Ha. unfold d1. apply dist_get_set_other. auto. }
      destruct (IH x k d1 (q ++ [u'])) as (d' & q' & Hrun & Hinv' & Hq' & Hext' & Hqq & Hnew & Hvs & Hlen).
      * exact Hx.
      * intros v0 Hv0. apply Hedges. right. exact Hv0.
      * rewrite Hext; congruence.
      * apply bfs_inv_set with (x := x); auto. apply Hedges. left. reflexivity.
      * intros a Ha. apply in_app_iff in Ha. destruct Ha as [Ha|[<-|[]]].
        -- rewrite Hext; auto.
        -- unfold d1. rewrite dist_get_set_same. discriminate.
      * exists d', q'. split; [exact Hrun|].
        split; [exact Hinv'|]. split; [exact Hq'|].
        split; [eapply dist_ext_trans; eauto|].
        split; [intros a Ha; apply Hqq, in_app_iff; left; exact Ha|].
        split.
        { intros a Ha Ha'.
          destruct (keqb_dec okey_eqb okey_eqb_spec u' a) as [->|Hua].
          - apply Hqq, in_app_iff. right. left. reflexivity.
          - apply Hnew; [|exact Ha'].
            unfold d1. rewrite dist_get_set_other; assumption. }
        split.
        { intros v0 [<-|Hv0]; [|apply Hvs; exact Hv0].
          fold u'. rewrite Hext'; unfold d1; rewrite dist_get_set_same; discriminate. }
        assert (Hc : cnt_inf d1 < cnt_inf d).
        { apply cnt_inf_set; [apply mr_closed|exact E]. }
        rewrite length_app in Hlen. simpl in Hlen. lia.
    + apply dval_eqb_INF_false in E.
      destruct (IH x k d q) as (d' & q' & Hrun & Hinv' & Hq' & Hext' & Hqq & Hnew & Hvs & Hlen); auto.
      { intros v0 Hv0. apply Hedges. right. exact Hv0. }
      exists d', q'.
      split; [exact Hrun|]. split; [exact Hinv'|]. split; [exact Hq'|].
      split; [exact Hext'|]. split; [exact Hqq|]. split; [exact Hnew|].
      split; [|exact Hlen].
      intros v0 [<-|Hv0]; [|apply Hvs; exact Hv0].
      rewrite Hext'; assumption.
Qed.

Lemma bfs_loop_spec : forall fuel d q,
    bfs_inv d -> queue_ok d q -> expanded d q ->
    List.length q + cnt_inf d < fuel ->
    exists d', bfs_loop graph fuel mr d q = Ok d' /\
               bfs_inv d' /\ expanded d' [].
Proof.
  induction fuel as [|fuel IH]; intros d q Hinv Hq Hexp Hfuel; [lia|].
  destruct q as [|u q]; simpl.
  - exists d. auto.
  - assert (Hu : dist_get d u <> INF) by (apply Hq; left; reflexivity).
    rewrite (dist_getitem_ok _ _ Hu). simpl.
    rewrite (dist_getitem_present _ _ (bi_none Hinv)). simpl.
    assert (Hq' : queue_ok d q) by (intros a Ha; apply Hq; right; exact Ha).
    simpl in Hfuel.
    destruct (dval_ltb (dist_get d u) (dist_get d None)) eqn:Elt.
    + destruct u as [x|]; [|rewrite dval_ltb_irrefl in Elt; discriminate].
      assert (Hx : In x left_nodes) by (apply (bi_closed Hinv (Some x)); exact Hu).
      destruct (graph_total x Hx) as [adj Hadj]. rewrite Hadj. simpl.
      destruct (dist_get d (Some x)) as [k|] eqn:Hdx; [|congruence].
      assert (Hedges : forall v, In v adj -> edge x v).
      { intros v Hv. exists adj. auto. }
      destruct (@bfs_scan_spec adj x k d q Hx Hedges Hdx Hinv Hq')
        as (d' & q' & Hrun & Hinv' & Hqok' & Hext & Hqq & Hnew & Hvs & Hlen).
      rewrite Hrun. simpl. apply IH; auto; [|lia].
      intros Hnone y Hy.
      assert (Hnone0 : dist_get d None = INF).
      { destruct (dist_get d None) eqn:E; [|reflexivity].
        rewrite Hext in Hnone; congruence. }
      destruct (dist_get d (Some y)) as [j|] eqn:Hdy.
      * destruct (Hexp Hnone0 y) as [[Hyx|Hyq]|Hdone]; [congruence| | |].
        -- inversion Hyx; subst y. right. intros v [adj' [Hadj' Hv]].
           apply Hvs. congruence.
        -- left. apply Hqq. exact Hyq.
        -- right. intros v Hv. rewrite Hext; auto.
      * left. apply Hnew; assumption.
    + apply IH; auto; [|lia].
      intros Hnone y Hy.
      destruct (Hexp Hnone y Hy) as [[Hyx|Hyq]|Hdone]; auto.
      subst u. rewrite Hnone in Elt.
      destruct (dist_get d (Some y)); [discriminate|congruence].
Qed.

Lemma bfs_init_spec : forall us d q d' q',
    bfs_init us ml d q = (d', q') ->
    (forall u, In u us ->
               dist_get d' (Some u)
               = if dict_mem Z.eqb ml u then INF else Fin 0) /\
    (forall a, (forall u, In u us -> a <> Some u) ->
               dist_get d' a = dist_get d a) /\
    (forall a, In a q' ->
               In a q \/ exists u, a = Some u /\ In u us /\
                                   dict_mem Z.eqb ml u = false) /\
    (forall a, In a q -> In a q') /\
    (forall u, In u us -> dict_mem Z.eqb ml u = false -> In (Some u) q') /\
    List.length q' <= List.length q + List.length us.
Proof.
  induction us as [|u0 us IH]; intros d q d' q' Hrun; simpl in Hrun.
  - inversion Hrun; subst.
    split; [intros u []|]. split; [auto|]. split; [auto|].
    split; [auto|]. split; [intros u []|simpl; lia].
  - set (val := fun u => if dict_mem Z.eqb ml u then INF else Fin 0).
    set (d1 := dict_set okey_eqb d (Some u0) (val u0)).
    set (q1 := if dict_mem Z.eqb ml u0 then q else q ++ [Some u0]).
    assert (Hrun1 : bfs_init us ml d1 q1 = (d', q')).
    { unfold d1, q1, val. destruct (dict_mem Z.eqb ml u0); exact Hrun. }
    destruct (IH _ _ _ _ Hrun1) as (H1 & H2 & H3 & H4 & H5 & H6).
    assert (Hq1 : forall a, In a q -> In a q1).
    { intros a Ha. unfold q1. destruct (dict_mem Z.eqb ml u0); [exact Ha|].
      apply in_app_iff. left. exact Ha. }
    split.
    { intros u [<-|Hu]; [|apply H1; exact Hu].
      destruct (in_dec Z.eq_dec u0 us) as [Hin|Hnin]; [apply H1; exact Hin|].
      rewrite H2.
      - unfold d1. apply dist_get_set_same.
      - intros u Hu E. inversion E; subst. contradiction. }
    split.
    { intros a Ha. rewrite H2.
      - unfold d1. apply dist_get_set_other. intros E.
        apply (Ha u0); [left; reflexivity|symmetry; exact E].
      - intros u Hu. apply Ha. right. exact Hu. }
    split.
    { intros a Ha. destruct (H3 a Ha) as [Hq|(u & -> & Hu & Hm)].
      - unfold q1 in Hq. destruct (dict_mem Z.eqb ml u0) eqn:E; [left; exact Hq|].
        apply in_app_iff in Hq. destruct Hq as [Hq|[<-|[]]]; [left; exact Hq|].
        right. exists u0. simpl. auto.
      - right. exists u. simpl. auto. }
    split; [intros a Ha; apply H4, Hq1, Ha|].
    split.
    { intros u [<-|Hu] Hm; [|apply H5; assumption].
      apply H4. unfold q1. rewrite Hm. apply in_app_iff. right. left. reflexivity. }
    assert (List.length q1 <= S (List.length q)).
    { unfold q1. destruct (dict_mem Z.eqb ml u0); [lia|].
      rewrite length_app. simpl. lia. }
    simpl. lia.
Qed.
End Bfs.

(** What [bfs] establishes when the matching is consistent. *)
Lemma bfs_spec : forall fuel s,
    hk_inv s -> 2 * List.length left_nodes + 2 <= fuel ->
    exists s',
      bfs graph left_nodes fuel s
      = Ok (negb (dval_eqb (dist_get (dist s') None) INF), s') /\
      match_left s' = match_left s /\ match_right s' = match_right s /\
      matching_size s' = matching_size s /\
      bfs_inv (match_left s) (match_right s) (dist s') /\
      expanded (match_right s) (dist s') [].
Proof.
  intros fuel s Hinv Hfuel. unfold bfs.
  destruct (bfs_init left_nodes (match_left s) (dist s) []) as [d0 q0] eqn:Einit.
  destruct (bfs_init_spec _ _ _ _ Einit) as (H1 & H2 & H3 & _ & H5 & H6).
  set (d1 := dict_set okey_eqb d0 None INF).
  assert (Hd1 : forall x, dist_get d1 (Some x) = dist_get d0 (Some x)).
  { intros x. unfold d1. apply dist_get_set_other. discriminate. }
  assert (Hfin : forall a k, dist_get d1 a = Fin k ->
                 k = 0 /\ exists u, a = Some u /\ In u left_nodes /\
                                    dict_get Z.eqb (match_left s) u = None).
  { intros [x|] k Ha.
    - rewrite Hd1 in Ha.
      destruct (in_dec Z.eq_dec x left_nodes) as [Hin|Hnin].
      + rewrite (H1 x Hin) in Ha. unfold dict_mem in Ha.
        destruct (dict_get Z.eqb (match_left s) x) eqn:E; [discriminate|].
        inversion Ha. split; [reflexivity|]. exists x. auto.
      + rewrite H2 in Ha.
        * exfalso. apply Hnin.
          apply (inv_dist Hinv (Some x)). congruence.
        * intros u Hu E. inversion E; subst. contradiction.
    - unfold d1 in Ha. rewrite dist_get_set_same in Ha. discriminate. }
  assert (Hmrc : forall v, closed (dict_get Z.eqb (match_right s) v)).
  { intros v. apply hk_inv_mr_closed. exact Hinv. }
  assert (Hbi : bfs_inv (match_left s) (match_right s) d1).
  { constructor.
    - unfold d1. rewrite (dict_get_set_same okey_eqb okey_eqb_spec). discriminate.
    - intros u Hu Hfree. rewrite Hd1, (H1 u Hu). unfold dict_mem.
      rewrite Hfree. reflexivity.
    - intros a k Ha. destruct (Hfin a k Ha) as [-> Hex]. exact Hex.
    - intros a k Ha. destruct (Hfin a k Ha) as [-> (u & -> & Hu & _)].
      pose proof (@cnt_inf_reached d1 (Some u) 0 Hu Ha). lia.
    - intros a Ha. destruct (dist_get d1 a) as [k|] eqn:E; [|congruence].
      destruct (Hfin a k E) as [_ (u & -> & Hu & _)]. exact Hu. }
  assert (Hq0 : queue_ok d1 q0).
  { intros a Ha. destruct (H3 a Ha) as [[]|(u & -> & Hu & Hm)].
    rewrite Hd1, (H1 u Hu), Hm. discriminate. }
  assert (Hexp : expanded (match_right s) d1 q0).
  { intros _ x Hx. left.
    destruct (dist_get d1 (Some x)) as [k|] eqn:E; [|congruence].
    destruct (Hfin _ _ E) as [_ (u & Hu1 & Hu2 & Hu3)]. inversion Hu1; subst u.
    apply H5; [exact Hu2|]. unfold dict_mem. rewrite Hu3. reflexivity. }
  destruct (@bfs_loop_spec (match_left s) (match_right s) Hmrc fuel d1 q0)
    as (d2 & Hrun & Hbi2 & Hexp2); auto.
  { pose proof (cnt_inf_le d1). simpl in H6. lia. }
  fold d1. rewrite Hrun. simpl.
  rewrite (dist_getitem_present _ _ (bi_none Hbi2)). simpl.
  exists (set_dist s d2). simpl.
  repeat (split; [reflexivity|]). split; assumption.
Qed.

(** *** [dfs] *)

(** [reach mr d a]: from [a] the sentinel can be reached along edges
    that advance the layering of [d] by exactly one, the condition
    tested by [dfs]. *)
Inductive reach (mr : list (node * node)) (d : list (okey * dval))
  : okey -> Prop :=
| reach_none : reach mr d None
| reach_step : forall x k v,
    dist_get d (Some x) = Fin k -> edge x v ->
    dist_get d (dict_get Z.eqb mr v) = Fin (S k) ->
    reach mr d (dict_get Z.eqb mr v) ->
    reach mr d (Some x).

Lemma reach_anti : forall mr d d' a,
    dist_mono d d' -> reach mr d' a -> reach mr d a.
Proof.
  intros mr d d' a Hm H. induction H as [|x k v Hx He Hv _ IH].
  - constructor.
  - apply reach_step with (k := k) (v := v); eauto using dist_mono_fin.
Qed.

Lemma reach_kill : forall mr d x a,
    ~ reach mr d (Some x) -> reach mr d a ->
    reach mr (dict_set okey_eqb d (Some x) INF) a.
Proof.
  intros mr d x a Hnx H. induction H as [|y k v Hy He Hv Hr IH].
  - constructor.
  - assert (Hyx : Some x <> Some y).
    { intros E. inversion E; subst. apply Hnx. eapply reach_step; eauto. }
    apply reach_step with (k := k) (v := v); auto.
    + rewrite dist_get_set_other; assumption.
    + rewrite dist_get_set_other; [assumption|].
      intros E. apply Hnx. rewrite E. exact Hr.
Qed.

(** When [bfs] reaches the sentinel, some unmatched left node reaches it
    through the layering. *)
Lemma bfs_reach : forall ml mr d,
    bfs_inv ml mr d -> dist_get d None <> INF ->
    exists u0, In u0 left_nodes /\ dict_get Z.eqb ml u0 = None /\
               reach mr d (Some u0).
Proof.
  intros ml mr d Hbi Hnone.
  assert (Hback : forall k a, dist_get d a = Fin k -> reach mr d a ->
            exists u0, In u0 left_nodes /\ dict_get Z.eqb ml u0 = None /\
                       reach mr d (Some u0)).
  { induction k as [|k IH]; intros a Ha Hr.
    - destruct (bi_pred Hbi _ Ha) as (u & -> & Hu & Hfree). exists u. auto.
    - destruct (bi_pred Hbi _ Ha) as (x & v & Hx & Hin & He & Hv). subst a.
      apply (IH (Some x) Hx). eapply reach_step; eauto. }
  destruct (dist_get d None) as [k|] eqn:E; [|congruence].
  apply (Hback k None E). constructor.
Qed.

(** Rematching [x] to [v] after the partner of [v] has moved on. *)
Lemma augment_step : forall (ml ml' mr' : list (node * node)) x v,
    (forall a b, dict_get Z.eqb ml' a = Some b
                 <-> dict_get Z.eqb mr' b = Some a /\ b <> v) ->
    dict_get Z.eqb ml' x = dict_get Z.eqb ml x ->
    dict_get Z.eqb ml x <> Some v ->
    forall a b,
      dict_get Z.eqb (dict_set Z.eqb ml' x v) a = Some b
      <-> dict_get Z.eqb (dict_set Z.eqb mr' v x) b = Some a /\
          Some b <> dict_get Z.eqb ml x.
Proof.
  intros ml ml' mr' x v Hsym Hfr Hxv a b.
  rewrite !(dict_get_set Z.eqb Z.eqb_eq).
  destruct (Z.eqb x a) eqn:Exa; destruct (Z.eqb v b) eqn:Evb;
    rewrite ?Z.eqb_eq in *; rewrite ?Z.eqb_neq in *; subst.
  - split; [intros _; split; [reflexivity|congruence]|reflexivity].
  - split.
    + intros H. inversion H. congruence.
    + intros [H1 H2]. exfalso. apply H2. rewrite <- Hfr. symmetry.
      apply Hsym. split; [exact H1|congruence].
  - split.
    + intros H. apply Hsym in H. destruct H as [_ H]. congruence.
    + intros [H _]. inversion H. congruence.
  - split.
    + intros H. pose proof H as H0. apply Hsym in H. destruct H as [H1 H2].
      split; [exact H1|]. intros E. rewrite <- Hfr in E. symmetry in E.
      apply Hsym in E. destruct E as [E _]. congruence.
    + intros [H _]. apply Hsym. split; [exact H|congruence].
Qed.

Definition dist_bound (N : nat) (s : hk_state) : Prop :=
  forall a k, dist_get (dist s) a = Fin k -> k <= N.

(** Outcome of [dfs(x)] entered in state [s] with [dist[x] = k]. *)
Definition dfs_post (x : node) (k : nat) (s : hk_state)
           (found : bool) (s' : hk_state) : Prop :=
  dist_mono (dist s) (dist s') /\
  matching_size s' = matching_size s /\
  (forall a, dist_get (dist s') a <> dist_get (dist s) a ->
             a = Some x \/ exists j, dist_get (dist s) a = Fin j /\ k < j) /\
  if found then
    NoDup (map fst (match_left s')) /\
    (forall a b,
        dict_get Z.eqb (match_left s') a = Some b
        <-> dict_get Z.eqb (match_right s') b = Some a /\
            Some b <> dict_get Z.eqb (match_left s) x) /\
    (forall a b, dict_get Z.eqb (match_left s') a = Some b ->
                 In a left_nodes /\ edge a b) /\
    (forall a, dict_get Z.eqb (match_left s') a <> dict_get Z.eqb (match_left s) a ->
               a = x \/ exists j, dist_get (dist s) (Some a) = Fin j /\ k < j) /\
    (forall a, dict_get Z.eqb (match_left s') a = None ->
               dict_get Z.eqb (match_left s) a = None) /\
    dict_get Z.eqb (match_left s') x <> None /\
    List.length (match_left s')
    = List.length (match_left s)
      + (if dict_mem Z.eqb (match_left s) x then 0 else 1)
  else
    match_left s' = match_left s /\ match_right s' = match_right s /\
    ~ reach (match_right s) (dist s) (Some x) /\
    (forall a, reach (match_right s) (dist s) a ->
               reach (match_right s) (dist s') a).

Definition dfs_post_o (u : okey) (k : nat) (s : hk_state)
           (found : bool) (s' : hk_state) : Prop :=
  match u with
  | Some x => dfs_post x k s found s'
  | None => found = true /\ s' = s
  end.

(** State of the loop of [dfs(x)] relative to the state [s0] at entry:
    only distances of deeper layers were reset. *)
Definition scan_rel (k : nat) (s0 s : hk_state) : Prop :=
  match_left s = match_left s0 /\ match_right s = match_right s0 /\
  matching_size s = matching_size s0 /\
  dist_mono (dist s0) (dist s) /\
  (forall a, dist_get (dist s) a <> dist_get (dist s0) a ->
             exists j, dist_get (dist s0) a = Fin j /\ k < j) /\
  (forall a, reach (match_right s0) (dist s0) a ->
             reach (match_right s0) (dist s) a).

Lemma scan_rel_refl : forall k s, scan_rel k s s.
Proof.
  intros k s. unfold scan_rel. repeat (split; [reflexivity|]).
  split; [apply dist_mono_refl|]. split; [|auto].
  intros a H. congruence.
Qed.

Lemma scan_rel_inv : forall k s0 s, hk_inv s0 -> scan_rel k s0 s -> hk_inv s.
Proof.
  intros k s0 s Hinv (Hml & Hmr & Hsz & Hm & _ & _).
  destruct Hinv as [H1 H2 H3 H4 H5 H6].
  constructor; rewrite ?Hml, ?Hmr, ?Hsz; auto.
  intros a Ha. apply H6. destruct (Hm a) as [E|E]; congruence.
Qed.

Lemma scan_rel_bound : forall N k s0 s,
    dist_bound N s0 -> scan_rel k s0 s -> dist_bound N s.
Proof.
  intros N k s0 s Hb (_ & _ & _ & Hm & _ & _) a j Ha.
  apply (Hb a). eapply dist_mono_fin; eauto.
Qed.

Lemma scan_rel_dist : forall k s0 s x,
    scan_rel k s0 s -> dist_get (dist s0) (Some x) = Fin k ->
    dist_get (dist s) (Some x) = Fin k.
Proof.
  intros k s0 s x (_ & _ & _ & _ & Hfr & _) Hx.
  destruct (dval_eqb (dist_get (dist s) (Some x)) (dist_get (dist s0) (Some x))) eqn:E.
  - apply dval_eqb_spec in E. congruence.
  - exfalso. destruct (Hfr (Some x)) as (j & Hj & Hlt).
    + intros E'. rewrite E' in E.
      assert (dval_eqb (dist_get (dist s0) (Some x)) (dist_get (dist s0) (Some x)) = true)
        by (apply dval_eqb_spec; reflexivity).
      congruence.
    + rewrite Hx in Hj. inversion Hj. lia.
Qed.

Lemma option_Z_dec : forall a b : option Z, {a = b} + {a <> b}.
Proof. decide equality. apply Z.eq_dec. Qed.

Lemma dval_dec : forall a b : dval, {a = b} + {a <> b}.
Proof. decide equality. apply Nat.eq_dec. Qed.

(** What the caller of a successful [dfs(u')] knows, whether [u'] is the
    sentinel or the partner of [v]. *)
Lemma callee_summary : forall k s v s',
    hk_inv s ->
    dist_get (dist s) (dict_get Z.eqb (match_right s) v) = Fin (S k) ->
    dfs_post_o (dict_get Z.eqb (match_right s) v) (S k) s true s' ->
    dist_mono (dist s) (dist s') /\
    matching_size s' = matching_size s /\
    (forall a, dist_get (dist s') a <> dist_get (dist s) a ->
               exists j, dist_get (dist s) a = Fin j /\ k < j) /\
    NoDup (map fst (match_left s')) /\
    (forall a b,
        dict_get Z.eqb (match_left s') a = Some b
        <-> dict_get Z.eqb (match_right s') b = Some a /\ b <> v) /\
    (forall a b, dict_get Z.eqb (match_left s') a = Some b ->
                 In a left_nodes /\ edge a b) /\
    (forall a, dict_get Z.eqb (match_left s') a <> dict_get Z.eqb (match_left s) a ->
               exists j, dist_get (dist s) (Some a) = Fin j /\ k < j) /\
    (forall a, dict_get Z.eqb (match_left s') a = None ->
               dict_get Z.eqb (match_left s) a = None) /\
    List.length (match_left s') = List.length (match_left s).
Proof.
  intros k s v s' Hinv Hd Hpost.
  destruct (dict_get Z.eqb (match_right s) v) as [x'|] eqn:Ev; simpl in Hpost.
  - destruct Hpost as (Hm & Hsz & Hfd & Hnd & Hsym & Hle & Hfml & Hkeep & _ & Hlen).
    assert (Hx'v : dict_get Z.eqb (match_left s) x' = Some v)
      by (apply (inv_sym Hinv); exact Ev).
    split; [exact Hm|]. split; [exact Hsz|].
    split.
    { intros a Ha. destruct (Hfd a Ha) as [->|(j & Hj & Hlt)].
      - exists (S k). split; [exact Hd|lia].
      - exists j. split; [exact Hj|lia]. }
    split; [exact Hnd|].
    split.
    { intros a b. rewrite Hsym, Hx'v.
      split; intros [H1 H2]; (split; [exact H1|]); congruence. }
    split; [exact Hle|].
    split.
    { intros a Ha. destruct (Hfml a Ha) as [->|(j & Hj & Hlt)].
      - exists (S k). split; [exact Hd|lia].
      - exists j. split; [exact Hj|lia]. }
    split; [exact Hkeep|].
    rewrite Hlen. unfold dict_mem. rewrite Hx'v. lia.
  - destruct Hpost as [_ ->].
    split; [apply dist_mono_refl|]. split; [reflexivity|].
    split; [intros a Ha; congruence|].
    split; [apply (inv_nodup Hinv)|].
    split.
    { intros a b. rewrite (inv_sym Hinv). split.
      - intros H. split; [exact H|]. intros ->. congruence.
      - intros [H _]. exact H. }
    split.
    { intros a b H. split; [eapply inv_left|eapply inv_edge]; eauto. }
    split; [intros a Ha; congruence|].
    split; [auto|reflexivity].
Qed.

Lemma dfs_found : forall x k v s0 s s',
    hk_inv s0 -> In x left_nodes -> edge x v ->
    dist_get (dist s0) (Some x) = Fin k ->
    scan_rel k s0 s ->
    dist_get (dist s) (dict_get Z.eqb (match_right s) v) = Fin (S k) ->
    dfs_post_o (dict_get Z.eqb (match_right s) v) (S k) s true s' ->
    dfs_post x k s0 true
      (mk_state (dict_set Z.eqb (match_left s') x v)
                (dict_set Z.eqb (match_right s') v x)
                (dist s') (matching_size s')).
Proof.
  intros x k v s0 s s' Hinv0 Hx He Hdx Hrel Hdv Hpost.
  pose proof (@scan_rel_inv k s0 s Hinv0 Hrel) as Hinv.
  pose proof (@scan_rel_dist k s0 s x Hrel Hdx) as Hdxs.
  destruct (@callee_summary k s v s' Hinv Hdv Hpost)
    as (Hm & Hsz & Hfd & Hnd & Hsym & Hle & Hfml & Hkeep & Hlen).
  destruct Hrel as (Hml & Hmr & Hsz0 & Hm0 & Hfd0 & _).
  assert (Hfrx : dict_get Z.eqb (match_left s') x = dict_get Z.eqb (match_left s0) x).
  { rewrite <- Hml.
    destruct (option_Z_dec (dict_get Z.eqb (match_left s') x)
                           (dict_get Z.eqb (match_left s) x)) as [E|E]; [exact E|].
    destruct (Hfml x E) as (j & Hj & Hlt). rewrite Hdxs in Hj. inversion Hj. lia. }
  assert (Hxv : dict_get Z.eqb (match_left s0) x <> Some v).
  { intros E. rewrite <- Hml in E. apply (inv_sym Hinv) in E.
    rewrite E, Hdxs in Hdv. inversion Hdv. lia. }
  unfold dfs_post. simpl.
  split; [eapply dist_mono_trans; eauto|].
  split; [congruence|].
  split.
  { intros a Ha. right.
    destruct (dval_dec (dist_get (dist s') a) (dist_get (dist s) a)) as [E|E].
    - rewrite E in Ha. apply Hfd0. exact Ha.
    - destruct (Hfd a E) as (j & Hj & Hlt). exists j. split; [|exact Hlt].
      eapply dist_mono_fin; eauto. }
  split; [apply (dict_set_NoDup Z.eqb Z.eqb_eq); exact Hnd|].
  split; [apply augment_step; assumption|].
  split.
  { intros a b. rewrite (dict_get_set Z.eqb Z.eqb_eq).
    destruct (Z.eqb x a) eqn:E.
    - apply Z.eqb_eq in E. subst a. intros H. inversion H; subst b. auto.
    - apply Hle. }
  split.
  { intros a. rewrite (dict_get_set Z.eqb Z.eqb_eq).
    destruct (Z.eqb x a) eqn:E.
    - apply Z.eqb_eq in E. auto.
    - intros Ha. right. rewrite <- Hml in Ha.
      destruct (Hfml a Ha) as (j & Hj & Hlt). exists j. split; [|exact Hlt].
      eapply dist_mono_fin; eauto. }
  split.
  { intros a. rewrite (dict_get_set Z.eqb Z.eqb_eq).
    destruct (Z.eqb x a) eqn:E; [discriminate|].
    intros H. rewrite <- Hml. apply Hkeep. exact H. }
  split.
  { rewrite (dict_get_set_same Z.eqb Z.eqb_eq). discriminate. }
  rewrite (dict_set_length Z.eqb), Hlen, Hml.
  unfold dict_mem. rewrite Hfrx.
  destruct (dict_get Z.eqb (match_left s0) x); lia.
Qed.

Lemma dfs_scan_spec : forall rec x k N s0 adj,
    hk_inv s0 -> In x left_nodes ->
    dist_get (dist s0) (Some x) = Fin k ->
    dist_bound N s0 ->
    graph_getitem graph (Some x) = Ok adj ->
    (forall u s, hk_inv s -> dist_bound N s -> closed u ->
                 dist_get (dist s) u = Fin (S k) ->
                 exists b s', rec u s = Ok (b, s') /\
                              dfs_post_o u (S k) s b s') ->
    forall vs pre s,
      adj = pre ++ vs -> scan_rel k s0 s ->
      (forall v, In v pre ->
         ~ (dist_get (dist s) (dict_get Z.eqb (match_right s0) v) = Fin (S k) /\
            reach (match_right s0) (dist s)
                  (dict_get Z.eqb (match_right s0) v))) ->
      exists b s', dfs_scan rec x vs s = Ok (b, s') /\ dfs_post x k s0 b s'.
Proof.
  intros rec x k N s0 adj Hinv0 Hx Hdx HN Hadj Hrec.
  induction vs as [|v vs IH]; intros pre s Hpre Hrel Hdead; simpl.
  - pose proof (@scan_rel_dist k s0 s x Hrel Hdx) as Hdxs.
    destruct Hrel as (Hml & Hmr & Hsz & Hm & Hfd & Hfw).
    assert (Hnr : ~ reach (match_right s0) (dist s) (Some x)).
    { intros Hr. inversion Hr as [|x0 k0 v Hx0 He Hv Hrv]; subst.
      rewrite Hdxs in Hx0. inversion Hx0; subst k0.
      destruct He as (adj' & Hadj' & Hin).
      rewrite Hadj in Hadj'. inversion Hadj'; subst adj'.
      rewrite app_nil_r in Hin.
      apply (Hdead v Hin). split; assumption. }
    eexists false, _. split; [reflexivity|].
    unfold dfs_post. simpl.
    split; [eapply dist_mono_trans; [exact Hm|apply dist_mono_set_INF]|].
    split; [exact Hsz|].
    split.
    { intros a Ha. destruct (option_Z_dec (Some x) a) as [E|E]; [left; auto|right].
      rewrite dist_get_set_other in Ha by exact E. apply Hfd. exact Ha. }
    split; [exact Hml|]. split; [exact Hmr|].
    split; [intros Hr; apply Hnr, Hfw, Hr|].
    intros a Hr. apply reach_kill; [exact Hnr|apply Hfw, Hr].
  - pose proof (@scan_rel_dist k s0 s x Hrel Hdx) as Hdxs.
    pose proof (@scan_rel_inv k s0 s Hinv0 Hrel) as Hinv.
    pose proof (@scan_rel_bound N k s0 s HN Hrel) as HNs.
    rewrite dist_getitem_ok by congruence. simpl. rewrite Hdxs. simpl.
    assert (Hpre' : adj = (pre ++ [v]) ++ vs).
    { rewrite <- app_assoc. exact Hpre. }
    assert (Hmr : match_right s = match_right s0) by apply Hrel.
    destruct (dval_eqb (dist_get (dist s) (dict_get Z.eqb (match_right s) v))
                       (Fin (S k))) eqn:E.
    + apply dval_eqb_spec in E.
      destruct (Hrec (dict_get Z.eqb (match_right s) v) s Hinv HNs
                     (@hk_inv_mr_closed s v Hinv) E)
        as (b & s' & Hrun & Hpost).
      rewrite Hrun. simpl. destruct b.
      * eexists true, _. split; [reflexivity|].
        apply dfs_found with (s := s); auto.
        exists adj. split; [exact Hadj|]. rewrite Hpre.
        apply in_app_iff. right. left. reflexivity.
      * destruct (dict_get Z.eqb (match_right s) v) as [x'|] eqn:Ev;
          simpl in Hpost; [|destruct Hpost; discriminate].
        destruct Hpost as (Hm' & Hsz' & Hfd' & Hml' & Hmr' & Hnr' & Hfw').
        destruct Hrel as (Hml & _ & Hsz & Hm & Hfd & Hfw).
        apply (IH (pre ++ [v]) s' Hpre').
        -- unfold scan_rel.
           split; [congruence|]. split; [congruence|]. split; [congruence|].
           split; [eapply dist_mono_trans; eauto|].
           split.
           { intros a Ha.
             destruct (dval_dec (dist_get (dist s') a) (dist_get (dist s) a)) as [Ea|Ea].
             - rewrite Ea in Ha. apply Hfd. exact Ha.
             - destruct (Hfd' a Ea) as [->|(j & Hj & Hlt)].
               + exists (S k). split; [eapply dist_mono_fin; eauto|lia].
               + exists j. split; [eapply dist_mono_fin; eauto|lia]. }
           intros a Hr. rewrite <- Hmr. apply Hfw'. rewrite Hmr. apply Hfw, Hr.
        -- intros v0 Hv0 [H1 H2]. apply in_app_iff in Hv0.
           destruct Hv0 as [Hv0|[<-|[]]].
           ++ apply (Hdead v0 Hv0). split.
              ** eapply dist_mono_fin; eauto.
              ** eapply reach_anti; eauto.
           ++ apply Hnr'. rewrite Hmr. rewrite <- Hmr, Ev in H2.
              rewrite Hmr in H2. eapply reach_anti; eauto.
    + apply (IH (pre ++ [v]) s Hpre' Hrel).
      intros v0 Hv0 [H1 H2]. apply in_app_iff in Hv0.
      destruct Hv0 as [Hv0|[<-|[]]].
      * apply (Hdead v0 Hv0). split; assumption.
      * rewrite Hmr, H1 in E. simpl in E. rewrite Nat.eqb_refl in E.
        discriminate.
Qed.

Lemma dfs_spec : forall fuel N u s k,
    hk_inv s -> dist_bound N s -> closed u ->
    dist_get (dist s) u = Fin k -> N - k < fuel ->
    exists b s', dfs graph fuel u s = Ok (b, s') /\ dfs_post_o u k s b s'.
Proof.
  induction fuel as [|fuel IH]; intros N u s k Hinv HN Hc Hd Hfuel; [lia|].
  destruct u as [x|]; simpl.
  - destruct (graph_total x Hc) as [adj Hadj]. rewrite Hadj. simpl.
    apply dfs_scan_spec with (k := k) (N := N) (s0 := s) (adj := adj) (pre := []);
      auto using scan_rel_refl.
    intros u1 s1 Hinv1 HN1 Hc1 Hd1.
    apply IH with (N := N); auto.
    pose proof (HN1 _ _ Hd1). lia.
  - exists true, s. auto.
Qed.

(** *** One round of the main loop *)

Lemma dfs_phase_spec : forall fuel N us s,
    NoDup us -> (forall u, In u us -> In u left_nodes) ->
    hk_inv s -> dist_bound N s -> N < fuel ->
    (forall u, In u us -> dict_get Z.eqb (match_left s) u = None ->
               dist_get (dist s) (Some u) = Fin 0) ->
    exists s',
      dfs_phase graph fuel us s = Ok s' /\ hk_inv s' /\
      List.length (match_left s) <= List.length (match_left s') /\
      ((exists u0, In u0 us /\ dict_get Z.eqb (match_left s) u0 = None /\
                   reach (match_right s) (dist s) (Some u0)) ->
       List.length (match_left s) < List.length (match_left s')).
Proof.
  intros fuel N us. induction us as [|u us IH];
    intros s Hnd Hsub Hinv HN Hfuel Hfree; simpl.
  - exists s. split; [reflexivity|]. split; [exact Hinv|]. split; [lia|].
    intros (u0 & [] & _).
  - inversion Hnd as [|? ? Hnotin Hnd']; subst.
    assert (Hsub' : forall u0, In u0 us -> In u0 left_nodes)
      by (intros u0 Hu0; apply Hsub; right; exact Hu0).
    destruct (dict_mem Z.eqb (match_left s) u) eqn:Em.
    + destruct (IH s Hnd' Hsub' Hinv HN Hfuel) as (s' & Hrun & Hinv' & Hle & Hlt).
      { intros u0 Hu0. apply Hfree. right. exact Hu0. }
      exists s'. split; [exact Hrun|]. split; [exact Hinv'|]. split; [exact Hle|].
      intros (u0 & [<-|Hu0] & Hu0free & Hr).
      * unfold dict_mem in Em. rewrite Hu0free in Em. discriminate.
      * apply Hlt. exists u0. auto.
    + assert (Hufree : dict_get Z.eqb (match_left s) u = None).
      { unfold dict_mem in Em.
        destruct (dict_get Z.eqb (match_left s) u); [discriminate|reflexivity]. }
      assert (Hdu : dist_get (dist s) (Some u) = Fin 0)
        by (apply Hfree; [left; reflexivity|exact Hufree]).
      destruct (@dfs_spec fuel N (Some u) s 0 Hinv HN) as (b & s' & Hrun & Hpost);
        [apply Hsub; left; reflexivity|exact Hdu|lia|].
      rewrite Hrun. simpl. simpl in Hpost.
      destruct Hpost as (Hm & Hsz & Hfd & Hpost).
      assert (HN' : forall s2, dist s2 = dist s' -> dist_bound N s2).
      { intros s2 E a j Ha. rewrite E in Ha. apply (HN a).
        eapply dist_mono_fin; eauto. }
      assert (Hd' : forall u0, In u0 us -> dist_get (dist s) (Some u0) = Fin 0 ->
                               dist_get (dist s') (Some u0) = Fin 0).
      { intros u0 Hu0 H0.
        destruct (dval_dec (dist_get (dist s') (Some u0)) (dist_get (dist s) (Some u0)))
          as [E|E]; [congruence|].
        destruct (Hfd _ E) as [E'|(j & Hj & Hlt)].
        - inversion E'; subst. contradiction.
        - rewrite H0 in Hj. inversion Hj. lia. }
      assert (Hdc : forall a, dist_get (dist s') a <> INF -> closed a).
      { intros a Ha. apply (inv_dist Hinv). destruct (Hm a); congruence. }
      destruct b.
      * destruct Hpost as (Hnd1 & Hsym & Hle & Hfml & Hkeep & _ & Hlen).
        rewrite Em in Hlen.
        set (s2 := mk_state (match_left s') (match_right s') (dist s')
                            (matching_size s' + 1)).
        assert (Hinv2 : hk_inv s2).
        { constructor; simpl; auto.
          - intros a b. rewrite Hsym, Hufree. split.
            + intros [H _]. exact H.
            + intros H. split; [exact H|discriminate].
          - intros a b H. apply (Hle a b H).
          - intros a b H. apply (Hle a b H).
          - rewrite Hsz, (inv_size Hinv). lia. }
        destruct (IH s2 Hnd' Hsub' Hinv2 (HN' s2 eq_refl) Hfuel)
          as (s3 & Hrun3 & Hinv3 & Hle3 & _).
        { simpl. intros u0 Hu0 Hu0free. apply Hd'; [exact Hu0|].
          apply Hfree; [right; exact Hu0|]. apply Hkeep. exact Hu0free. }
        exists s3. split; [exact Hrun3|]. split; [exact Hinv3|].
        simpl in Hle3. split; [lia|]. intros _. lia.
      * destruct Hpost as (Hml & Hmr & Hnr & Hfw).
        assert (Hinv2 : hk_inv s').
        { destruct Hinv as [H1 H2 H3 H4 H5 H6].
          constructor; rewrite ?Hml, ?Hmr, ?Hsz; auto. }
        destruct (IH s' Hnd' Hsub' Hinv2 (HN' s' eq_refl) Hfuel)
          as (s3 & Hrun3 & Hinv3 & Hle3 & Hlt3).
        { rewrite Hml. intros u0 Hu0 Hu0free. apply Hd'; [exact Hu0|].
          apply Hfree; [right; exact Hu0|exact Hu0free]. }
        rewrite Hml in *.
        exists s3. split; [exact Hrun3|]. split; [exact Hinv3|].
        split; [exact Hle3|].
        intros (u0 & [<-|Hu0] & Hu0free & Hr); [contradiction|].
        apply Hlt3. exists u0. split; [exact Hu0|]. split; [exact Hu0free|].
        rewrite Hmr. apply Hfw. exact Hr.
Qed.

(** *** The main loop *)

Hypothesis left_nodup : NoDup left_nodes.

(** The state in which [bfs] last returned [False]. *)
Definition hk_final (s : hk_state) : Prop :=
  hk_inv s /\
  bfs_inv (match_left s) (match_right s) (dist s) /\
  dist_get (dist s) None = INF /\
  expanded (match_right s) (dist s) [].

Lemma hk_inv_size_le : forall s,
    hk_inv s -> List.length (match_left s) <= List.length left_nodes.
Proof.
  intros s Hinv. rewrite <- (length_map fst).
  apply NoDup_incl_length; [apply (inv_nodup Hinv)|].
  intros u Hu. apply (dict_mem_keys Z.eqb Z.eqb_eq) in Hu.
  unfold dict_mem in Hu.
  destruct (dict_get Z.eqb (match_left s) u) as [v|] eqn:E; [|discriminate].
  eapply inv_left; eauto.
Qed.

(** A round either is the last one or enlarges the matching.  The stack
    needs room for one frame of [dfs] per left node and one for
    [dfs(None)]: the layers assigned by [bfs] are numbered below
    [|left_nodes|], and [dfs] descends one layer per call. *)
Lemma hk_round_limit : forall limit fuel s,
    hk_inv s -> 2 * List.length left_nodes + 2 <= fuel ->
    List.length left_nodes + 1 <= limit ->
    exists again s1,
      bfs graph left_nodes fuel s = Ok (again, s1) /\
      if again then
        exists s2, dfs_phase graph limit left_nodes s1 = Ok s2 /\ hk_inv s2 /\
                   List.length (match_left s) < List.length (match_left s2)
      else hk_final s1 /\ match_left s1 = match_left s.
Proof.
  intros limit fuel s Hinv Hfuel Hlimit.
  destruct (@bfs_spec fuel s Hinv Hfuel) as (s1 & Hrun & Hml & Hmr & Hsz & Hbi & Hexp).
  exists (negb (dval_eqb (dist_get (dist s1) None) INF)), s1.
  split; [exact Hrun|].
  assert (Hinv1 : hk_inv s1).
  { destruct Hinv as [H1 H2 H3 H4 H5 H6].
    constructor; rewrite ?Hml, ?Hmr, ?Hsz; auto.
    apply (bi_closed Hbi). }
  destruct (dval_eqb (dist_get (dist s1) None) INF) eqn:E; simpl.
  - apply dval_eqb_INF in E. split; [|exact Hml].
    unfold hk_final. rewrite Hml, Hmr. auto.
  - apply dval_eqb_INF_false in E.
    destruct (@bfs_reach _ _ _ Hbi E) as (u0 & Hu0 & Hfree & Hr).
    destruct (@dfs_phase_spec limit (List.length left_nodes) left_nodes s1)
      as (s2 & Hrun2 & Hinv2 & _ & Hlt); auto.
    + intros a k Ha. pose proof (bi_bound Hbi _ Ha). lia.
    + lia.
    + intros u Hu Hf. apply (bi_free Hbi); [exact Hu|]. rewrite <- Hml. exact Hf.
    + exists s2. split; [exact Hrun2|]. split; [exact Hinv2|].
      rewrite <- Hml. apply Hlt. exists u0. rewrite Hml, Hmr. auto.
Qed.

Lemma hk_round : forall fuel s,
    hk_inv s -> 2 * List.length left_nodes + 2 <= fuel ->
    exists again s1,
      bfs graph left_nodes fuel s = Ok (again, s1) /\
      if again then
        exists s2, dfs_phase graph fuel left_nodes s1 = Ok s2 /\ hk_inv s2 /\
                   List.length (match_left s) < List.length (match_left s2)
      else hk_final s1 /\ match_left s1 = match_left s.
Proof.
  intros fuel s Hinv Hfuel. apply hk_round_limit; [exact Hinv|exact Hfuel|lia].
Qed.

Lemma hk_while_limit_spec : forall limit rounds fuel s,
    hk_inv s -> 2 * List.length left_nodes + 2 <= fuel ->
    List.length left_nodes + 1 <= limit ->
    List.length left_nodes - List.length (match_left s) < rounds ->
    exists s',
      hk_while_limit graph left_nodes limit rounds fuel s = Ok s' /\
      hk_final s'.
Proof.
  intros limit. induction rounds as [|rounds IH];
    intros fuel s Hinv Hfuel Hlimit Hr; [lia|].
  simpl. destruct (@hk_round_limit limit fuel s Hinv Hfuel Hlimit)
    as (again & s1 & Hrun & Hpost).
  rewrite Hrun. simpl. destruct again.
  - destruct Hpost as (s2 & Hrun2 & Hinv2 & Hlt). rewrite Hrun2. simpl.
    apply IH; auto. pose proof (@hk_inv_size_le s2 Hinv2). lia.
  - exists s1. split; [reflexivity|apply Hpost].
Qed.

Lemma hk_while_spec : forall rounds fuel s,
    hk_inv s -> 2 * List.length left_nodes + 2 <= fuel ->
    List.length left_nodes - List.length (match_left s) < rounds ->
    exists s', hk_while graph left_nodes rounds fuel s = Ok s' /\ hk_final s'.
Proof.
  induction rounds as [|rounds IH]; intros fuel s Hinv Hfuel Hr; [lia|].
  simpl. destruct (@hk_round fuel s Hinv Hfuel) as (again & s1 & Hrun & Hpost).
  rewrite Hrun. simpl. destruct again.
  - destruct Hpost as (s2 & Hrun2 & Hinv2 & Hlt). rewrite Hrun2. simpl.
    apply IH; auto. pose proof (@hk_inv_size_le s2 Hinv2). lia.
  - exists s1. split; [reflexivity|apply Hpost].
Qed.

(** *** Matchings *)

Definition is_matching (m : list (node * node)) : Prop :=
  NoDup (map fst m) /\ NoDup (map snd m) /\
  forall u v, In (u, v) m -> In u left_nodes /\ edge u v.
End HKProofs.

Lemma NoDup_map_eq {A B : Type} (f : A -> B) (l : list A) (x y : A) :
  NoDup (map f l) -> In x l -> In y l -> f x = f y -> x = y.
Proof.
  induction l as [|a l IH]; simpl; intros Hnd Hx Hy E; [contradiction|].
  inversion Hnd as [|? ? Hni Hnd']; subst.
  destruct Hx as [->|Hx]; destruct Hy as [->|Hy]; auto.
  - exfalso. apply Hni. rewrite E. apply in_map. exact Hy.
  - exfalso. apply Hni. rewrite <- E. apply in_map. exact Hx.
Qed.

Lemma NoDup_map_inj_on {A B : Type} (f : A -> B) (l : list A) :
  NoDup l -> (forall x y, In x l -> In y l -> f x = f y -> x = y) ->
  NoDup (map f l).
Proof.
  induction l as [|a l IH]; simpl; intros Hnd Hinj; [constructor|].
  inversion Hnd as [|? ? Hni Hnd']; subst. constructor.
  - intros H. apply in_map_iff in H. destruct H as (x & E & Hx).
    apply Hni. rewrite <- (Hinj x a); auto.
  - apply IH; auto.
Qed.

Lemma hk_inv_matching : forall graph left_nodes s,
    hk_inv graph left_nodes s -> is_matching graph left_nodes (match_left s).
Proof.
  intros graph left_nodes s Hinv.
  assert (Hget : forall u v, In (u, v) (match_left s) ->
                             dict_get Z.eqb (match_left s) u = Some v).
  { intros u v H. apply (dict_in_get Z.eqb Z.eqb_eq); [apply (inv_nodup Hinv)|exact H]. }
  split; [apply (inv_nodup Hinv)|]. split.
  - apply NoDup_map_inj_on.
    + apply (NoDup_map_inv fst). apply (inv_nodup Hinv).
    + intros [u1 v1] [u2 v2] H1 H2 E. simpl in E. subst v2.
      apply Hget in H1. apply Hget in H2.
      apply (inv_sym Hinv) in H1. apply (inv_sym Hinv) in H2. congruence.
  - intros u v H. apply Hget in H. split; [eapply inv_left|eapply inv_edge]; eauto.
Qed.

(** Once [bfs] fails, the reached left nodes' neighbours together with the
    unreached left nodes cover every edge, and each of them is matched:
    no matching can be larger (König's argument). *)
Lemma hk_final_maximum : forall graph left_nodes s m,
    hk_final graph left_nodes s -> is_matching graph left_nodes m ->
    List.length m <= List.length (match_left s).
Proof.
  intros graph left_nodes s m (Hinv & Hbi & Hnone & Hexp) (Hnd1 & Hnd2 & Hedges).
  set (f := fun p : Z * Z =>
              match dist_get (dist s) (Some (fst p)) with
              | Fin _ =>
                  match dict_get Z.eqb (match_right s) (snd p) with
                  | Some u' => (u', snd p)
                  | None => p
                  end
              | INF =>
                  match dict_get Z.eqb (match_left s) (fst p) with
                  | Some v' => (fst p, v')
                  | None => p
                  end
              end).
  assert (Hreached : forall u v k,
             In (u, v) m -> dist_get (dist s) (Some u) = Fin k ->
             exists u', dict_get Z.eqb (match_right s) v = Some u' /\
                        dist_get (dist s) (Some u') <> INF).
  { intros u v k Hin Hk. destruct (Hedges u v Hin) as [_ He].
    destruct (Hexp Hnone u) as [[]|Hall]; [congruence|].
    specialize (Hall v He).
    destruct (dict_get Z.eqb (match_right s) v) as [u'|]; [|congruence].
    exists u'. auto. }
  assert (Hunreached : forall u v,
             In (u, v) m -> dist_get (dist s) (Some u) = INF ->
             exists v', dict_get Z.eqb (match_left s) u = Some v').
  { intros u v Hin Hk. destruct (Hedges u v Hin) as [Hu _].
    destruct (dict_get Z.eqb (match_left s) u) as [v'|] eqn:E; [eauto|].
    rewrite (bi_free Hbi u Hu E) in Hk. discriminate. }
  rewrite <- (length_map f m).
  apply NoDup_incl_length.
  - apply NoDup_map_inj_on; [apply (NoDup_map_inv fst); exact Hnd1|].
    intros [u1 v1] [u2 v2] H1 H2 E. unfold f in E. simpl in E.
    destruct (dist_get (dist s) (Some u1)) as [k1|] eqn:E1;
      destruct (dist_get (dist s) (Some u2)) as [k2|] eqn:E2.
    + destruct (Hreached _ _ _ H1 E1) as (a1 & Ha1 & _).
      destruct (Hreached _ _ _ H2 E2) as (a2 & Ha2 & _).
      rewrite Ha1, Ha2 in E. inversion E; subst.
      apply (NoDup_map_eq snd m (u1, v2) (u2, v2)); auto.
    + destruct (Hreached _ _ _ H1 E1) as (a1 & Ha1 & Hd1).
      destruct (Hunreached _ _ H2 E2) as (b2 & Hb2).
      rewrite Ha1, Hb2 in E. inversion E; subst. congruence.
    + destruct (Hunreached _ _ H1 E1) as (b1 & Hb1).
      destruct (Hreached _ _ _ H2 E2) as (a2 & Ha2 & Hd2).
      rewrite Hb1, Ha2 in E. inversion E; subst. congruence.
    + destruct (Hunreached _ _ H1 E1) as (b1 & Hb1).
      destruct (Hunreached _ _ H2 E2) as (b2 & Hb2).
      rewrite Hb1, Hb2 in E. inversion E; subst.
      apply (NoDup_map_eq fst m (u2, v1) (u2, v2)); auto.
  - intros p Hp. apply in_map_iff in Hp. destruct Hp as ([u v] & <- & Hin).
    unfold f. simpl.
    destruct (dist_get (dist s) (Some u)) as [k|] eqn:E.
    + destruct (Hreached _ _ _ Hin E) as (a & Ha & _). rewrite Ha.
      apply (dict_get_some_in Z.eqb Z.eqb_eq). apply (inv_sym Hinv). exact Ha.
    + destruct (Hunreached _ _ Hin E) as (b & Hb). rewrite Hb.
      apply (dict_get_some_in Z.eqb Z.eqb_eq). exact Hb.
Qed.

(** Total correctness of [hopcroft_karp]. *)
Lemma hopcroft_karp_correct : forall graph left_nodes fuel,
    (forall u, In u left_nodes ->
               exists adj, graph_getitem graph (Some u) = Ok adj) ->
    NoDup left_nodes -> hk_fuel left_nodes <= fuel ->
    exists s,
      hk_while graph left_nodes fuel fuel hk_init = Ok s /\
      hopcroft_karp graph left_nodes fuel = Ok (match_left s) /\
      hk_final graph left_nodes s.
Proof.
  intros graph left_nodes fuel Htot Hnd Hfuel. unfold hk_fuel in Hfuel.
  destruct (@hk_while_spec graph left_nodes Htot Hnd fuel fuel hk_init)
    as (s & Hrun & Hfin).
  - apply hk_inv_init.
  - lia.
  - simpl. lia.
  - exists s. split; [exact Hrun|]. split; [|exact Hfin].
    unfold hopcroft_karp. rewrite Hrun. reflexivity.
Qed.

(** The same under a recursion limit: room for [|left_nodes| + 1] frames
    of [dfs] is enough. *)
Lemma hopcroft_karp_limit_correct : forall graph left_nodes limit fuel,
    (forall u, In u left_nodes ->
               exists adj, graph_getitem graph (Some u) = Ok adj) ->
    NoDup left_nodes ->
    List.length left_nodes + 1 <= limit -> hk_fuel left_nodes <= fuel ->
    exists s,
      hk_while_limit graph left_nodes limit fuel fuel hk_init = Ok s /\
      hopcroft_karp_limit graph left_nodes limit fuel = Ok (match_left s) /\
      hk_final graph left_nodes s.
Proof.
  intros graph left_nodes limit fuel Htot Hnd Hlimit Hfuel.
  unfold hk_fuel in Hfuel.
  destruct (@hk_while_limit_spec graph left_nodes Htot Hnd limit fuel fuel hk_init)
    as (s & Hrun & Hfin).
  - apply hk_inv_init.
  - lia.
  - exact Hlimit.
  - simpl. lia.
  - exists s. split; [exact Hrun|]. split; [|exact Hfin].
    unfold hopcroft_karp_limit. rewrite Hrun. reflexivity.
Qed.

(** [hk_while] and [hopcroft_karp] are the runs in which one number
    bounds the loops and the room on the stack. *)
Lemma hk_while_limit_same : forall graph left_nodes rounds fuel s,
    hk_while_limit graph left_nodes fuel rounds fuel s
    = hk_while graph left_nodes rounds fuel s.
Proof.
  intros graph left_nodes. induction rounds as [|rounds IH]; intros fuel s;
    simpl; [reflexivity|].
  destruct (bfs graph left_nodes fuel s) as [[[|] s1]| | |]; simpl;
    try reflexivity.
  destruct (dfs_phase graph fuel left_nodes s1) as [s2| | |]; simpl;
    try reflexivity.
  apply IH.
Qed.

Lemma hopcroft_karp_limit_same : forall graph left_nodes fuel,
    hopcroft_karp_limit graph left_nodes fuel fuel
    = hopcroft_karp graph left_nodes fuel.
Proof.
  intros graph left_nodes fuel. unfold hopcroft_karp_limit, hopcroft_karp.
  rewrite hk_while_limit_same. reflexivity.
Qed.

(* ================================================================== *)
(** ** Partitioning and graph construction *)

(** The request needs a swap. *)
Definition active (r : student) : bool :=
  negb (String.eqb (current_group r) (desired_group r)).

Definition key_of (r : student) : gkey := (current_group r, desired_group r).

Definition reverse_key (k : gkey) : gkey := (snd k, fst k).

(** [r] is stored under key [k] of [swaps]. *)
Definition in_part (k : gkey) (r : student) : bool :=
  active r && gkey_eqb (key_of r) k.

Lemma gkey_eqb_refl : forall k, gkey_eqb k k = true.
Proof. intros k. apply gkey_eqb_spec. reflexivity. Qed.

Lemma partition_step_swaps : forall st r,
    fst (partition_step st r)
    = if active r then dd_append gkey_eqb (fst st) (key_of r) r else fst st.
Proof.
  intros [swaps lookup] r. unfold partition_step, active, key_of. simpl.
  destruct (String.eqb (current_group r) (desired_group r)); reflexivity.
Qed.

Lemma partition_fold_get : forall l st k,
    dict_get_default gkey_eqb (fst (fold_left partition_step l st)) k []
    = dict_get_default gkey_eqb (fst st) k [] ++ filter (in_part k) l.
Proof.
  induction l as [|r l IH]; intros st k; simpl.
  - rewrite app_nil_r. reflexivity.
  - rewrite IH, partition_step_swaps. unfold in_part.
    destruct (active r); simpl; [|reflexivity].
    unfold dd_append, dict_get_default at 1.
    rewrite (dict_get_set gkey_eqb gkey_eqb_spec).
    destruct (gkey_eqb (key_of r) k) eqn:E.
    + apply gkey_eqb_spec in E. subst k. rewrite <- app_assoc. reflexivity.
    + reflexivity.
Qed.

Lemma partition_fold_keys : forall l st k,
    In k (map fst (fst (fold_left partition_step l st)))
    <-> In k (map fst (fst st)) \/ exists r, In r l /\ in_part k r = true.
Proof.
  induction l as [|r l IH]; intros st k; simpl.
  - split; [auto|]. intros [H|(r & [] & _)]. exact H.
  - rewrite IH, partition_step_swaps. unfold in_part at 2.
    destruct (active r) eqn:Ea; simpl.
    + unfold dd_append. rewrite (dict_keys_set_in gkey_eqb gkey_eqb_spec). split.
      * intros [[->|H]|(r0 & H1 & H2)].
        -- right. exists r. split; [left; reflexivity|].
           unfold in_part. rewrite Ea, gkey_eqb_refl. reflexivity.
        -- left. exact H.
        -- right. exists r0. auto.
      * intros [H|(r0 & [<-|H1] & H2)].
        -- left. right. exact H.
        -- left. left. unfold in_part in H2. rewrite Ea in H2. simpl in H2.
           apply gkey_eqb_spec in H2. symmetry. exact H2.
        -- right. exists r0. auto.
    + split.
      * intros [H|(r0 & H1 & H2)]; [left; exact H|right; exists r0; auto].
      * intros [H|(r0 & [<-|H1] & H2)].
        -- left. exact H.
        -- unfold in_part in H2. rewrite Ea in H2. discriminate.
        -- right. exists r0. auto.
Qed.

Lemma partition_fold_nodup : forall l st,
    NoDup (map fst (fst st)) ->
    NoDup (map fst (fst (fold_left partition_step l st))).
Proof.
  induction l as [|r l IH]; intros st Hnd; simpl; [exact Hnd|].
  apply IH. rewrite partition_step_swaps.
  destruct (active r); [|exact Hnd].
  apply (dict_set_NoDup gkey_eqb gkey_eqb_spec). exact Hnd.
Qed.

Section PartitionFacts.
Variable students_info : list student.

(** [swaps] after the first loop of [match_student_pairs]. *)
Definition swaps_of : list (gkey * list student) :=
  fst (partition students_info).

Lemma swaps_get : forall k,
    dict_get_default gkey_eqb swaps_of k [] = filter (in_part k) students_info.
Proof.
  intros k. unfold swaps_of, partition. rewrite partition_fold_get. reflexivity.
Qed.

Lemma swaps_keys : forall k,
    In k (map fst swaps_of)
    <-> exists r, In r students_info /\ in_part k r = true.
Proof.
  intros k. unfold swaps_of, partition. rewrite partition_fold_keys. simpl.
  split; [intros [[]|H]; exact H|auto].
Qed.

Lemma swaps_mem : forall k,
    dict_mem gkey_eqb swaps_of k = true
    <-> exists r, In r students_info /\ in_part k r = true.
Proof.
  intros k. rewrite (dict_mem_keys gkey_eqb gkey_eqb_spec). apply swaps_keys.
Qed.

Lemma swaps_nodup : NoDup (map fst swaps_of).
Proof.
  unfold swaps_of, partition. apply partition_fold_nodup. constructor.
Qed.

Lemma in_part_spec : forall k r,
    in_part k r = true
    <-> current_group r <> desired_group r /\ key_of r = k.
Proof.
  intros k r. unfold in_part, active.
  rewrite andb_true_iff, negb_true_iff, String.eqb_neq, gkey_eqb_spec.
  reflexivity.
Qed.
End PartitionFacts.

Lemma teammate_neqb_false : forall t j,
    teammate_neqb t j = false <-> t = Some j.
Proof.
  intros [i|] j; simpl.
  - rewrite negb_false_iff, Z.eqb_eq. split; congruence.
  - split; discriminate.
Qed.

(** An edge is added exactly when both sides consent. *)
Lemma valid_edge_spec : forall ri rj,
    valid_edge ri rj = true
    <-> (accept_swap ri = true \/ teammate_id ri = Some (student_id rj)) /\
        (accept_swap rj = true \/ teammate_id rj = Some (student_id ri)).
Proof.
  intros ri rj. unfold valid_edge.
  rewrite <- !teammate_neqb_false.
  destruct (accept_swap ri), (accept_swap rj),
    (teammate_neqb (teammate_id ri) (student_id rj)),
    (teammate_neqb (teammate_id rj) (student_id ri)); simpl;
    intuition discriminate.
Qed.

Lemma valid_edge_sym : forall ri rj, valid_edge ri rj = valid_edge rj ri.
Proof.
  intros ri rj. unfold valid_edge.
  destruct (accept_swap ri), (accept_swap rj),
    (teammate_neqb (teammate_id ri) (student_id rj)),
    (teammate_neqb (teammate_id rj) (student_id ri)); reflexivity.
Qed.

(** Neighbours contributed by [record_i] to the adjacency list of [i]. *)
Definition edges_from (V : list student) (i : Z) (record_i : student) : list Z :=
  if Z.eqb (student_id record_i) i
  then map student_id (filter (valid_edge record_i) V)
  else [].

Lemma add_edges_get : forall V record_i graph i,
    dict_get_default Z.eqb (add_edges record_i V graph) i []
    = dict_get_default Z.eqb graph i [] ++ edges_from V i record_i.
Proof.
  unfold edges_from.
  induction V as [|rj V IH]; intros ri graph i; simpl.
  - destruct (Z.eqb (student_id ri) i); rewrite app_nil_r; reflexivity.
  - destruct (valid_edge ri rj); rewrite IH; [|reflexivity].
    unfold dd_append, dict_get_default at 1.
    rewrite (dict_get_set Z.eqb Z.eqb_eq).
    destruct (Z.eqb (student_id ri) i) eqn:E; simpl.
    + apply Z.eqb_eq in E. subst i. rewrite <- app_assoc. reflexivity.
    + rewrite !app_nil_r. reflexivity.
Qed.

Lemma build_graph_spec : forall U V graph left_ids graph' left_ids',
    build_graph U V graph left_ids = (graph', left_ids') ->
    left_ids' = left_ids ++ map student_id U /\
    forall i, dict_get_default Z.eqb graph' i []
              = dict_get_default Z.eqb graph i [] ++ flat_map (edges_from V i) U.
Proof.
  induction U as [|ri U IH]; intros V graph left_ids graph' left_ids' H;
    simpl in H.
  - inversion H; subst. rewrite !app_nil_r. split; [reflexivity|].
    intros i. simpl. rewrite app_nil_r. reflexivity.
  - apply IH in H. destruct H as [H1 H2]. split.
    + rewrite H1, <- app_assoc. reflexivity.
    + intros i. rewrite H2, add_edges_get, <- app_assoc. reflexivity.
Qed.

(** The edges of the graph built from [U] and [V]. *)
Lemma build_graph_edge : forall U V graph left_ids,
    build_graph U V [] [] = (graph, left_ids) ->
    left_ids = map student_id U /\
    forall i j,
      edge (DefaultDict graph) i j
      <-> exists ri rj, In ri U /\ In rj V /\
                        student_id ri = i /\ student_id rj = j /\
                        valid_edge ri rj = true.
Proof.
  intros U V graph left_ids H. apply build_graph_spec in H.
  destruct H as [H1 H2]. split; [exact H1|].
  intros i j. unfold edge. simpl. split.
  - intros (adj & Hadj & Hin). inversion Hadj; subst adj. clear Hadj.
    rewrite H2 in Hin. simpl in Hin.
    apply in_flat_map in Hin. destruct Hin as (ri & Hri & Hin).
    unfold edges_from in Hin.
    destruct (Z.eqb (student_id ri) i) eqn:E; [|contradiction].
    apply Z.eqb_eq in E. apply in_map_iff in Hin.
    destruct Hin as (rj & Hj & Hrj). apply filter_In in Hrj.
    exists ri, rj. tauto.
  - intros (ri & rj & Hri & Hrj & Hi & Hj & Hv).
    eexists. split; [reflexivity|]. rewrite H2. simpl.
    apply in_flat_map. exists ri. split; [exact Hri|].
    unfold edges_from. rewrite Hi, Z.eqb_refl.
    apply in_map_iff. exists rj. split; [exact Hj|].
    apply filter_In. auto.
Qed.

(* ================================================================== *)
(** ** The pairs produced for one input *)

(** All ids occurring in a list of pairs, in order. *)
Definition ids_of (pairs : list (Z * Z)) : list Z :=
  flat_map (fun p => [fst p; snd p]) pairs.

Lemma ids_of_app : forall l1 l2, ids_of (l1 ++ l2) = ids_of l1 ++ ids_of l2.
Proof. intros. apply flat_map_app. Qed.

Lemma ids_of_in : forall l x,
    In x (ids_of l) <-> exists a b, In (a, b) l /\ (x = a \/ x = b).
Proof.
  intros l x. unfold ids_of. rewrite in_flat_map. split.
  - intros ([a b] & Hin & Hx). simpl in Hx. exists a, b.
    split; [exact Hin|]. destruct Hx as [<-|[<-|[]]]; auto.
  - intros (a & b & Hin & Hx). exists (a, b). split; [exact Hin|].
    simpl. destruct Hx as [->| ->]; auto.
Qed.

Lemma sorted_pair_cases : forall u v,
    sorted_pair (u, v) = (u, v) \/ sorted_pair (u, v) = (v, u).
Proof.
  intros u v. unfold sorted_pair. destruct (Z.ltb v u); auto.
Qed.

Lemma ids_of_sorted_in : forall m x,
    In x (ids_of (map sorted_pair m))
    <-> In x (map fst m) \/ In x (map snd m).
Proof.
  induction m as [|[u v] m IH]; intros x.
  - simpl. tauto.
  - change (map sorted_pair ((u, v) :: m))
      with ([sorted_pair (u, v)] ++ map sorted_pair m).
    rewrite ids_of_app, in_app_iff, IH.
    destruct (sorted_pair_cases u v) as [E|E]; rewrite E; simpl; tauto.
Qed.

Lemma ids_of_sorted_nodup : forall m,
    NoDup (map fst m) -> NoDup (map snd m) ->
    (forall u v, In u (map fst m) -> In v (map snd m) -> u <> v) ->
    NoDup (ids_of (map sorted_pair m)).
Proof.
  induction m as [|[u v] m IH]; intros H1 H2 H3; [constructor|].
  simpl in H1, H2. inversion H1 as [|? ? Hu H1']; subst.
  inversion H2 as [|? ? Hv H2']; subst.
  assert (Huv : u <> v) by (apply H3; left; reflexivity).
  assert (Hrest : NoDup (ids_of (map sorted_pair m))).
  { apply IH; auto. intros a b Ha Hb. apply H3; right; assumption. }
  assert (Hu' : ~ In u (ids_of (map sorted_pair m))).
  { rewrite ids_of_sorted_in. intros [H|H]; [contradiction|].
    apply (H3 u u); [left; reflexivity|right; exact H|reflexivity]. }
  assert (Hv' : ~ In v (ids_of (map sorted_pair m))).
  { rewrite ids_of_sorted_in. intros [H|H]; [|contradiction].
    apply (H3 v v); [right; exact H|left; reflexivity|reflexivity]. }
  change (map sorted_pair ((u, v) :: m))
    with ([sorted_pair (u, v)] ++ map sorted_pair m).
  rewrite ids_of_app.
  destruct (sorted_pair_cases u v) as [E|E]; rewrite E; simpl;
    (constructor; [simpl; intros [E'|E']; [congruence|contradiction]|]);
    constructor; assumption.
Qed.

Lemma NoDup_map_filter :
  forall (A B : Type) (key : A -> B) (keep : A -> bool) (xs : list A),
    NoDup (map key xs) -> NoDup (map key (filter keep xs)).
Proof.
  intros A B key keep xs. induction xs as [|a xs IH]; simpl; intros H;
    [constructor|].
  inversion H as [|? ? Hni Hnd]; subst.
  destruct (keep a); simpl; [|auto].
  constructor; [|auto].
  intros Hin. apply Hni. apply in_map_iff in Hin.
  destruct Hin as (x & E & Hx). apply filter_In in Hx.
  rewrite <- E. apply in_map. tauto.
Qed.

Lemma reverse_key_involutive : forall k, reverse_key (reverse_key k) = k.
Proof. intros [a b]. reflexivity. Qed.

Section PairsFacts.
Variable students_info : list student.
Hypothesis ids_nodup : NoDup (map student_id students_info).

(** [a] and [b] are the ids of a request of partition [k] and a request
    of the reverse partition that consent to each other. *)
Definition swap_pair (k : gkey) (a b : Z) : Prop :=
  exists r1 r2,
    In r1 students_info /\ In r2 students_info /\
    student_id r1 = a /\ student_id r2 = b /\
    in_part k r1 = true /\ in_part (reverse_key k) r2 = true /\
    valid_edge r1 r2 = true.

Lemma swap_pair_sym : forall k a b,
    swap_pair k a b -> swap_pair (reverse_key k) b a.
Proof.
  intros k a b (r1 & r2 & H1 & H2 & H3 & H4 & H5 & H6 & H7).
  exists r2, r1. rewrite reverse_key_involutive, valid_edge_sym. tauto.
Qed.

Lemma id_inj : forall r1 r2,
    In r1 students_info -> In r2 students_info ->
    student_id r1 = student_id r2 -> r1 = r2.
Proof.
  intros r1 r2 H1 H2 E. eapply NoDup_map_eq; eauto.
Qed.

Lemma in_part_key : forall k r, in_part k r = true -> key_of r = k.
Proof. intros k r H. apply in_part_spec in H. tauto. Qed.

Lemma in_part_not_reverse : forall k r,
    in_part k r = true -> in_part (reverse_key k) r = true -> False.
Proof.
  intros k r H1 H2. apply in_part_spec in H1. apply in_part_spec in H2.
  destruct H1 as [Hne E1]. destruct H2 as [_ E2].
  rewrite <- E1 in E2. unfold key_of, reverse_key in E2. simpl in E2.
  inversion E2. congruence.
Qed.

(** The matching computed for the partition of key [k]. *)
Lemma partition_matching : forall fuel k graph left_ids,
    msp_fuel students_info <= fuel ->
    In k (map fst (swaps_of students_info)) ->
    build_graph
      (dict_get_default gkey_eqb (swaps_of students_info) k [])
      (dict_get_default gkey_eqb (swaps_of students_info) (reverse_key k) [])
      [] [] = (graph, left_ids) ->
    left_ids <> [] /\
    exists ml,
      hopcroft_karp (DefaultDict graph) left_ids fuel = Ok ml /\
      NoDup (map fst ml) /\ NoDup (map snd ml) /\
      (forall u v, In (u, v) ml -> swap_pair k u v) /\
      (forall a b, swap_pair k a b -> ml <> []).
Proof.
  intros fuel k graph left_ids Hfuel Hk Hbuild.
  rewrite !swaps_get in Hbuild.
  apply build_graph_edge in Hbuild. destruct Hbuild as [Hleft Hedge].
  assert (Hswap : forall i j, edge (DefaultDict graph) i j <-> swap_pair k i j).
  { intros i j. rewrite Hedge. unfold swap_pair. split.
    - intros (ri & rj & H1 & H2 & H3 & H4 & H5).
      apply filter_In in H1. apply filter_In in H2.
      exists ri, rj. tauto.
    - intros (ri & rj & H1 & H2 & H3 & H4 & H5 & H6 & H7).
      exists ri, rj. rewrite !filter_In. tauto. }
  split.
  { apply swaps_keys in Hk. destruct Hk as (r & Hr & Hp). subst left_ids.
    intros E. apply map_eq_nil in E.
    assert (Hin : In r (filter (in_part k) students_info))
      by (apply filter_In; auto).
    rewrite E in Hin. contradiction. }
  destruct (@hopcroft_karp_correct (DefaultDict graph) left_ids fuel)
    as (s & _ & Hrun & Hfin).
  { intros u _. simpl. eauto. }
  { subst left_ids. apply NoDup_map_filter. exact ids_nodup. }
  { unfold hk_fuel, msp_fuel in *. subst left_ids. rewrite length_map.
    pose proof (filter_length_le (in_part k) students_info). lia. }
  exists (match_left s). split; [exact Hrun|].
  destruct (hk_inv_matching (proj1 Hfin)) as (Hnd1 & Hnd2 & Hm).
  split; [exact Hnd1|]. split; [exact Hnd2|]. split.
  - intros u v Hin. apply Hswap. apply (Hm u v Hin).
  - intros a b Hab E.
    assert (Hone : is_matching (DefaultDict graph) left_ids [(a, b)]).
    { split; [repeat constructor; simpl; tauto|].
      split; [repeat constructor; simpl; tauto|].
      intros u v [Huv|[]]. inversion Huv; subst u v.
      split; [|apply Hswap; exact Hab].
      destruct Hab as (r1 & r2 & H1 & _ & H3 & _ & H5 & _).
      subst left_ids a. apply in_map. apply filter_In. auto. }
    pose proof (hk_final_maximum Hfin Hone) as Hle.
    rewrite E in Hle. simpl in Hle. lia.
Qed.
End PairsFacts.

Section PairsLoop.
Context {S : Type} {PS : PySet S}.
Variable students_info : list student.
Hypothesis ids_nodup : NoDup (map student_id students_info).

Lemma set_mem_add_true : forall (P : S) k k',
    set_mem (set_add P k) k' = true <-> k = k' \/ set_mem P k' = true.
Proof.
  intros P k k'. rewrite set_mem_add, orb_true_iff, gkey_eqb_spec. reflexivity.
Qed.

(** Invariant of the loop over the keys of [swaps]: [P] is
    [processed_pairs] and [acc] is [paired_matches]. *)
Record pairs_inv (P : S) (acc : list (Z * Z)) : Prop := {
  pi_pairs : forall a b,
      In (a, b) acc ->
      exists k, set_mem P k = true /\ set_mem P (reverse_key k) = true /\
                swap_pair students_info k a b;
  pi_nodup : NoDup (ids_of acc);
  pi_closed : forall k,
      set_mem P k = true ->
      In k (map fst (swaps_of students_info)) /\
      (set_mem P (reverse_key k) = true \/
       dict_mem gkey_eqb (swaps_of students_info) (reverse_key k) = false);
  pi_nonempty : forall k a b,
      set_mem P k = true -> swap_pair students_info k a b ->
      exists a' b', In (a', b') acc /\
                    (swap_pair students_info k a' b' \/
                     swap_pair students_info k b' a')
}.

Lemma pairs_inv_init : pairs_inv set_empty [].
Proof.
  constructor.
  - intros a b [].
  - constructor.
  - intros k H. rewrite set_mem_empty in H. discriminate.
  - intros k a b H. rewrite set_mem_empty in H. discriminate.
Qed.

(** No request of the reverse direction: the key is only marked. *)
Lemma pairs_inv_skip : forall P acc k,
    pairs_inv P acc ->
    In k (map fst (swaps_of students_info)) ->
    dict_mem gkey_eqb (swaps_of students_info) (reverse_key k) = false ->
    pairs_inv (set_add P k) acc.
Proof.
  intros P acc k Hinv Hk Hrev. constructor.
  - intros a b Hin. destruct (pi_pairs Hinv _ _ Hin) as (k0 & H1 & H2 & H3).
    exists k0. rewrite !set_mem_add_true. auto.
  - apply (pi_nodup Hinv).
  - intros k0 H. apply set_mem_add_true in H. destruct H as [<-|H].
    + split; [exact Hk|right; exact Hrev].
    + destruct (pi_closed Hinv _ H) as [H1 [H2|H2]]; split; auto.
      left. apply set_mem_add_true. auto.
  - intros k0 a b H Hab. apply set_mem_add_true in H. destruct H as [<-|H].
    + exfalso. destruct Hab as (r1 & r2 & _ & H2 & _ & _ & _ & H6 & _).
      assert (Hm : dict_mem gkey_eqb (swaps_of students_info) (reverse_key k) = true)
        by (apply swaps_mem; exists r2; auto).
      congruence.
    + apply (pi_nonempty Hinv H Hab).
Qed.

(** Every id of [acc] belongs to a request whose key is processed. *)
Lemma pairs_inv_owner : forall P acc x,
    pairs_inv P acc -> In x (ids_of acc) ->
    exists r, In r students_info /\ student_id r = x /\
              set_mem P (key_of r) = true.
Proof.
  intros P acc x Hinv Hx. apply ids_of_in in Hx.
  destruct Hx as (a & b & Hin & Hx).
  destruct (pi_pairs Hinv _ _ Hin)
    as (k & H1 & H2 & r1 & r2 & Hr1 & Hr2 & Ha & Hb & Hp1 & Hp2 & _).
  apply in_part_key in Hp1. apply in_part_key in Hp2.
  destruct Hx as [-> | ->]; [exists r1|exists r2]; rewrite ?Hp1, ?Hp2; auto.
Qed.

(** The pairs of a matched partition are appended. *)
Lemma pairs_inv_match : forall P acc k ml,
    pairs_inv P acc ->
    set_mem P k = false ->
    In k (map fst (swaps_of students_info)) ->
    dict_mem gkey_eqb (swaps_of students_info) (reverse_key k) = true ->
    NoDup (map fst ml) -> NoDup (map snd ml) ->
    (forall u v, In (u, v) ml -> swap_pair students_info k u v) ->
    (forall a b, swap_pair students_info k a b -> ml <> []) ->
    pairs_inv (set_add (set_add P k) (reverse_key k))
              (acc ++ map sorted_pair ml).
Proof.
  intros P acc k ml Hinv Hk Hkey Hrev Hnd1 Hnd2 Hsw Hne.
  assert (Hmem : forall k', set_mem (set_add (set_add P k) (reverse_key k)) k' = true
                            <-> reverse_key k = k' \/ k = k' \/ set_mem P k' = true).
  { intros k'. rewrite !set_mem_add_true. reflexivity. }
  assert (Hnew : forall a b, In (a, b) (map sorted_pair ml) ->
                   swap_pair students_info k a b \/
                   swap_pair students_info (reverse_key k) a b).
  { intros a b Hin. apply in_map_iff in Hin. destruct Hin as ([u v] & E & Hin).
    specialize (Hsw u v Hin).
    destruct (sorted_pair_cases u v) as [E'|E']; rewrite E' in E;
      inversion E; subst; [left; exact Hsw|right; apply swap_pair_sym; exact Hsw]. }
  assert (Hsome : ml <> [] -> exists a' b', In (a', b') (map sorted_pair ml)).
  { destruct ml as [|p ml']; [congruence|]. intros _.
    destruct (sorted_pair p) as [a' b'] eqn:E. exists a', b'.
    simpl. left. exact E. }
  assert (Hrevk : set_mem P (reverse_key k) = false).
  { destruct (set_mem P (reverse_key k)) eqn:E; [|reflexivity].
    destruct (pi_closed Hinv _ E) as [_ [H|H]];
      rewrite reverse_key_involutive in H; [congruence|].
    apply (dict_mem_keys gkey_eqb gkey_eqb_spec) in Hkey. congruence. }
  constructor.
  - intros a b Hin. apply in_app_iff in Hin. destruct Hin as [Hin|Hin].
    + destruct (pi_pairs Hinv _ _ Hin) as (k0 & H1 & H2 & H3).
      exists k0. rewrite !Hmem. auto.
    + destruct (Hnew a b Hin) as [H|H].
      * exists k. rewrite !Hmem. auto.
      * exists (reverse_key k). rewrite !Hmem, reverse_key_involutive. auto.
  - rewrite ids_of_app. apply NoDup_app.
    + apply (pi_nodup Hinv).
    + apply ids_of_sorted_nodup; auto.
      intros u v Hu Hv E. subst v.
      apply in_map_iff in Hu. destruct Hu as ([u1 v1] & E1 & Hu). simpl in E1. subst u1.
      apply in_map_iff in Hv. destruct Hv as ([u2 v2] & E2 & Hv). simpl in E2. subst v2.
      destruct (Hsw _ _ Hu) as (r1 & _ & Hr1 & _ & Hid1 & _ & Hp1 & _).
      destruct (Hsw _ _ Hv) as (_ & r2 & _ & Hr2 & _ & Hid2 & _ & Hp2 & _).
      assert (r1 = r2) by (apply (@id_inj students_info ids_nodup); congruence). subst r2.
      apply (@in_part_not_reverse k r1 Hp1 Hp2).
    + intros x Hx Hx'.
      destruct (@pairs_inv_owner P acc x Hinv Hx) as (r & Hr & Hid & Hm).
      apply ids_of_in in Hx'. destruct Hx' as (a & b & Hin & Hab).
      assert (Hown : exists r', In r' students_info /\ student_id r' = x /\
                                (key_of r' = k \/ key_of r' = reverse_key k)).
      { destruct (Hnew a b Hin)
          as [(r1 & r2 & Hr1 & Hr2 & Ha & Hb & Hp1 & Hp2 & _)|
              (r1 & r2 & Hr1 & Hr2 & Ha & Hb & Hp1 & Hp2 & _)];
          apply in_part_key in Hp1; apply in_part_key in Hp2;
          rewrite ?reverse_key_involutive in Hp2;
          destruct Hab as [-> | ->]; [exists r1|exists r2|exists r1|exists r2];
          auto. }
      destruct Hown as (r' & Hr' & Hid' & Hkey').
      assert (r = r') by (apply (@id_inj students_info ids_nodup); congruence). subst r'.
      destruct Hkey' as [E|E]; rewrite E in Hm; congruence.
  - intros k0 H. apply Hmem in H. destruct H as [<-|[<-|H]].
    + split.
      * apply (dict_mem_keys gkey_eqb gkey_eqb_spec). exact Hrev.
      * left. apply Hmem. rewrite reverse_key_involutive. auto.
    + split; [exact Hkey|]. left. apply Hmem. auto.
    + destruct (pi_closed Hinv _ H) as [H1 [H2|H2]]; split; auto.
      left. apply Hmem. auto.
  - intros k0 a b H Hab. apply Hmem in H. destruct H as [<-|[<-|H]].
    + apply swap_pair_sym in Hab. rewrite reverse_key_involutive in Hab.
      destruct (Hsome (Hne _ _ Hab)) as (a' & b' & Hin).
      exists a', b'. split; [apply in_app_iff; right; exact Hin|].
      destruct (Hnew _ _ Hin) as [H|H]; [right|left; exact H].
      apply swap_pair_sym. exact H.
    + destruct (Hsome (Hne _ _ Hab)) as (a' & b' & Hin).
      exists a', b'. split; [apply in_app_iff; right; exact Hin|].
      destruct (Hnew _ _ Hin) as [H|H]; [left; exact H|right].
      apply swap_pair_sym in H. rewrite reverse_key_involutive in H. exact H.
    + destruct (pi_nonempty Hinv H Hab) as (a' & b' & Hin & Hsp).
      exists a', b'. split; [apply in_app_iff; left; exact Hin|exact Hsp].
Qed.

Lemma pairs_loop_spec : forall fuel keys P acc,
    msp_fuel students_info <= fuel ->
    (forall k, In k keys -> In k (map fst (swaps_of students_info))) ->
    pairs_inv P acc ->
    exists out P',
      pairs_loop fuel (swaps_of students_info) keys P acc = Ok out /\
      pairs_inv P' out /\
      (forall k, In k keys -> set_mem P' k = true) /\
      (forall k, set_mem P k = true -> set_mem P' k = true).
Proof.
  intros fuel keys. induction keys as [|[A B] keys IH];
    intros P acc Hfuel Hkeys Hinv; simpl.
  - exists acc, P. split; [reflexivity|]. split; [exact Hinv|].
    split; [intros k []|auto].
  - assert (Hkeys' : forall k, In k keys -> In k (map fst (swaps_of students_info)))
      by (intros k Hk; apply Hkeys; right; exact Hk).
    assert (HAB : In (A, B) (map fst (swaps_of students_info)))
      by (apply Hkeys; left; reflexivity).
    assert (Hstep : forall P1 acc1,
               pairs_inv P1 acc1 ->
               set_mem P1 (A, B) = true ->
               (forall k, set_mem P k = true -> set_mem P1 k = true) ->
               exists out P',
                 pairs_loop fuel (swaps_of students_info) keys P1 acc1 = Ok out /\
                 pairs_inv P' out /\
                 (forall k, (A, B) = k \/ In k keys -> set_mem P' k = true) /\
                 (forall k, set_mem P k = true -> set_mem P' k = true)).
    { intros P1 acc1 Hinv1 HP1 Hmono.
      destruct (IH P1 acc1 Hfuel Hkeys' Hinv1) as (out & P' & Hrun & Hinv' & Hall & Hmono').
      exists out, P'. split; [exact Hrun|]. split; [exact Hinv'|]. split; [|auto].
      intros k [<-|Hk]; auto. }
    destruct (set_mem P (A, B)) eqn:EP.
    + apply Hstep; auto.
    + change (B, A) with (reverse_key (A, B)).
      destruct (dict_mem gkey_eqb (swaps_of students_info) (reverse_key (A, B))) eqn:Erev;
        simpl.
      * destruct (build_graph
                    (dict_get_default gkey_eqb (swaps_of students_info) (A, B) [])
                    (dict_get_default gkey_eqb (swaps_of students_info)
                                      (reverse_key (A, B)) []) [] [])
          as [graph left_ids] eqn:Ebuild.
        destruct (@partition_matching students_info ids_nodup fuel (A, B)
                    graph left_ids Hfuel HAB Ebuild)
          as (Hne & ml & Hrun & Hnd1 & Hnd2 & Hsw & Hnonempty).
        destruct left_ids as [|u0 left_ids]; [congruence|].
        rewrite Hrun. simpl.
        apply Hstep.
        -- apply pairs_inv_match; auto.
        -- rewrite !set_mem_add_true. auto.
        -- intros k Hk. rewrite !set_mem_add_true. auto.
      * apply Hstep.
        -- apply pairs_inv_skip; auto.
        -- rewrite set_mem_add_true. auto.
        -- intros k Hk. rewrite set_mem_add_true. auto.
Qed.

(** Total correctness of [match_student_pairs] for distinct ids. *)
Lemma match_student_pairs_spec : forall fuel,
    msp_fuel students_info <= fuel ->
    exists out P,
      match_student_pairs fuel students_info = Ok out /\
      pairs_inv P out /\
      (forall k, In k (map fst (swaps_of students_info)) -> set_mem P k = true).
Proof.
  intros fuel Hfuel. unfold match_student_pairs.
  pose proof (@pairs_loop_spec fuel (map fst (swaps_of students_info))
                set_empty [] Hfuel (fun k H => H) pairs_inv_init)
    as (out & P & Hrun & Hinv & Hall & _).
  unfold swaps_of in *.
  destruct (partition students_info) as [swaps lookup]. simpl in *.
  exists out, P. auto.
Qed.
End PairsLoop.

(* ================================================================== *)
(** ** Fuel and room on the stack: more of either never changes a result *)

Unset Implicit Arguments.

Lemma bind_ok : forall (A B : Type) (m : result A) (k : A -> result B) (r : B),
    bind m k = Ok r -> exists a, m = Ok a /\ k a = Ok r.
Proof.
  intros A B [a| | |] k r H; simpl in H; try discriminate. exists a. auto.
Qed.

Section FuelMono.
Variable graph : pygraph.
Variable left_nodes : list Z.

Lemma bfs_loop_mono : forall fuel fuel' mr d q r,
    bfs_loop graph fuel mr d q = Ok r -> fuel <= fuel' ->
    bfs_loop graph fuel' mr d q = Ok r.
Proof.
  induction fuel as [|fuel IH]; intros fuel' mr d q r H Hle; simpl in H;
    [discriminate|].
  destruct fuel' as [|fuel']; [lia|]. simpl.
  destruct q as [|u q]; [exact H|].
  apply bind_ok in H. destruct H as (du & -> & H). simpl.
  apply bind_ok in H. destruct H as (dn & -> & H). simpl.
  destruct (dval_ltb du dn).
  - apply bind_ok in H. destruct H as (adj & -> & H). simpl.
    apply bind_ok in H. destruct H as ([d' q'] & -> & H). simpl.
    apply IH; [exact H|lia].
  - apply IH; [exact H|lia].
Qed.

Lemma bfs_mono : forall fuel fuel' s r,
    bfs graph left_nodes fuel s = Ok r -> fuel <= fuel' ->
    bfs graph left_nodes fuel' s = Ok r.
Proof.
  intros fuel fuel' s r H Hle. unfold bfs in *.
  destruct (bfs_init left_nodes (match_left s) (dist s) []) as [d0 q0].
  apply bind_ok in H. destruct H as (d2 & H1 & H).
  rewrite (bfs_loop_mono _ _ _ _ _ _ H1 Hle). exact H.
Qed.

Lemma dfs_scan_mono : forall (rec rec' : option Z -> hk_state -> result (bool * hk_state)),
    (forall u s r, rec u s = Ok r -> rec' u s = Ok r) ->
    forall vs x s r,
      dfs_scan rec x vs s = Ok r -> dfs_scan rec' x vs s = Ok r.
Proof.
  intros rec rec' Hrec. induction vs as [|v vs IH]; intros x s r H; simpl in *;
    [exact H|].
  apply bind_ok in H. destruct H as (du & -> & H). simpl.
  destruct (dval_eqb (dist_get (dist s) (dict_get Z.eqb (match_right s) v))
                     (dval_succ du)); [|apply IH; exact H].
  apply bind_ok in H. destruct H as ([found s'] & H1 & H).
  rewrite (Hrec _ _ _ H1). simpl.
  destruct found; [exact H|apply IH; exact H].
Qed.

Lemma dfs_mono : forall fuel fuel' u s r,
    dfs graph fuel u s = Ok r -> fuel <= fuel' ->
    dfs graph fuel' u s = Ok r.
Proof.
  induction fuel as [|fuel IH]; intros fuel' u s r H Hle; simpl in H;
    [discriminate|].
  destruct fuel' as [|fuel']; [lia|]. simpl.
  destruct u as [x|]; [|exact H].
  apply bind_ok in H. destruct H as (adj & -> & H). simpl.
  apply dfs_scan_mono with (rec := dfs graph fuel); [|exact H].
  intros u s0 r0 H0. apply IH; [exact H0|lia].
Qed.

Lemma dfs_phase_mono : forall fuel fuel' us s r,
    dfs_phase graph fuel us s = Ok r -> fuel <= fuel' ->
    dfs_phase graph fuel' us s = Ok r.
Proof.
  intros fuel fuel' us. induction us as [|u us IH]; intros s r H Hle;
    simpl in *; [exact H|].
  destruct (dict_mem Z.eqb (match_left s) u); [apply IH; assumption|].
  apply bind_ok in H. destruct H as ([found s'] & H1 & H).
  rewrite (dfs_mono _ _ _ _ _ H1 Hle). simpl.
  destruct found; apply IH; assumption.
Qed.

Lemma hk_while_mono : forall rounds rounds' fuel fuel' s r,
    hk_while graph left_nodes rounds fuel s = Ok r ->
    rounds <= rounds' -> fuel <= fuel' ->
    hk_while graph left_nodes rounds' fuel' s = Ok r.
Proof.
  induction rounds as [|rounds IH]; intros rounds' fuel fuel' s r H Hr Hf;
    simpl in H; [discriminate|].
  destruct rounds' as [|rounds']; [lia|]. simpl.
  apply bind_ok in H. destruct H as ([again s1] & H1 & H).
  rewrite (bfs_mono _ _ _ _ H1 Hf). simpl.
  destruct again; [|exact H].
  apply bind_ok in H. destruct H as (s2 & H2 & H).
  rewrite (dfs_phase_mono _ _ _ _ _ H2 Hf). simpl.
  apply IH with (fuel := fuel); [exact H|lia|exact Hf].
Qed.

Lemma hopcroft_karp_mono : forall fuel fuel' r,
    hopcroft_karp graph left_nodes fuel = Ok r -> fuel <= fuel' ->
    hopcroft_karp graph left_nodes fuel' = Ok r.
Proof.
  intros fuel fuel' r H Hle. unfold hopcroft_karp in *.
  apply bind_ok in H. destruct H as (s & H1 & H).
  rewrite (hk_while_mono _ _ _ _ _ _ H1 Hle Hle). exact H.
Qed.

(** A run that returns with room for [limit] frames returns the same with
    more room: with less room than a failing run, a run cannot return. *)
Lemma hk_while_limit_mono : forall limit limit' rounds fuel s r,
    hk_while_limit graph left_nodes limit rounds fuel s = Ok r ->
    limit <= limit' ->
    hk_while_limit graph left_nodes limit' rounds fuel s = Ok r.
Proof.
  intros limit limit' rounds. induction rounds as [|rounds IH];
    intros fuel s r H Hl; simpl in H; [discriminate|]. simpl.
  apply bind_ok in H. destruct H as ([again s1] & H1 & H).
  rewrite H1. simpl.
  destruct again; [|exact H].
  apply bind_ok in H. destruct H as (s2 & H2 & H).
  rewrite (dfs_phase_mono _ _ _ _ _ H2 Hl). simpl.
  apply IH; [exact H|exact Hl].
Qed.

Lemma hopcroft_karp_limit_mono : forall limit limit' fuel r,
    hopcroft_karp_limit graph left_nodes limit fuel = Ok r ->
    limit <= limit' ->
    hopcroft_karp_limit graph left_nodes limit' fuel = Ok r.
Proof.
  intros limit limit' fuel r H Hle. unfold hopcroft_karp_limit in *.
  apply bind_ok in H. destruct H as (s & H1 & H).
  rewrite (hk_while_limit_mono _ _ _ _ _ _ H1 Hle). exact H.
Qed.
End FuelMono.

(** The loop of [match_student_pairs] depends neither on the amount of
    fuel (once it suffices) nor on how the set [processed_pairs] is
    implemented. *)
Lemma pairs_loop_indep :
  forall (S1 : Type) (PS1 : PySet S1) (S2 : Type) (PS2 : PySet S2)
         fuel fuel' swaps keys (P1 : S1) (P2 : S2) acc out,
    (forall k, set_mem P1 k = set_mem P2 k) ->
    fuel <= fuel' ->
    pairs_loop fuel swaps keys P1 acc = Ok out ->
    pairs_loop fuel' swaps keys P2 acc = Ok out.
Proof.
  intros S1 PS1 S2 PS2 fuel fuel' swaps keys.
  induction keys as [|[A B] keys IH]; intros P1 P2 acc out Heq Hle H;
    simpl in *; [exact H|].
  rewrite <- Heq. destruct (set_mem P1 (A, B)); [eapply IH; eauto|].
  assert (Heq1 : forall k, set_mem (set_add P1 (A, B)) k
                           = set_mem (set_add P2 (A, B)) k).
  { intros k. rewrite !set_mem_add, Heq. reflexivity. }
  assert (Heq2 : forall k,
             set_mem (set_add (set_add P1 (A, B)) (B, A)) k
             = set_mem (set_add (set_add P2 (A, B)) (B, A)) k).
  { intros k. rewrite !set_mem_add, Heq. reflexivity. }
  destruct (negb (dict_mem gkey_eqb swaps (B, A))); [eapply IH; eauto|].
  destruct (build_graph (dict_get_default gkey_eqb swaps (A, B) [])
                        (dict_get_default gkey_eqb swaps (B, A) []) [] [])
    as [graph left_ids].
  destruct left_ids as [|u0 left_ids]; [eapply IH; eauto|].
  apply bind_ok in H. destruct H as (ml & H1 & H).
  rewrite (hopcroft_karp_mono _ _ _ _ _ H1 Hle). simpl.
  eapply IH; eauto.
Qed.

Lemma match_student_pairs_unfold :
  forall (S : Type) (PS : PySet S) fuel students_info,
    match_student_pairs fuel students_info
    = pairs_loop fuel (swaps_of students_info)
                 (map fst (swaps_of students_info)) set_empty [].
Proof.
  intros S PS fuel students_info. unfold match_student_pairs, swaps_of.
  destruct (partition students_info) as [swaps lookup]. reflexivity.
Qed.

Lemma match_student_pairs_indep :
  forall (S1 : Type) (PS1 : PySet S1) (S2 : Type) (PS2 : PySet S2)
         fuel fuel' students_info out,
    fuel <= fuel' ->
    match_student_pairs (S := S1) fuel students_info = Ok out ->
    match_student_pairs (S := S2) fuel' students_info = Ok out.
Proof.
  intros S1 PS1 S2 PS2 fuel fuel' students_info out Hle H.
  rewrite match_student_pairs_unfold in *.
  apply (pairs_loop_indep S1 PS1 S2 PS2 fuel fuel' _ _ set_empty set_empty [] out);
    [|exact Hle|exact H].
  intros k. rewrite !set_mem_empty. reflexivity.
Qed.

(** Every emitted pair is a sorted pair. *)
Lemma pairs_loop_sorted :
  forall (S : Type) (PS : PySet S) fuel swaps keys (P : S) acc out,
    pairs_loop fuel swaps keys P acc = Ok out ->
    (forall a b, In (a, b) acc -> (a <= b)%Z) ->
    forall a b, In (a, b) out -> (a <= b)%Z.
Proof.
  intros S PS fuel swaps keys.
  induction keys as [|[A B] keys IH]; intros P acc out H Hacc; simpl in H.
  - inversion H; subst. exact Hacc.
  - destruct (set_mem P (A, B)); [eapply IH; eauto|].
    destruct (negb (dict_mem gkey_eqb swaps (B, A))); [eapply IH; eauto|].
    destruct (build_graph (dict_get_default gkey_eqb swaps (A, B) [])
                          (dict_get_default gkey_eqb swaps (B, A) []) [] [])
      as [graph left_ids].
    destruct left_ids as [|u0 left_ids]; [eapply IH; eauto|].
    apply bind_ok in H. destruct H as (ml & _ & H).
    eapply IH; [exact H|].
    intros a b Hin. apply in_app_iff in Hin. destruct Hin as [Hin|Hin]; [auto|].
    apply in_map_iff in Hin. destruct Hin as ([u v] & E & _).
    unfold sorted_pair in E. destruct (Z.ltb v u) eqn:Elt; inversion E; subst.
    + apply Z.ltb_lt in Elt. lia.
    + apply Z.ltb_ge in Elt. exact Elt.
Qed.

(* ================================================================== *)
(** ** [hopcroft_karp] reads the graph only at the left nodes *)

Section GraphExt.
Variable g1 g2 : pygraph.
Variable left_nodes : list Z.
Hypothesis graphs_agree :
  forall u, In u left_nodes ->
            graph_getitem g1 (Some u) = graph_getitem g2 (Some u).

(** Every partner recorded in [match_right] is a left node. *)
Definition mr_closed (mr : list (Z * Z)) : Prop :=
  forall v, closed left_nodes (dict_get Z.eqb mr v).

Definition queue_closed (q : list (option Z)) : Prop :=
  forall a, In a q -> closed left_nodes a.

Lemma bfs_scan_closed : forall vs u mr d q d' q',
    mr_closed mr -> queue_closed q ->
    bfs_scan u vs mr d q = Ok (d', q') -> queue_closed q'.
Proof.
  induction vs as [|v vs IH]; intros u mr d q d' q' Hmr Hq H; simpl in H.
  - inversion H; subst. exact Hq.
  - destruct (dval_eqb (dist_get d (dict_get Z.eqb mr v)) INF).
    + apply bind_ok in H. destruct H as (du & _ & H).
      eapply IH; [exact Hmr| |exact H].
      intros a Ha. apply in_app_iff in Ha. destruct Ha as [Ha|[<-|[]]]; auto.
    + eapply IH; eauto.
Qed.

Lemma bfs_loop_ext : forall fuel mr d q,
    mr_closed mr -> queue_closed q ->
    bfs_loop g1 fuel mr d q = bfs_loop g2 fuel mr d q.
Proof.
  induction fuel as [|fuel IH]; intros mr d q Hmr Hq; simpl; [reflexivity|].
  destruct q as [|u q]; [reflexivity|].
  assert (Hq' : queue_closed q) by (intros a Ha; apply Hq; right; exact Ha).
  destruct u as [x|].
  - destruct (dict_getitem okey_eqb d (Some x)) as [du| | |]; simpl; try reflexivity.
    destruct (dict_getitem okey_eqb d None) as [dn| | |]; simpl; try reflexivity.
    destruct (dval_ltb du dn); [|apply IH; assumption].
    rewrite graphs_agree by (apply (Hq (Some x)); left; reflexivity).
    destruct (graph_getitem g2 (Some x)) as [adj| | |]; simpl; try reflexivity.
    destruct (bfs_scan (Some x) adj mr d q) as [[d' q']| | |] eqn:E; simpl;
      try reflexivity.
    apply IH; [exact Hmr|]. eapply bfs_scan_closed; eauto.
  - destruct (dict_getitem okey_eqb d None) as [dn| | |]; simpl; try reflexivity.
    rewrite dval_ltb_irrefl. apply IH; assumption.
Qed.

Lemma bfs_init_closed : forall us ml d q d' q',
    (forall u, In u us -> In u left_nodes) -> queue_closed q ->
    bfs_init us ml d q = (d', q') -> queue_closed q'.
Proof.
  induction us as [|u us IH]; intros ml d q d' q' Hus Hq H; simpl in H.
  - inversion H; subst. exact Hq.
  - assert (Hus' : forall u0, In u0 us -> In u0 left_nodes)
      by (intros u0 Hu0; apply Hus; right; exact Hu0).
    destruct (dict_mem Z.eqb ml u); [eapply IH; eauto|].
    eapply IH; [exact Hus'| |exact H].
    intros a Ha. apply in_app_iff in Ha. destruct Ha as [Ha|[<-|[]]]; auto.
    simpl. apply Hus. left. reflexivity.
Qed.

Lemma bfs_ext : forall fuel s,
    mr_closed (match_right s) ->
    bfs g1 left_nodes fuel s = bfs g2 left_nodes fuel s.
Proof.
  intros fuel s Hmr. unfold bfs.
  destruct (bfs_init left_nodes (match_left s) (dist s) []) as [d0 q0] eqn:E.
  rewrite bfs_loop_ext; [reflexivity|exact Hmr|].
  eapply bfs_init_closed; [| |exact E]; [auto|intros a []].
Qed.

Lemma bfs_match_right : forall g fuel s again s',
    bfs g left_nodes fuel s = Ok (again, s') ->
    match_right s' = match_right s.
Proof.
  intros g fuel s again s' H. unfold bfs in H.
  destruct (bfs_init left_nodes (match_left s) (dist s) []) as [d0 q0].
  apply bind_ok in H. destruct H as (d2 & _ & H).
  apply bind_ok in H. destruct H as (dn & _ & H).
  inversion H; subst. reflexivity.
Qed.

(** What a recursive call of [dfs] guarantees on both graphs. *)
Definition rec_agree (rec1 rec2 : option Z -> hk_state -> result (bool * hk_state))
  : Prop :=
  forall u s, closed left_nodes u -> mr_closed (match_right s) ->
              rec1 u s = rec2 u s /\
              forall found s', rec1 u s = Ok (found, s') ->
                               mr_closed (match_right s').

Lemma dfs_scan_ext : forall rec1 rec2,
    rec_agree rec1 rec2 ->
    forall vs x s,
      In x left_nodes -> mr_closed (match_right s) ->
      dfs_scan rec1 x vs s = dfs_scan rec2 x vs s /\
      forall found s', dfs_scan rec1 x vs s = Ok (found, s') ->
                       mr_closed (match_right s').
Proof.
  intros rec1 rec2 Hrec. induction vs as [|v vs IH]; intros x s Hx Hmr; simpl.
  - split; [reflexivity|]. intros found s' H. inversion H; subst. exact Hmr.
  - destruct (dict_getitem okey_eqb (dist s) (Some x)) as [du| | |]; simpl;
      try (split; [reflexivity|discriminate]).
    destruct (dval_eqb (dist_get (dist s) (dict_get Z.eqb (match_right s) v))
                       (dval_succ du)); [|apply IH; assumption].
    destruct (Hrec (dict_get Z.eqb (match_right s) v) s (Hmr v) Hmr) as [E Hc].
    rewrite <- E.
    destruct (rec1 (dict_get Z.eqb (match_right s) v) s) as [[found s1]| | |];
      simpl; try (split; [reflexivity|discriminate]).
    specialize (Hc found s1 eq_refl).
    destruct found; [|apply IH; assumption].
    split; [reflexivity|]. intros found s' H. inversion H; subst. simpl.
    intros v0. rewrite (dict_get_set Z.eqb Z.eqb_eq).
    destruct (Z.eqb v v0); [exact Hx|apply Hc].
Qed.

Lemma dfs_ext : forall fuel, rec_agree (dfs g1 fuel) (dfs g2 fuel).
Proof.
  induction fuel as [|fuel IH]; intros u s Hu Hmr; simpl.
  - split; [reflexivity|discriminate].
  - destruct u as [x|].
    + rewrite graphs_agree by exact Hu.
      destruct (graph_getitem g2 (Some x)) as [adj| | |]; simpl;
        try (split; [reflexivity|discriminate]).
      apply dfs_scan_ext; assumption.
    + split; [reflexivity|]. intros found s' H. inversion H; subst. exact Hmr.
Qed.

Lemma dfs_phase_ext : forall fuel us s,
    (forall u, In u us -> In u left_nodes) -> mr_closed (match_right s) ->
    dfs_phase g1 fuel us s = dfs_phase g2 fuel us s /\
    forall s', dfs_phase g1 fuel us s = Ok s' -> mr_closed (match_right s').
Proof.
  intros fuel us. induction us as [|u us IH]; intros s Hus Hmr; simpl.
  - split; [reflexivity|]. intros s' H. inversion H; subst. exact Hmr.
  - assert (Hus' : forall u0, In u0 us -> In u0 left_nodes)
      by (intros u0 Hu0; apply Hus; right; exact Hu0).
    destruct (dict_mem Z.eqb (match_left s) u); [apply IH; assumption|].
    destruct (dfs_ext fuel (Some u) s (Hus u (or_introl eq_refl)) Hmr) as [E Hc].
    rewrite <- E.
    destruct (dfs g1 fuel (Some u) s) as [[found s1]| | |]; simpl;
      try (split; [reflexivity|discriminate]).
    specialize (Hc found s1 eq_refl).
    destruct found; apply IH; assumption.
Qed.

Lemma hk_while_ext : forall rounds fuel s,
    mr_closed (match_right s) ->
    hk_while g1 left_nodes rounds fuel s = hk_while g2 left_nodes rounds fuel s.
Proof.
  induction rounds as [|rounds IH]; intros fuel s Hmr; simpl; [reflexivity|].
  rewrite <- bfs_ext by exact Hmr.
  destruct (bfs g1 left_nodes fuel s) as [[again s1]| | |] eqn:E; simpl;
    try reflexivity.
  destruct again; [|reflexivity].
  assert (Hmr1 : mr_closed (match_right s1)).
  { rewrite (bfs_match_right _ _ _ _ _ E). exact Hmr. }
  destruct (dfs_phase_ext fuel left_nodes s1 (fun u H => H) Hmr1) as [E2 Hc].
  rewrite <- E2.
  destruct (dfs_phase g1 fuel left_nodes s1) as [s2| | |]; simpl; try reflexivity.
  apply IH. apply Hc. reflexivity.
Qed.

Lemma hopcroft_karp_ext : forall fuel,
    hopcroft_karp g1 left_nodes fuel = hopcroft_karp g2 left_nodes fuel.
Proof.
  intros fuel. unfold hopcroft_karp. rewrite hk_while_ext; [reflexivity|].
  intros v. exact I.
Qed.
End GraphExt.


(* ================================================================== *)
(** ** Vocabulary of the main theorems *)

(** The right nodes of a graph: all nodes listed in the adjacency of some
    left node, each counted once. *)
Definition right_nodes (graph : pygraph) (left_nodes : list Z) : list Z :=
  nodup Z.eq_dec
        (flat_map (fun u => match graph_getitem graph (Some u) with
                            | Ok adj => adj
                            | _ => []
                            end) left_nodes).

(** The states in which the main loop of [hopcroft_karp] evaluates its
    condition [bfs()]. *)
Inductive hk_reachable (graph : pygraph) (left_nodes : list Z) (fuel : nat)
  : hk_state -> Prop :=
| hk_reach_init : hk_reachable graph left_nodes fuel hk_init
| hk_reach_round : forall s s1 s2,
    hk_reachable graph left_nodes fuel s ->
    bfs graph left_nodes fuel s = Ok (true, s1) ->
    dfs_phase graph fuel left_nodes s1 = Ok s2 ->
    hk_reachable graph left_nodes fuel s2.

(** The same states when the stack has room for [limit] frames of
    [dfs]. *)
Inductive hk_reachable_limit (graph : pygraph) (left_nodes : list Z)
          (limit fuel : nat) : hk_state -> Prop :=
| hk_reach_limit_init : hk_reachable_limit graph left_nodes limit fuel hk_init
| hk_reach_limit_round : forall s s1 s2,
    hk_reachable_limit graph left_nodes limit fuel s ->
    bfs graph left_nodes fuel s = Ok (true, s1) ->
    dfs_phase graph limit left_nodes s1 = Ok s2 ->
    hk_reachable_limit graph left_nodes limit fuel s2.

Lemma is_matching_size : forall graph left_nodes m,
    is_matching graph left_nodes m ->
    List.length m
    <= Nat.min (List.length left_nodes) (List.length (right_nodes graph left_nodes)).
Proof.
  intros graph left_nodes m (H1 & H2 & H3).
  apply Nat.min_glb.
  - rewrite <- (length_map fst m). apply NoDup_incl_length; [exact H1|].
    intros u Hu. apply in_map_iff in Hu. destruct Hu as ([u' v] & <- & Hin).
    apply (H3 u' v Hin).
  - rewrite <- (length_map snd m). apply NoDup_incl_length; [exact H2|].
    intros v Hv. apply in_map_iff in Hv. destruct Hv as ([u v'] & <- & Hin).
    destruct (H3 u v' Hin) as [Hu (adj & Hadj & Hv)].
    unfold right_nodes. apply nodup_In. apply in_flat_map.
    exists u. split; [exact Hu|]. rewrite Hadj. exact Hv.
Qed.

Lemma hk_reachable_inv : forall graph left_nodes fuel s,
    (forall u, In u left_nodes ->
               exists adj, graph_getitem graph (Some u) = Ok adj) ->
    NoDup left_nodes -> 2 * List.length left_nodes + 2 <= fuel ->
    hk_reachable graph left_nodes fuel s -> hk_inv graph left_nodes s.
Proof.
  intros graph left_nodes fuel s Htot Hnd Hfuel Hr.
  induction Hr as [|s s1 s2 _ IH Hbfs Hdfs].
  - apply hk_inv_init.
  - destruct (@hk_round graph left_nodes Htot Hnd fuel s IH Hfuel)
      as (again & s1' & Hrun & Hpost).
    rewrite Hbfs in Hrun. inversion Hrun; subst again s1'.
    destruct Hpost as (s2' & Hrun2 & Hinv2 & _).
    rewrite Hdfs in Hrun2. inversion Hrun2; subst s2'. exact Hinv2.
Qed.

Lemma hk_reachable_limit_inv : forall graph left_nodes limit fuel s,
    (forall u, In u left_nodes ->
               exists adj, graph_getitem graph (Some u) = Ok adj) ->
    NoDup left_nodes ->
    List.length left_nodes + 1 <= limit ->
    2 * List.length left_nodes + 2 <= fuel ->
    hk_reachable_limit graph left_nodes limit fuel s ->
    hk_inv graph left_nodes s.
Proof.
  intros graph left_nodes limit fuel s Htot Hnd Hlimit Hfuel Hr.
  induction Hr as [|s s1 s2 _ IH Hbfs Hdfs].
  - apply hk_inv_init.
  - destruct (@hk_round_limit graph left_nodes Htot Hnd limit fuel s IH Hfuel Hlimit)
      as (again & s1' & Hrun & Hpost).
    rewrite Hbfs in Hrun. inversion Hrun; subst again s1'.
    destruct Hpost as (s2' & Hrun2 & Hinv2 & _).
    rewrite Hdfs in Hrun2. inversion Hrun2; subst s2'. exact Hinv2.
Qed.

(* ================================================================== *)
(** ** Main theorems: [hopcroft_karp] *)

(** C1. For every finite bipartite graph given as a mapping from each left
    node to a list of right nodes, with the list of its left nodes (each
    listed once), [hopcroft_karp] returns a mapping that is a matching of
    the graph -- every pair [(u, result[u])] is an edge and no right node is
    assigned to two left nodes -- and whose cardinality is maximum among all
    matchings of the graph, provided the interpreter's stack has room for
    [|left_nodes| + 1] nested calls of [dfs] (one per left node of the
    longest augmenting path and one for [dfs(None)]).  Without that room
    the call raises [RecursionError]: see the chain of 1000 left nodes
    below. *)
Theorem hopcroft_karp_maximum_matching : forall graph left_nodes limit fuel,
    (forall u, In u left_nodes ->
               exists adj, graph_getitem graph (Some u) = Ok adj) ->
    NoDup left_nodes ->
    List.length left_nodes + 1 <= limit ->
    hk_fuel left_nodes <= fuel ->
    exists result,
      hopcroft_karp_limit graph left_nodes limit fuel = Ok result /\
      (forall u v, dict_get Z.eqb result u = Some v ->
                   In u left_nodes /\ edge graph u v) /\
      (forall u1 u2 v, dict_get Z.eqb result u1 = Some v ->
                       dict_get Z.eqb result u2 = Some v -> u1 = u2) /\
      NoDup (map fst result) /\
      (forall m, is_matching graph left_nodes m ->
                 List.length m <= List.length result).
Proof.
  intros graph left_nodes limit fuel Htot Hnd Hlimit Hfuel.
  destruct (@hopcroft_karp_limit_correct graph left_nodes limit fuel
              Htot Hnd Hlimit Hfuel)
    as (s & _ & Hrun & Hfin).
  exists (match_left s). split; [exact Hrun|].
  pose proof (proj1 Hfin) as Hinv.
  split; [|split; [|split]].
  - intros u v H. split; [eapply inv_left|eapply inv_edge]; eauto.
  - intros u1 u2 v H1 H2.
    apply (inv_sym Hinv) in H1. apply (inv_sym Hinv) in H2. congruence.
  - apply (inv_nodup Hinv).
  - intros m Hm. apply (hk_final_maximum Hfin Hm).
Qed.

(** C6. For every finite input graph (an adjacency list for each left
    node, each left node listed once), when the interpreter's stack has
    room for [|left_nodes| + 1] nested calls of [dfs], [hopcroft_karp]
    terminates and returns a (possibly empty) matching without raising;
    each round of [bfs] followed by the [dfs] loop either strictly
    increases [matching_size] or is the final round, and the matching size
    is bounded by the minimum of the numbers of left and right nodes.
    Without that room a round can end in [RecursionError]: see the
    second round on the chain of 1000 left nodes below. *)
Theorem hopcroft_karp_terminates : forall graph left_nodes limit fuel,
    (forall u, In u left_nodes ->
               exists adj, graph_getitem graph (Some u) = Ok adj) ->
    NoDup left_nodes ->
    List.length left_nodes + 1 <= limit ->
    hk_fuel left_nodes <= fuel ->
    (exists result,
        hopcroft_karp_limit graph left_nodes limit fuel = Ok result /\
        is_matching graph left_nodes result /\
        List.length result
        <= Nat.min (List.length left_nodes)
                   (List.length (right_nodes graph left_nodes))) /\
    (forall s,
        hk_reachable_limit graph left_nodes limit fuel s ->
        matching_size s
        <= Nat.min (List.length left_nodes)
                   (List.length (right_nodes graph left_nodes)) /\
        exists again s1,
          bfs graph left_nodes fuel s = Ok (again, s1) /\
          if again
          then exists s2, dfs_phase graph limit left_nodes s1 = Ok s2 /\
                          matching_size s < matching_size s2
          else forall rounds,
              hk_while_limit graph left_nodes limit (S rounds) fuel s = Ok s1).
Proof.
  intros graph left_nodes limit fuel Htot Hnd Hlimit Hfuel. split.
  - destruct (@hopcroft_karp_limit_correct graph left_nodes limit fuel
                Htot Hnd Hlimit Hfuel)
      as (s & _ & Hrun & Hfin).
    exists (match_left s). split; [exact Hrun|].
    pose proof (hk_inv_matching (proj1 Hfin)) as Hm.
    split; [exact Hm|apply is_matching_size; exact Hm].
  - intros s Hr. unfold hk_fuel in Hfuel.
    assert (Hfuel' : 2 * List.length left_nodes + 2 <= fuel) by lia.
    pose proof (hk_reachable_limit_inv graph left_nodes limit fuel s
                  Htot Hnd Hlimit Hfuel' Hr) as Hinv.
    split.
    + rewrite (inv_size Hinv). apply is_matching_size.
      apply hk_inv_matching. exact Hinv.
    + destruct (@hk_round_limit graph left_nodes Htot Hnd limit fuel s
                  Hinv Hfuel' Hlimit)
        as (again & s1 & Hrun & Hpost).
      exists again, s1. split; [exact Hrun|]. destruct again.
      * destruct Hpost as (s2 & Hrun2 & Hinv2 & Hlt).
        exists s2. split; [exact Hrun2|].
        rewrite (inv_size Hinv), (inv_size Hinv2). exact Hlt.
      * intros rounds. simpl. rewrite Hrun. reflexivity.
Qed.

(** A graph on which the first round matches greedily and the second round
    augments along a path of length five. *)
Definition example_graph : pygraph :=
  Dict [(1, [10; 11]); (2, [10]); (3, [11; 12])]%Z.

Definition example_left : list Z := [1; 2; 3]%Z.

Lemma example_graph_total : forall u,
    In u example_left ->
    exists adj, graph_getitem example_graph (Some u) = Ok adj.
Proof.
  intros u Hu. simpl in Hu.
  destruct Hu as [<-|[<-|[<-|[]]]]; eexists; reflexivity.
Defined.

Lemma example_left_nodup : NoDup example_left.
Proof.
  unfold example_left.
  repeat constructor; simpl; intros H;
    repeat (destruct H as [H|H]; [discriminate|]); exact H.
Defined.

Lemma hopcroft_karp_maximum_matching_witness :
  exists result,
    hopcroft_karp_limit example_graph example_left 4 9 = Ok result /\
    result = [(1, 11); (3, 12); (2, 10)]%Z /\
    (forall m, is_matching example_graph example_left m ->
               List.length m <= List.length result).
Proof.
  destruct (hopcroft_karp_maximum_matching example_graph example_left 4 9
              example_graph_total example_left_nodup)
    as (result & Hrun & _ & _ & _ & Hmax).
  - vm_compute. lia.
  - vm_compute. lia.
  - exists result. split; [exact Hrun|]. split; [|exact Hmax].
    vm_compute in Hrun. inversion Hrun. reflexivity.
Defined.

Lemma hopcroft_karp_terminates_witness :
  (exists result,
      hopcroft_karp_limit example_graph example_left 4 9 = Ok result /\
      List.length result <= 3) /\
  (exists again s1,
      bfs example_graph example_left 9 hk_init = Ok (again, s1) /\
      if again
      then exists s2, dfs_phase example_graph 4 example_left s1 = Ok s2 /\
                      matching_size hk_init < matching_size s2
      else forall rounds,
          hk_while_limit example_graph example_left 4 (S rounds) 9 hk_init
          = Ok s1).
Proof.
  destruct (hopcroft_karp_terminates example_graph example_left 4 9
              example_graph_total example_left_nodup)
    as [(result & Hrun & _ & Hlen) Hround].
  - vm_compute. lia.
  - vm_compute. lia.
  - split.
    + exists result. split; [exact Hrun|]. exact Hlen.
    + destruct (Hround hk_init (hk_reach_limit_init _ _ _ _)) as [_ H]. exact H.
Defined.

(* ================================================================== *)
(** ** The room on the stack is needed *)

(** A chain: left node [i] has the right nodes [-(i+1)] and [-i], the last
    left node [n] only [-n].  The first round gives every left node but the
    last its first neighbour; the only augmenting path then starts at [n]
    and runs back through all the left nodes down to [1], whose second
    neighbour [-1] is free.  So [dfs(n)] calls [dfs(n-1)], ..., [dfs(1)],
    [dfs(None)]: [n + 1] frames. *)
Definition chain_left (n : nat) : list Z := map Z.of_nat (seq 1 n).

Definition chain_graph (n : nat) : pygraph :=
  Dict (map (fun u => (u, if Z.eqb u (Z.of_nat n)
                          then [(- u)%Z]
                          else [(- (u + 1))%Z; (- u)%Z]))
            (chain_left n)).

Lemma chain_left_nodup : forall n, NoDup (chain_left n).
Proof.
  intros n. unfold chain_left.
  apply NoDup_map_inj_on; [apply seq_NoDup|].
  intros a b _ _ H. apply Nat2Z.inj. exact H.
Qed.

Lemma chain_graph_total : forall n u,
    In u (chain_left n) ->
    exists adj, graph_getitem (chain_graph n) (Some u) = Ok adj.
Proof.
  intros n u Hu. unfold chain_graph. simpl. unfold dict_getitem.
  generalize (fun u : Z => if Z.eqb u (Z.of_nat n)
                           then [(- u)%Z]
                           else [(- (u + 1))%Z; (- u)%Z]).
  intros f. induction (chain_left n) as [|x l IH]; simpl in *; [contradiction|].
  destruct (Z.eqb u x) eqn:E; [eexists; reflexivity|].
  destruct Hu as [->|Hu]; [rewrite Z.eqb_refl in E; discriminate|].
  apply IH. exact Hu.
Qed.

(** With three left nodes: three frames are not enough, four are. *)
Example chain3_three_frames :
  hopcroft_karp_limit (chain_graph 3) (chain_left 3) 3 9 = RecursionError.
Proof. vm_compute. reflexivity. Qed.

Example chain3_four_frames :
  hopcroft_karp_limit (chain_graph 3) (chain_left 3) 4 9
  = Ok [(1, -1); (2, -2); (3, -3)]%Z.
Proof. vm_compute. reflexivity. Qed.

Lemma chain1000_overflows :
  hopcroft_karp_limit (chain_graph 1000) (chain_left 1000) 1000
                      (hk_fuel (chain_left 1000))
  = RecursionError.
Proof. vm_compute. reflexivity. Qed.

(** The chain of 1000 left nodes is a well-formed input, and even with
    the whole default stack of 1000 frames left to [dfs] the call raises
    [RecursionError]; with any smaller part of it the call does not return
    either. *)
Lemma chain_raises_RecursionError :
  NoDup (chain_left 1000) /\
  (forall u, In u (chain_left 1000) ->
             exists adj, graph_getitem (chain_graph 1000) (Some u) = Ok adj) /\
  hopcroft_karp_limit (chain_graph 1000) (chain_left 1000) 1000
                      (hk_fuel (chain_left 1000))
  = RecursionError /\
  (forall limit result,
      limit <= 1000 ->
      hopcroft_karp_limit (chain_graph 1000) (chain_left 1000) limit
                          (hk_fuel (chain_left 1000))
      <> Ok result).
Proof.
  split; [apply chain_left_nodup|]. split; [apply chain_graph_total|].
  split; [exact chain1000_overflows|].
  intros limit result Hle H.
  pose proof (hopcroft_karp_limit_mono _ _ _ _ _ _ H Hle) as H'.
  rewrite chain1000_overflows in H'. discriminate.
Qed.

(** The same run round by round.  The state after the first [bfs], after
    the first [dfs] loop, and after the second [bfs]. *)
Definition state_of (r : result (bool * hk_state)) : hk_state :=
  match r with Ok (_, s) => s | _ => hk_init end.

Definition loop_state (r : result hk_state) : hk_state :=
  match r with Ok s => s | _ => hk_init end.

Definition chain_s1 : hk_state :=
  Eval vm_compute in
    state_of (bfs (chain_graph 1000) (chain_left 1000) 2003 hk_init).

Definition chain_s2 : hk_state :=
  Eval vm_compute in
    loop_state (dfs_phase (chain_graph 1000) 1000 (chain_left 1000) chain_s1).

Definition chain_s3 : hk_state :=
  Eval vm_compute in
    state_of (bfs (chain_graph 1000) (chain_left 1000) 2003 chain_s2).

Lemma chain_round1_bfs :
  bfs (chain_graph 1000) (chain_left 1000) 2003 hk_init = Ok (true, chain_s1).
Proof. vm_compute. reflexivity. Qed.

Lemma chain_round1_dfs :
  dfs_phase (chain_graph 1000) 1000 (chain_left 1000) chain_s1 = Ok chain_s2.
Proof. vm_compute. reflexivity. Qed.

Lemma chain_round2_bfs :
  bfs (chain_graph 1000) (chain_left 1000) 2003 chain_s2 = Ok (true, chain_s3).
Proof. vm_compute. reflexivity. Qed.

Lemma chain_round2_dfs :
  dfs_phase (chain_graph 1000) 1000 (chain_left 1000) chain_s3 = RecursionError.
Proof. vm_compute. reflexivity. Qed.

(** On this well-formed input ([chain_left_nodup], [chain_graph_total])
    the first round matches 999 left nodes, the second [bfs] returns
    [True], and the [dfs] loop that follows neither enlarges the matching
    nor ends the run: it raises [RecursionError], and with less room on
    the stack it does not return either. *)
Lemma chain_second_round_fails :
  bfs (chain_graph 1000) (chain_left 1000) 2003 hk_init = Ok (true, chain_s1) /\
  dfs_phase (chain_graph 1000) 1000 (chain_left 1000) chain_s1 = Ok chain_s2 /\
  hk_reachable_limit (chain_graph 1000) (chain_left 1000) 1000 2003 chain_s2 /\
  matching_size chain_s2 = 999 /\
  bfs (chain_graph 1000) (chain_left 1000) 2003 chain_s2 = Ok (true, chain_s3) /\
  dfs_phase (chain_graph 1000) 1000 (chain_left 1000) chain_s3 = RecursionError /\
  (forall limit s,
      limit <= 1000 ->
      dfs_phase (chain_graph 1000) limit (chain_left 1000) chain_s3 <> Ok s).
Proof.
  split; [exact chain_round1_bfs|]. split; [exact chain_round1_dfs|].
  split.
  { apply (hk_reach_limit_round _ _ _ _ hk_init chain_s1 chain_s2).
    - apply hk_reach_limit_init.
    - exact chain_round1_bfs.
    - exact chain_round1_dfs. }
  split; [vm_compute; reflexivity|].
  split; [exact chain_round2_bfs|].
  split; [exact chain_round2_dfs|].
  intros limit s Hle H.
  pose proof (dfs_phase_mono _ _ _ _ _ _ H Hle) as H'.
  rewrite chain_round2_dfs in H'. discriminate.
Qed.

(* ================================================================== *)
(** ** Main theorems: [match_student_pairs] *)

(** The two requests behind an output pair. *)
Lemma pairs_inv_records :
  forall (S : Type) (PS : PySet S) students_info (P : S) out s1 s2,
    pairs_inv students_info P out -> In (s1, s2) out ->
    exists r1 r2,
      In r1 students_info /\ In r2 students_info /\
      student_id r1 = s1 /\ student_id r2 = s2 /\
      current_group r1 <> desired_group r1 /\
      key_of r2 = reverse_key (key_of r1) /\
      valid_edge r1 r2 = true.
Proof.
  intros S PS students_info P out s1 s2 Hinv Hin.
  destruct (pi_pairs Hinv s1 s2 Hin)
    as (k & _ & _ & r1 & r2 & H1 & H2 & H3 & H4 & H5 & H6 & H7).
  apply in_part_spec in H5. apply in_part_spec in H6.
  destruct H5 as [Hne Hk1]. destruct H6 as [_ Hk2].
  exists r1, r2. rewrite Hk1, Hk2. tauto.
Qed.

(** C3. For every input with pairwise-distinct ids and every pair
    [(s1, s2)] of the output of [match_student_pairs], the request with id
    [s1] has its current group equal to the desired group of the request
    with id [s2], and conversely. *)
Theorem matched_pairs_valid :
  forall (S : Type) (PS : PySet S) students_info fuel,
    NoDup (map student_id students_info) ->
    msp_fuel students_info <= fuel ->
    exists out,
      match_student_pairs fuel students_info = Ok out /\
      forall s1 s2,
        In (s1, s2) out ->
        (exists r1 r2, In r1 students_info /\ In r2 students_info /\
                       student_id r1 = s1 /\ student_id r2 = s2) /\
        forall r1 r2,
          In r1 students_info -> In r2 students_info ->
          student_id r1 = s1 -> student_id r2 = s2 ->
          current_group r1 = desired_group r2 /\
          current_group r2 = desired_group r1.
Proof.
  intros S PS students_info fuel Hnd Hfuel.
  destruct (@match_student_pairs_spec S PS students_info Hnd fuel Hfuel)
    as (out & P & Hrun & Hinv & _).
  exists out. split; [exact Hrun|]. intros s1 s2 Hin.
  destruct (pairs_inv_records S PS students_info P out s1 s2 Hinv Hin)
    as (q1 & q2 & Hq1 & Hq2 & Hid1 & Hid2 & _ & Hkey & _).
  split; [exists q1, q2; auto|].
  intros r1 r2 Hr1 Hr2 E1 E2.
  assert (r1 = q1) by (apply (@id_inj students_info Hnd); congruence).
  assert (r2 = q2) by (apply (@id_inj students_info Hnd); congruence).
  subst r1 r2. unfold key_of, reverse_key in Hkey. simpl in Hkey.
  inversion Hkey. auto.
Qed.

(** C4. For every input with pairwise-distinct ids and every pair
    [(s1, s2)] of the output, a request with id [s1] that is not flexible
    names [s2] as its partner, and a request with id [s2] that is not
    flexible names [s1]. *)
Theorem matched_pairs_consent :
  forall (S : Type) (PS : PySet S) students_info fuel,
    NoDup (map student_id students_info) ->
    msp_fuel students_info <= fuel ->
    exists out,
      match_student_pairs fuel students_info = Ok out /\
      forall s1 s2,
        In (s1, s2) out ->
        (exists r1 r2, In r1 students_info /\ In r2 students_info /\
                       student_id r1 = s1 /\ student_id r2 = s2) /\
        forall r1 r2,
          In r1 students_info -> In r2 students_info ->
          student_id r1 = s1 -> student_id r2 = s2 ->
          (accept_swap r1 = false -> teammate_id r1 = Some s2) /\
          (accept_swap r2 = false -> teammate_id r2 = Some s1).
Proof.
  intros S PS students_info fuel Hnd Hfuel.
  destruct (@match_student_pairs_spec S PS students_info Hnd fuel Hfuel)
    as (out & P & Hrun & Hinv & _).
  exists out. split; [exact Hrun|]. intros s1 s2 Hin.
  destruct (pairs_inv_records S PS students_info P out s1 s2 Hinv Hin)
    as (q1 & q2 & Hq1 & Hq2 & Hid1 & Hid2 & _ & _ & Hvalid).
  split; [exists q1, q2; auto|].
  intros r1 r2 Hr1 Hr2 E1 E2.
  assert (r1 = q1) by (apply (@id_inj students_info Hnd); congruence).
  assert (r2 = q2) by (apply (@id_inj students_info Hnd); congruence).
  subst r1 r2. apply valid_edge_spec in Hvalid.
  destruct Hvalid as [[Ha|Ha] [Hb|Hb]]; split; intros Hf; congruence.
Qed.

(** C5. For every input with pairwise-distinct ids, no id appears in more
    than one pair of the output, across all partitions: the ids of the
    output pairs, listed pair after pair, are pairwise distinct. *)
Theorem matched_pairs_unique :
  forall (S : Type) (PS : PySet S) students_info fuel,
    NoDup (map student_id students_info) ->
    msp_fuel students_info <= fuel ->
    exists out,
      match_student_pairs fuel students_info = Ok out /\
      NoDup (ids_of out).
Proof.
  intros S PS students_info fuel Hnd Hfuel.
  destruct (@match_student_pairs_spec S PS students_info Hnd fuel Hfuel)
    as (out & P & Hrun & Hinv & _).
  exists out. split; [exact Hrun|apply (pi_nodup Hinv)].
Qed.

(** C10. For every input with pairwise-distinct ids, if for groups
    [A <> B] there is a flexible request from [A] to [B] and a flexible
    request from [B] to [A], the output contains a pair joining a request
    from [A] to [B] with a request from [B] to [A]. *)
Theorem flexible_requests_matched :
  forall (S : Type) (PS : PySet S) students_info fuel A B rA rB,
    NoDup (map student_id students_info) ->
    msp_fuel students_info <= fuel ->
    A <> B ->
    In rA students_info -> In rB students_info ->
    accept_swap rA = true -> accept_swap rB = true ->
    current_group rA = A -> desired_group rA = B ->
    current_group rB = B -> desired_group rB = A ->
    exists out,
      match_student_pairs fuel students_info = Ok out /\
      exists s1 s2 r1 r2,
        In (s1, s2) out /\
        In r1 students_info /\ In r2 students_info /\
        current_group r1 = A /\ desired_group r1 = B /\
        current_group r2 = B /\ desired_group r2 = A /\
        ((s1 = student_id r1 /\ s2 = student_id r2) \/
         (s1 = student_id r2 /\ s2 = student_id r1)).
Proof.
  intros S PS students_info fuel A B rA rB Hnd Hfuel HAB HrA HrB HfA HfB
         HcA HdA HcB HdB.
  destruct (@match_student_pairs_spec S PS students_info Hnd fuel Hfuel)
    as (out & P & Hrun & Hinv & Hall).
  exists out. split; [exact Hrun|].
  assert (HpA : in_part (A, B) rA = true).
  { apply in_part_spec. unfold key_of. rewrite HcA, HdA. auto. }
  assert (HpB : in_part (reverse_key (A, B)) rB = true).
  { apply in_part_spec. unfold key_of, reverse_key. rewrite HcB, HdB. auto. }
  assert (Hsp : swap_pair students_info (A, B) (student_id rA) (student_id rB)).
  { exists rA, rB.
    split; [exact HrA|]. split; [exact HrB|]. split; [reflexivity|].
    split; [reflexivity|]. split; [exact HpA|]. split; [exact HpB|].
    apply valid_edge_spec. split; left; assumption. }
  assert (Hkey : In (A, B) (map fst (swaps_of students_info))).
  { apply swaps_keys. exists rA. auto. }
  destruct (pi_nonempty Hinv (Hall _ Hkey) Hsp) as (a' & b' & Hin & Hsw).
  assert (Hgroups : forall r1 r2,
             in_part (A, B) r1 = true -> in_part (reverse_key (A, B)) r2 = true ->
             current_group r1 = A /\ desired_group r1 = B /\
             current_group r2 = B /\ desired_group r2 = A).
  { intros r1 r2 H1 H2. apply in_part_spec in H1. apply in_part_spec in H2.
    destruct H1 as [_ H1]. destruct H2 as [_ H2].
    unfold key_of, reverse_key in H1, H2. simpl in H2.
    injection H1 as E1 E2. injection H2 as E3 E4. auto. }
  destruct Hsw as [(r1 & r2 & H1 & H2 & H3 & H4 & H5 & H6 & _)|
                   (r1 & r2 & H1 & H2 & H3 & H4 & H5 & H6 & _)];
    exists a', b', r1, r2; destruct (Hgroups r1 r2 H5 H6) as (G1 & G2 & G3 & G4);
    repeat (split; [assumption|]); [left|right]; auto.
Qed.

(** C2 (amended). [match_student_pairs] validates nothing: for every input
    with pairwise-distinct ids that contains a non-flexible request whose
    partner is absent, the run returns its list of pairs without error,
    and that request is in none of them. *)
Theorem missing_partner_not_validated :
  forall (S : Type) (PS : PySet S) students_info fuel r,
    NoDup (map student_id students_info) ->
    msp_fuel students_info <= fuel ->
    In r students_info ->
    accept_swap r = false -> teammate_id r = None ->
    exists out,
      match_student_pairs fuel students_info = Ok out /\
      ~ In (student_id r) (ids_of out).
Proof.
  intros S PS students_info fuel r Hnd Hfuel Hr Hacc Hteam.
  destruct (@match_student_pairs_spec S PS students_info Hnd fuel Hfuel)
    as (out & P & Hrun & Hinv & _).
  exists out. split; [exact Hrun|]. intros Hin.
  apply ids_of_in in Hin. destruct Hin as (a & b & Hab & Hx).
  destruct (pairs_inv_records S PS students_info P out a b Hinv Hab)
    as (q1 & q2 & Hq1 & Hq2 & Hid1 & Hid2 & _ & _ & Hvalid).
  apply valid_edge_spec in Hvalid. destruct Hvalid as [Hv1 Hv2].
  destruct Hx as [Hx|Hx].
  - assert (r = q1) by (apply (@id_inj students_info Hnd); congruence).
    subst q1. destruct Hv1; congruence.
  - assert (r = q2) by (apply (@id_inj students_info Hnd); congruence).
    subst q2. destruct Hv2; congruence.
Qed.

(** C7. Two runs of [match_student_pairs] on the same input sequence give
    the same output sequence, whatever the implementation of the set
    [processed_pairs] and whatever fuel the runs were given; and the
    matching chosen by [hopcroft_karp] is determined by the list of left
    nodes and the adjacency list of each of them. *)
Theorem match_student_pairs_deterministic :
  (forall (S1 : Type) (PS1 : PySet S1) (S2 : Type) (PS2 : PySet S2)
          students_info fuel1 fuel2 out1 out2,
      match_student_pairs (S := S1) fuel1 students_info = Ok out1 ->
      match_student_pairs (S := S2) fuel2 students_info = Ok out2 ->
      out1 = out2) /\
  (forall g1 g2 left_nodes fuel,
      (forall u, In u left_nodes ->
                 graph_getitem g1 (Some u) = graph_getitem g2 (Some u)) ->
      hopcroft_karp g1 left_nodes fuel = hopcroft_karp g2 left_nodes fuel).
Proof.
  split.
  - intros S1 PS1 S2 PS2 students_info fuel1 fuel2 out1 out2 H1 H2.
    apply (match_student_pairs_indep S1 PS1 S2 PS2 fuel1 (Nat.max fuel1 fuel2))
      in H1; [|lia].
    apply (match_student_pairs_indep S2 PS2 S2 PS2 fuel2 (Nat.max fuel1 fuel2))
      in H2; [|lia].
    congruence.
  - intros g1 g2 left_nodes fuel Hagree. apply hopcroft_karp_ext. exact Hagree.
Qed.

Lemma partition_fold_fst : forall l st st',
    fst st = fst st' ->
    fst (fold_left partition_step l st) = fst (fold_left partition_step l st').
Proof.
  induction l as [|r l IH]; intros st st' E; simpl; [exact E|].
  apply IH. rewrite !partition_step_swaps, E. reflexivity.
Qed.

(** C8. A request whose current group equals its desired group is dropped
    before partitioning: the run on the input with the request equals the
    run on the input without it, so it causes no error and contributes no
    pair; with pairwise-distinct ids its id is in no output pair. *)
Theorem satisfied_request_excluded :
  forall (S : Type) (PS : PySet S) fuel before r after,
    current_group r = desired_group r ->
    match_student_pairs fuel (before ++ r :: after)
    = match_student_pairs fuel (before ++ after) /\
    (NoDup (map student_id (before ++ r :: after)) ->
     msp_fuel (before ++ r :: after) <= fuel ->
     exists out,
       match_student_pairs fuel (before ++ r :: after) = Ok out /\
       ~ In (student_id r) (ids_of out)).
Proof.
  intros S PS fuel before r after Hsame. split.
  - rewrite !match_student_pairs_unfold.
    assert (E : swaps_of (before ++ r :: after) = swaps_of (before ++ after)).
    { unfold swaps_of, partition. rewrite !fold_left_app. simpl.
      apply partition_fold_fst. rewrite partition_step_swaps.
      unfold active. rewrite Hsame, String.eqb_refl. reflexivity. }
    rewrite E. reflexivity.
  - intros Hnd Hfuel.
    destruct (@match_student_pairs_spec S PS _ Hnd fuel Hfuel)
      as (out & P & Hrun & Hinv & _).
    exists out. split; [exact Hrun|]. intros Hin.
    apply ids_of_in in Hin. destruct Hin as (a & b & Hab & Hx).
    destruct (pairs_inv_records S PS _ P out a b Hinv Hab)
      as (q1 & q2 & Hq1 & Hq2 & Hid1 & Hid2 & Hne & Hkey & _).
    assert (Hr : In r (before ++ r :: after))
      by (apply in_app_iff; right; left; reflexivity).
    destruct Hx as [Hx|Hx].
    + assert (r = q1) by (apply (@id_inj _ Hnd); congruence).
      subst q1. contradiction.
    + assert (r = q2) by (apply (@id_inj _ Hnd); congruence).
      subst q2. unfold key_of, reverse_key in Hkey. simpl in Hkey.
      injection Hkey as E1 E2. apply Hne. congruence.
Qed.

Lemma sorted_pair_le : forall a b,
    (a <= b)%Z -> sorted_pair (a, b) = (a, b) /\ sorted_pair (b, a) = (a, b).
Proof.
  intros a b Hle. unfold sorted_pair. split.
  - destruct (Z.ltb b a) eqn:E; [|reflexivity].
    apply Z.ltb_lt in E. lia.
  - destruct (Z.ltb a b) eqn:E; [reflexivity|].
    apply Z.ltb_ge in E. assert (a = b) by lia. subst. reflexivity.
Qed.

(** C9. Every pair emitted by [match_student_pairs] is in sorted order of
    its two ids, the smaller first, and it is the pair [sorted] builds
    from its two ids in either order: the report does not depend on which
    request was on the left side. *)
Theorem pairs_canonical_order :
  forall (S : Type) (PS : PySet S) fuel students_info out,
    match_student_pairs fuel students_info = Ok out ->
    forall a b,
      In (a, b) out ->
      (a <= b)%Z /\ sorted_pair (a, b) = (a, b) /\ sorted_pair (b, a) = (a, b).
Proof.
  intros S PS fuel students_info out Hrun a b Hin.
  rewrite match_student_pairs_unfold in Hrun.
  assert (Hle : (a <= b)%Z).
  { apply (pairs_loop_sorted S PS _ _ _ _ _ _ Hrun); [|exact Hin].
    intros a0 b0 []. }
  split; [exact Hle|apply sorted_pair_le; exact Hle].
Qed.

(* ================================================================== *)
(** ** Concrete runs *)

Open Scope Z_scope.
Open Scope string_scope.

(** The requests of the scenarios, in one input. *)
Definition example_students : list student :=
  [ mk_student 1 "G1" "G2" true None;
    mk_student 2 "G2" "G1" true None;
    mk_student 3 "G1" "G2" false (Some 4);
    mk_student 4 "G2" "G1" false (Some 3);
    mk_student 5 "G1" "G2" false (Some 6);
    mk_student 6 "G2" "G3" true None;
    mk_student 7 "G1" "G1" true None;
    mk_student 8 "G1" "G2" false None ].

Close Scope string_scope.
Close Scope Z_scope.

(** A second implementation of [processed_pairs]: new keys go last. *)
Definition SnocSet : PySet (list gkey).
Proof.
  refine {| set_empty := [];
            set_add := fun s k => s ++ [k];
            set_mem := fun s k => existsb (gkey_eqb k) s |}.
  - reflexivity.
  - intros s k k'. rewrite existsb_app. simpl. rewrite orb_false_r.
    assert (E : gkey_eqb k' k = gkey_eqb k k').
    { unfold gkey_eqb.
      rewrite (String.eqb_sym (fst k')), (String.eqb_sym (snd k')).
      reflexivity. }
    rewrite E. apply orb_comm.
Defined.

Open Scope string_scope.

Lemma example_students_nodup : NoDup (map student_id example_students).
Proof.
  unfold example_students. simpl.
  repeat constructor; simpl; intros H;
    repeat (destruct H as [H|H]; [discriminate|]); exact H.
Defined.

Lemma example_students_fuel : msp_fuel example_students <= 19.
Proof. vm_compute. lia. Defined.

(** C2: the input of the validation scenario is answered with the empty
    list of pairs; no error is raised. *)
Lemma scenario5_returns_normally :
  match_student_pairs (S := list gkey) (PS := ListSet) 5
    [mk_student 8 "G1" "G2" false None] = Ok [].
Proof. vm_compute. reflexivity. Qed.

(** The scenarios of two flexible requests, of two requests that name each
    other, of a named partner outside the reverse partition, and of a
    request that is already satisfied. *)
Example scenario1 :
  match_student_pairs (S := list gkey) (PS := ListSet) 7
    [mk_student 1 "G1" "G2" true None; mk_student 2 "G2" "G1" true None]
  = Ok [(1, 2)%Z].
Proof. vm_compute. reflexivity. Qed.

Example scenario2 :
  match_student_pairs (S := list gkey) (PS := ListSet) 7
    [mk_student 3 "G1" "G2" false (Some 4%Z);
     mk_student 4 "G2" "G1" false (Some 3%Z)]
  = Ok [(3, 4)%Z].
Proof. vm_compute. reflexivity. Qed.

Example scenario3 :
  match_student_pairs (S := list gkey) (PS := ListSet) 7
    [mk_student 5 "G1" "G2" false (Some 6%Z); mk_student 6 "G2" "G3" true None]
  = Ok [].
Proof. vm_compute. reflexivity. Qed.

Example scenario4 :
  match_student_pairs (S := list gkey) (PS := ListSet) 5
    [mk_student 7 "G1" "G1" true None]
  = Ok [].
Proof. vm_compute. reflexivity. Qed.

Lemma missing_partner_not_validated_witness :
  exists out,
    match_student_pairs (S := list gkey) (PS := ListSet) 19 example_students
    = Ok out /\
    ~ In 8%Z (ids_of out).
Proof.
  apply (missing_partner_not_validated (list gkey) ListSet example_students 19
           (mk_student 8 "G1" "G2" false None)
           example_students_nodup example_students_fuel).
  - simpl. tauto.
  - reflexivity.
  - reflexivity.
Defined.

Lemma matched_pairs_valid_witness :
  exists out,
    match_student_pairs (S := list gkey) (PS := ListSet) 19 example_students
    = Ok out /\
    forall s1 s2,
      In (s1, s2) out ->
      (exists r1 r2, In r1 example_students /\ In r2 example_students /\
                     student_id r1 = s1 /\ student_id r2 = s2) /\
      forall r1 r2,
        In r1 example_students -> In r2 example_students ->
        student_id r1 = s1 -> student_id r2 = s2 ->
        current_group r1 = desired_group r2 /\
        current_group r2 = desired_group r1.
Proof.
  apply (matched_pairs_valid (list gkey) ListSet example_students 19
           example_students_nodup example_students_fuel).
Defined.

Lemma matched_pairs_consent_witness :
  exists out,
    match_student_pairs (S := list gkey) (PS := ListSet) 19 example_students
    = Ok out /\
    forall s1 s2,
      In (s1, s2) out ->
      (exists r1 r2, In r1 example_students /\ In r2 example_students /\
                     student_id r1 = s1 /\ student_id r2 = s2) /\
      forall r1 r2,
        In r1 example_students -> In r2 example_students ->
        student_id r1 = s1 -> student_id r2 = s2 ->
        (accept_swap r1 = false -> teammate_id r1 = Some s2) /\
        (accept_swap r2 = false -> teammate_id r2 = Some s1).
Proof.
  apply (matched_pairs_consent (list gkey) ListSet example_students 19
           example_students_nodup example_students_fuel).
Defined.

Lemma matched_pairs_unique_witness :
  exists out,
    match_student_pairs (S := list gkey) (PS := ListSet) 19 example_students
    = Ok out /\
    NoDup (ids_of out).
Proof.
  apply (matched_pairs_unique (list gkey) ListSet example_students 19
           example_students_nodup example_students_fuel).
Defined.

Lemma flexible_requests_matched_witness :
  exists out,
    match_student_pairs (S := list gkey) (PS := ListSet) 19 example_students
    = Ok out /\
    exists s1 s2 r1 r2,
      In (s1, s2) out /\
      In r1 example_students /\ In r2 example_students /\
      current_group r1 = "G1"%string /\ desired_group r1 = "G2"%string /\
      current_group r2 = "G2"%string /\ desired_group r2 = "G1"%string /\
      ((s1 = student_id r1 /\ s2 = student_id r2) \/
       (s1 = student_id r2 /\ s2 = student_id r1)).
Proof.
  apply (flexible_requests_matched (list gkey) ListSet example_students 19
           "G1"%string "G2"%string
           (mk_student 1 "G1" "G2" true None)
           (mk_student 2 "G2" "G1" true None)
           example_students_nodup example_students_fuel).
  - discriminate.
  - simpl. tauto.
  - simpl. tauto.
  - reflexivity.
  - reflexivity.
  - reflexivity.
  - reflexivity.
  - reflexivity.
  - reflexivity.
Defined.

Lemma match_student_pairs_deterministic_witness :
  exists out1 out2,
    match_student_pairs (S := list gkey) (PS := ListSet) 19 example_students
    = Ok out1 /\
    match_student_pairs (S := list gkey) (PS := SnocSet) 40 example_students
    = Ok out2 /\
    out1 = out2 /\
    hopcroft_karp example_graph example_left 9
    = hopcroft_karp
        (DefaultDict [(3, [11; 12]); (7, [10]); (1, [10; 11]); (2, [10])]%Z)
        example_left 9.
Proof.
  exists [(1, 2); (3, 4)]%Z, [(1, 2); (3, 4)]%Z.
  assert (H1 : match_student_pairs (S := list gkey) (PS := ListSet) 19
                 example_students = Ok [(1, 2); (3, 4)]%Z)
    by (vm_compute; reflexivity).
  assert (H2 : match_student_pairs (S := list gkey) (PS := SnocSet) 40
                 example_students = Ok [(1, 2); (3, 4)]%Z)
    by (vm_compute; reflexivity).
  split; [exact H1|]. split; [exact H2|]. split.
  - apply (proj1 match_student_pairs_deterministic
                 (list gkey) ListSet (list gkey) SnocSet
                 example_students 19 40 _ _ H1 H2).
  - apply (proj2 match_student_pairs_deterministic).
    intros u Hu. simpl in Hu.
    destruct Hu as [<-|[<-|[<-|[]]]]; reflexivity.
Defined.

Lemma satisfied_request_excluded_witness :
  match_student_pairs (S := list gkey) (PS := ListSet) 19 example_students
  = match_student_pairs (S := list gkey) (PS := ListSet) 19
      (firstn 6 example_students ++ skipn 7 example_students)%list /\
  exists out,
    match_student_pairs (S := list gkey) (PS := ListSet) 19 example_students
    = Ok out /\
    ~ In 7%Z (ids_of out).
Proof.
  destruct (satisfied_request_excluded (list gkey) ListSet 19
              (firstn 6 example_students)
              (mk_student 7 "G1" "G1" true None)
              (skipn 7 example_students) eq_refl) as [H1 H2].
  split; [exact H1|].
  apply H2; [exact example_students_nodup|exact example_students_fuel].
Defined.

Lemma pairs_canonical_order_witness :
  match_student_pairs (S := list gkey) (PS := ListSet) 19 example_students
  = Ok [(1, 2); (3, 4)]%Z /\
  (3 <= 4)%Z /\
  sorted_pair (3, 4)%Z = (3, 4)%Z /\ sorted_pair (4, 3)%Z = (3, 4)%Z.
Proof.
  assert (H : match_student_pairs (S := list gkey) (PS := ListSet) 19
                example_students = Ok [(1, 2); (3, 4)]%Z)
    by (vm_compute; reflexivity).
  split; [exact H|].
  apply (pairs_canonical_order (list gkey) ListSet 19 example_students _ H).
  simpl. tauto.
Defined.

Close Scope string_scope.

(* ================================================================== *)
(** ** The hypotheses on the input of [hopcroft_karp] are needed *)

(** A left node without an entry in a plain [dict] makes [graph[u]] fail. *)
Example missing_adjacency_fails :
  hopcroft_karp (Dict [(1, [10])]%Z) [1; 2]%Z 7 = KeyError.
Proof. vm_compute. reflexivity. Qed.

(** A left node listed twice: after its first [dfs] fails in the second
    round, its distance is [INF]; the second [dfs] on it then accepts the
    partner of its neighbour, whose distance is [INF] too, and [dfs] calls
    itself on that partner until the stack is full. *)
Definition dup_graph : pygraph :=
  Dict [(1, [10]); (2, [20; 30]); (3, [10]); (4, [20])]%Z.

Definition dup_left : list Z := [1; 2; 3; 3; 4]%Z.

(** After the first [bfs]. *)
Definition dup_s1 : hk_state :=
  Eval vm_compute in state_of (bfs dup_graph dup_left 13 hk_init).

(** After the first round: 1 and 2 are matched, 3 and 4 are not. *)
Definition dup_s2 : hk_state :=
  Eval vm_compute in
    match dfs_phase dup_graph 13 dup_left dup_s1 with Ok s => s | _ => hk_init end.

(** After the second [bfs]. *)
Definition dup_s3 : hk_state :=
  Eval vm_compute in state_of (bfs dup_graph dup_left 13 dup_s2).

(** After the first [dfs(3)] of the second round has failed. *)
Definition dup_s4 : hk_state :=
  Eval vm_compute in state_of (dfs dup_graph 13 (Some 3%Z) dup_s3).

Lemma dup_dfs1_loops : forall depth,
    dfs dup_graph depth (Some 1%Z) dup_s4 = RecursionError.
Proof.
  induction depth as [|depth IH]; [reflexivity|].
  simpl. rewrite IH. reflexivity.
Qed.

Lemma dup_dfs3_loops : forall depth,
    dfs dup_graph depth (Some 3%Z) dup_s4 = RecursionError.
Proof.
  destruct depth as [|depth]; [reflexivity|].
  simpl. rewrite dup_dfs1_loops. reflexivity.
Qed.

Lemma dup_round1_bfs : bfs dup_graph dup_left 13 hk_init = Ok (true, dup_s1).
Proof. vm_compute. reflexivity. Qed.

Lemma dup_round1_dfs : dfs_phase dup_graph 13 dup_left dup_s1 = Ok dup_s2.
Proof. vm_compute. reflexivity. Qed.

Lemma dup_round2_bfs : bfs dup_graph dup_left 13 dup_s2 = Ok (true, dup_s3).
Proof. vm_compute. reflexivity. Qed.

Lemma dup_round2_dfs3 : dfs dup_graph 13 (Some 3%Z) dup_s3 = Ok (false, dup_s4).
Proof. vm_compute. reflexivity. Qed.

Lemma dup_round2_dfs : forall depth,
    13 <= depth -> dfs_phase dup_graph depth dup_left dup_s3 = RecursionError.
Proof.
  intros depth Hle.
  change (dfs_phase dup_graph depth dup_left dup_s3)
    with (bind (dfs dup_graph depth (Some 3%Z) dup_s3)
               (fun r => let '(found, s') := r in
                  if found then
                    dfs_phase dup_graph depth [3; 4]%Z
                      (mk_state (match_left s') (match_right s') (dist s')
                                (matching_size s' + 1))
                  else dfs_phase dup_graph depth [3; 4]%Z s')).
  rewrite (dfs_mono _ _ _ _ _ _ dup_round2_dfs3 Hle). simpl.
  rewrite dup_dfs3_loops. reflexivity.
Qed.

Lemma hk_while_unfold : forall graph left_nodes rounds fuel s,
    hk_while graph left_nodes (S rounds) fuel s
    = (' (again, s1) <- bfs graph left_nodes fuel s ;;
       if again then
         s2 <- dfs_phase graph fuel left_nodes s1 ;;
         hk_while graph left_nodes rounds fuel s2
       else Ok s1).
Proof. reflexivity. Qed.

Lemma hk_while_limit_unfold : forall graph left_nodes limit rounds fuel s,
    hk_while_limit graph left_nodes limit (S rounds) fuel s
    = (' (again, s1) <- bfs graph left_nodes fuel s ;;
       if again then
         s2 <- dfs_phase graph limit left_nodes s1 ;;
         hk_while_limit graph left_nodes limit rounds fuel s2
       else Ok s1).
Proof. reflexivity. Qed.

Lemma bind_Ok : forall (A B : Type) (a : A) (k : A -> result B),
    bind (Ok a) k = k a.
Proof. reflexivity. Qed.

(** The first round needs two frames, the second round overflows whatever
    the room on the stack. *)
Lemma dup_dfs_overflows : forall limit,
    dfs_phase dup_graph limit dup_left dup_s1 = RecursionError \/
    (dfs_phase dup_graph limit dup_left dup_s1 = Ok dup_s2 /\
     dfs_phase dup_graph limit dup_left dup_s3 = RecursionError).
Proof.
  intros limit. destruct (Nat.le_gt_cases 13 limit) as [Hle|Hlt].
  - right. split.
    + apply (dfs_phase_mono _ _ _ _ _ _ dup_round1_dfs Hle).
    + apply dup_round2_dfs. exact Hle.
  - do 13 (destruct limit as [|limit];
           [vm_compute; first [left; reflexivity | right; split; reflexivity]|]).
    lia.
Qed.

Lemma repeated_left_node_overflows : forall limit fuel,
    13 <= fuel ->
    hopcroft_karp_limit dup_graph dup_left limit fuel = RecursionError.
Proof.
  intros limit fuel Hle. unfold hopcroft_karp_limit.
  assert (Hw : forall rounds, 2 <= rounds ->
                 hk_while_limit dup_graph dup_left limit rounds fuel hk_init
                 = RecursionError).
  { intros [|[|rounds]] Hr; [lia|lia|].
    rewrite hk_while_limit_unfold.
    rewrite (bfs_mono _ _ _ _ _ _ dup_round1_bfs Hle), bind_Ok.
    cbv beta iota.
    destruct (dup_dfs_overflows limit) as [H1|[H1 H2]].
    - rewrite H1. reflexivity.
    - rewrite H1, bind_Ok.
      rewrite hk_while_limit_unfold.
      rewrite (bfs_mono _ _ _ _ _ _ dup_round2_bfs Hle), bind_Ok.
      cbv beta iota.
      rewrite H2. reflexivity. }
  rewrite Hw by lia. reflexivity.
Qed.

(* ================================================================== *)
(** ** Further properties of [dfs] and of the main loop *)

Lemma dict_mem_set_keep : forall (d : list (Z * Z)) k v a,
    dict_mem Z.eqb d a = true -> dict_mem Z.eqb (dict_set Z.eqb d k v) a = true.
Proof.
  intros d k v a H. unfold dict_mem in *.
  rewrite (dict_get_set Z.eqb Z.eqb_eq). destruct (Z.eqb k a); [reflexivity|exact H].
Qed.

(** What one call of [dfs] may change, whatever the state it starts in. *)
Definition dfs_effect (s : hk_state) (found : bool) (s' : hk_state) : Prop :=
  dist_mono (dist s) (dist s') /\
  matching_size s' = matching_size s /\
  (forall a, dict_mem Z.eqb (match_left s) a = true ->
             dict_mem Z.eqb (match_left s') a = true) /\
  (found = false ->
   match_left s' = match_left s /\ match_right s' = match_right s).

Lemma dfs_effect_refl : forall s found, found = true -> dfs_effect s found s.
Proof.
  intros s found ->. unfold dfs_effect.
  split; [apply dist_mono_refl|]. split; [reflexivity|]. split; [auto|].
  discriminate.
Qed.

Lemma dfs_scan_effect :
  forall (rec : option Z -> hk_state -> result (bool * hk_state)),
    (forall u s found s', rec u s = Ok (found, s') -> dfs_effect s found s') ->
    forall vs x s found s',
      dfs_scan rec x vs s = Ok (found, s') -> dfs_effect s found s'.
Proof.
  intros rec Hrec. induction vs as [|v vs IH]; intros x s found s' H; simpl in H.
  - inversion H; subst. unfold dfs_effect. simpl.
    split; [apply dist_mono_set_INF|]. split; [reflexivity|]. split; auto.
  - apply bind_ok in H. destruct H as (du & _ & H).
    destruct (dval_eqb (dist_get (dist s) (dict_get Z.eqb (match_right s) v))
                       (dval_succ du)); [|eapply IH; exact H].
    apply bind_ok in H. destruct H as ([f1 s1] & H1 & H).
    apply Hrec in H1. destruct H1 as (Hm1 & Hs1 & Hk1 & Hf1).
    destruct f1.
    + inversion H; subst. unfold dfs_effect. simpl.
      split; [exact Hm1|]. split; [exact Hs1|]. split; [|discriminate].
      intros a Ha. apply dict_mem_set_keep. apply Hk1. exact Ha.
    + destruct (Hf1 eq_refl) as [Hml Hmr].
      apply IH in H. destruct H as (Hm2 & Hs2 & Hk2 & Hf2).
      unfold dfs_effect.
      split; [eapply dist_mono_trans; eauto|]. split; [congruence|].
      split; [intros a Ha; apply Hk2, Hk1, Ha|].
      intros E. destruct (Hf2 E). split; congruence.
Qed.

Lemma dfs_has_effect : forall graph fuel u s found s',
    dfs graph fuel u s = Ok (found, s') -> dfs_effect s found s'.
Proof.
  intros graph. induction fuel as [|fuel IH]; intros u s found s' H; simpl in H;
    [discriminate|].
  destruct u as [x|].
  - apply bind_ok in H. destruct H as (adj & _ & H).
    eapply dfs_scan_effect; [|exact H]. exact IH.
  - inversion H; subst. apply dfs_effect_refl. reflexivity.
Qed.

Lemma dfs_phase_keeps : forall graph fuel us s s',
    dfs_phase graph fuel us s = Ok s' ->
    (forall a, dict_mem Z.eqb (match_left s) a = true ->
               dict_mem Z.eqb (match_left s') a = true) /\
    matching_size s <= matching_size s'.
Proof.
  intros graph fuel us. induction us as [|u us IH]; intros s s' H; simpl in H.
  - inversion H; subst. auto.
  - destruct (dict_mem Z.eqb (match_left s) u); [apply IH; exact H|].
    apply bind_ok in H. destruct H as ([found s1] & H1 & H).
    apply dfs_has_effect in H1. destruct H1 as (_ & Hs1 & Hk1 & _).
    destruct found; apply IH in H; simpl in H; destruct H as [Hk Hs];
      (split; [intros a Ha; apply Hk, Hk1, Ha|lia]).
Qed.

Lemma bfs_keeps : forall graph left_nodes fuel s again s',
    bfs graph left_nodes fuel s = Ok (again, s') ->
    match_left s' = match_left s /\ match_right s' = match_right s /\
    matching_size s' = matching_size s.
Proof.
  intros graph left_nodes fuel s again s' H. unfold bfs in H.
  destruct (bfs_init left_nodes (match_left s) (dist s) []) as [d0 q0].
  apply bind_ok in H. destruct H as (d2 & _ & H).
  apply bind_ok in H. destruct H as (dn & _ & H).
  inversion H; subst. simpl. auto.
Qed.

(** X3. A call of [dfs] that returns [False] leaves [match_left],
    [match_right] and [matching_size] as they were, and every distance is
    either unchanged or reset to [INF]; this holds in every state and for
    every graph. *)
Theorem dfs_failure_keeps_matching : forall graph fuel u s s',
    dfs graph fuel u s = Ok (false, s') ->
    match_left s' = match_left s /\
    match_right s' = match_right s /\
    matching_size s' = matching_size s /\
    forall a, dist_get (dist s') a = dist_get (dist s) a \/
              dist_get (dist s') a = INF.
Proof.
  intros graph fuel u s s' H. apply dfs_has_effect in H.
  destruct H as (Hm & Hs & _ & Hf). destruct (Hf eq_refl) as [Hml Hmr].
  split; [exact Hml|]. split; [exact Hmr|]. split; [exact Hs|]. exact Hm.
Qed.

(** X4. Through the whole main loop a matched left node stays matched
    (possibly to another right node) and [matching_size] never decreases,
    in every state and for every graph. *)
Theorem matched_left_nodes_stay_matched :
  forall graph left_nodes rounds fuel s s',
    hk_while graph left_nodes rounds fuel s = Ok s' ->
    (forall u, dict_mem Z.eqb (match_left s) u = true ->
               dict_mem Z.eqb (match_left s') u = true) /\
    matching_size s <= matching_size s'.
Proof.
  intros graph left_nodes. induction rounds as [|rounds IH];
    intros fuel s s' H; simpl in H; [discriminate|].
  apply bind_ok in H. destruct H as ([again s1] & H1 & H).
  apply bfs_keeps in H1. destruct H1 as (Hml & _ & Hsz).
  destruct again.
  - apply bind_ok in H. destruct H as (s2 & H2 & H).
    apply dfs_phase_keeps in H2. destruct H2 as [Hk2 Hs2].
    apply IH in H. destruct H as [Hk Hs].
    split; [|lia]. intros u Hu. apply Hk, Hk2. rewrite Hml. exact Hu.
  - inversion H; subst. split; [|lia]. intros u Hu. rewrite Hml. exact Hu.
Qed.

(** X5. In every state in which the main loop calls [bfs], [bfs] returns,
    and it returns [False] exactly when the current matching is already of
    maximum size (so [True] exactly when a larger matching exists). *)
Theorem bfs_false_iff_maximum : forall graph left_nodes fuel s,
    (forall u, In u left_nodes ->
               exists adj, graph_getitem graph (Some u) = Ok adj) ->
    NoDup left_nodes ->
    hk_fuel left_nodes <= fuel ->
    hk_reachable graph left_nodes fuel s ->
    exists again s1,
      bfs graph left_nodes fuel s = Ok (again, s1) /\
      (again = false <->
       forall m, is_matching graph left_nodes m ->
                 List.length m <= List.length (match_left s)).
Proof.
  intros graph left_nodes fuel s Htot Hnd Hfuel Hr. unfold hk_fuel in Hfuel.
  assert (Hfuel' : 2 * List.length left_nodes + 2 <= fuel) by lia.
  pose proof (hk_reachable_inv graph left_nodes fuel s Htot Hnd Hfuel' Hr) as Hinv.
  destruct (@hk_round graph left_nodes Htot Hnd fuel s Hinv Hfuel')
    as (again & s1 & Hrun & Hpost).
  exists again, s1. split; [exact Hrun|]. destruct again.
  - destruct Hpost as (s2 & _ & Hinv2 & Hlt). split; [discriminate|].
    intros Hmax. specialize (Hmax _ (hk_inv_matching Hinv2)). lia.
  - destruct Hpost as [Hfin Hml]. split; [|reflexivity].
    intros _ m Hm. rewrite <- Hml. apply (hk_final_maximum Hfin Hm).
Qed.

(** X6. When [hopcroft_karp] returns, the counter [matching_size], which
    is not returned, equals the number of entries of the returned
    [match_left], and [match_right] is the inverse mapping of
    [match_left]. *)
Theorem matching_size_counts_result : forall graph left_nodes fuel,
    (forall u, In u left_nodes ->
               exists adj, graph_getitem graph (Some u) = Ok adj) ->
    NoDup left_nodes ->
    hk_fuel left_nodes <= fuel ->
    exists s,
      hk_while graph left_nodes fuel fuel hk_init = Ok s /\
      hopcroft_karp graph left_nodes fuel = Ok (match_left s) /\
      matching_size s = List.length (match_left s) /\
      forall u v, dict_get Z.eqb (match_left s) u = Some v
                  <-> dict_get Z.eqb (match_right s) v = Some u.
Proof.
  intros graph left_nodes fuel Htot Hnd Hfuel.
  destruct (@hopcroft_karp_correct graph left_nodes fuel Htot Hnd Hfuel)
    as (s & Hrun & Hres & Hfin).
  exists s. split; [exact Hrun|]. split; [exact Hres|].
  pose proof (proj1 Hfin) as Hinv.
  split; [apply (inv_size Hinv)|apply (inv_sym Hinv)].
Qed.

Lemma dfs_failure_keeps_matching_witness :
  dfs dup_graph 13 (Some 3%Z) dup_s3 = Ok (false, dup_s4) /\
  match_left dup_s4 = match_left dup_s3 /\
  match_right dup_s4 = match_right dup_s3 /\
  matching_size dup_s4 = matching_size dup_s3.
Proof.
  split; [exact dup_round2_dfs3|].
  destruct (dfs_failure_keeps_matching dup_graph 13 (Some 3%Z) dup_s3 dup_s4
              dup_round2_dfs3) as (H1 & H2 & H3 & _).
  auto.
Defined.

Lemma matched_left_nodes_stay_matched_witness :
  exists s',
    hk_while example_graph example_left 9 9
      (mk_state [(1, 10)] [(10, 1)] [] 1)%Z = Ok s' /\
    dict_mem Z.eqb (match_left s') 1%Z = true /\
    1 <= matching_size s'.
Proof.
  destruct (hk_while example_graph example_left 9 9
              (mk_state [(1, 10)] [(10, 1)] [] 1)%Z) as [s'| | |] eqn:E;
    [|vm_compute in E; discriminate|vm_compute in E; discriminate
     |vm_compute in E; discriminate].
  exists s'. split; [reflexivity|].
  destruct (matched_left_nodes_stay_matched example_graph example_left 9 9
              _ s' E) as [Hk Hs].
  split; [apply Hk; reflexivity|exact Hs].
Defined.

Lemma bfs_false_iff_maximum_witness :
  exists again s1,
    bfs example_graph example_left 9 hk_init = Ok (again, s1) /\
    (again = false <->
     forall m, is_matching example_graph example_left m ->
               List.length m <= List.length (match_left hk_init)).
Proof.
  apply (bfs_false_iff_maximum example_graph example_left 9 hk_init
           example_graph_total example_left_nodup).
  - vm_compute. lia.
  - apply hk_reach_init.
Defined.

Lemma matching_size_counts_result_witness :
  exists s,
    hk_while example_graph example_left 9 9 hk_init = Ok s /\
    hopcroft_karp example_graph example_left 9 = Ok (match_left s) /\
    matching_size s = List.length (match_left s) /\
    forall u v, dict_get Z.eqb (match_left s) u = Some v
                <-> dict_get Z.eqb (match_right s) v = Some u.
Proof.
  apply (matching_size_counts_result example_graph example_left 9
           example_graph_total example_left_nodup).
  vm_compute. lia.
Defined.

(* ================================================================== *)
(** ** Further properties of the partitioning and of the graph *)

(** X1. The first loop of [match_student_pairs] stores under each key
    [(C, D)] exactly the requests going from [C] to [D] with [C <> D], in
    their input order; a key exists exactly when such a request exists, and
    no key occurs twice. *)
Theorem partition_by_direction : forall students_info k,
    dict_get_default gkey_eqb (fst (partition students_info)) k []
    = filter (in_part k) students_info /\
    (dict_mem gkey_eqb (fst (partition students_info)) k = true
     <-> exists r, In r students_info /\
                   current_group r <> desired_group r /\
                   (current_group r, desired_group r) = k) /\
    NoDup (map fst (fst (partition students_info))).
Proof.
  intros students_info k.
  split; [apply swaps_get|]. split; [|apply swaps_nodup].
  fold (swaps_of students_info). rewrite swaps_mem.
  split; intros (r & Hr & Hp); exists r; (split; [exact Hr|]);
    apply in_part_spec; exact Hp.
Qed.

Lemma edges_from_other : forall V i U,
    (forall r, In r U -> student_id r <> i) ->
    flat_map (edges_from V i) U = [].
Proof.
  intros V i. induction U as [|r U IH]; intros H; simpl; [reflexivity|].
  rewrite IH by (intros r0 Hr0; apply H; right; exact Hr0).
  unfold edges_from.
  destruct (Z.eqb (student_id r) i) eqn:E; [|reflexivity].
  apply Z.eqb_eq in E. exfalso. apply (H r); [left; reflexivity|exact E].
Qed.

Lemma edges_from_unique : forall V U ri,
    NoDup (map student_id U) -> In ri U ->
    flat_map (edges_from V (student_id ri)) U
    = map student_id (filter (valid_edge ri) V).
Proof.
  intros V. induction U as [|r U IH]; intros ri Hnd Hin; [contradiction|].
  simpl in Hnd. inversion Hnd as [|? ? Hni Hnd']; subst. simpl.
  destruct Hin as [->|Hin].
  - unfold edges_from at 1. rewrite Z.eqb_refl.
    rewrite edges_from_other; [apply app_nil_r|].
    intros r Hr E. apply Hni. rewrite <- E. apply in_map. exact Hr.
  - rewrite (IH ri Hnd' Hin). unfold edges_from.
    destruct (Z.eqb (student_id r) (student_id ri)) eqn:E; [|reflexivity].
    apply Z.eqb_eq in E. exfalso. apply Hni. rewrite E. apply in_map. exact Hin.
Qed.

(** X2. For requests [U] with pairwise-distinct ids, the graph built from
    [U] and [V] has the ids of [U] in order as left nodes, the adjacency
    list of each request of [U] holds the ids of the requests of [V] that
    consent mutually with it, in the order of [V], and any other node has
    the empty adjacency list. *)
Theorem eligibility_graph_adjacency : forall U V graph left_ids,
    NoDup (map student_id U) ->
    build_graph U V [] [] = (graph, left_ids) ->
    left_ids = map student_id U /\
    (forall ri, In ri U ->
                graph_getitem (DefaultDict graph) (Some (student_id ri))
                = Ok (map student_id (filter (valid_edge ri) V))) /\
    (forall i, ~ In i (map student_id U) ->
               graph_getitem (DefaultDict graph) (Some i) = Ok []).
Proof.
  intros U V graph left_ids Hnd H. apply build_graph_spec in H.
  destruct H as [H1 H2]. split; [exact H1|]. split.
  - intros ri Hri. simpl. rewrite H2. simpl.
    rewrite (edges_from_unique V U ri Hnd Hri). reflexivity.
  - intros i Hi. simpl. rewrite H2. simpl.
    rewrite edges_from_other; [reflexivity|].
    intros r Hr E. apply Hi. rewrite <- E. apply in_map. exact Hr.
Qed.

Lemma pairs_loop_no_reverse :
  forall (S : Type) (PS : PySet S) fuel swaps keys (P : S) acc,
    (forall k, In k keys -> dict_mem gkey_eqb swaps (reverse_key k) = false) ->
    pairs_loop fuel swaps keys P acc = Ok acc.
Proof.
  intros S PS fuel swaps keys. induction keys as [|[A B] keys IH];
    intros P acc H; simpl; [reflexivity|].
  assert (H' : forall k, In k keys ->
                         dict_mem gkey_eqb swaps (reverse_key k) = false)
    by (intros k Hk; apply H; right; exact Hk).
  destruct (set_mem P (A, B)); [apply IH; exact H'|].
  change (B, A) with (reverse_key (A, B)).
  rewrite (H (A, B)) by (left; reflexivity). simpl. apply IH. exact H'.
Qed.

(** X7. When no two requests that need a swap go in opposite directions,
    [match_student_pairs] returns the empty list without ever calling
    [hopcroft_karp]: for every input, also with repeated ids, and with any
    fuel. *)
Theorem no_opposite_requests_no_pairs :
  forall (S : Type) (PS : PySet S) fuel students_info,
    (forall r1 r2,
        In r1 students_info -> In r2 students_info ->
        current_group r1 <> desired_group r1 ->
        current_group r2 <> desired_group r2 ->
        ~ (current_group r2 = desired_group r1 /\
           desired_group r2 = current_group r1)) ->
    match_student_pairs fuel students_info = Ok [].
Proof.
  intros S PS fuel students_info H.
  rewrite match_student_pairs_unfold. apply pairs_loop_no_reverse.
  intros k Hk. apply swaps_keys in Hk. destruct Hk as (r1 & Hr1 & Hp1).
  destruct (dict_mem gkey_eqb (swaps_of students_info) (reverse_key k)) eqn:E;
    [|reflexivity].
  apply swaps_mem in E. destruct E as (r2 & Hr2 & Hp2).
  apply in_part_spec in Hp1. apply in_part_spec in Hp2.
  destruct Hp1 as [Hn1 Hk1]. destruct Hp2 as [Hn2 Hk2].
  exfalso. apply (H r1 r2 Hr1 Hr2 Hn1 Hn2).
  rewrite <- Hk1 in Hk2. unfold key_of, reverse_key in Hk2. simpl in Hk2.
  injection Hk2 as E1 E2. auto.
Qed.

(* ================================================================== *)
(** ** The output is a largest set of swaps *)

(** The ids used by a list of pairs of requests. *)
Definition plan_ids (M : list (student * student)) : list Z :=
  flat_map (fun p => [student_id (fst p); student_id (snd p)]) M.

(** A list of swaps that the requests allow: each pair joins two requests
    of the input that need a swap, go in opposite directions and consent
    to each other, and no id is used twice. *)
Definition valid_swaps (students_info : list student)
           (M : list (student * student)) : Prop :=
  (forall r1 r2,
      In (r1, r2) M ->
      In r1 students_info /\ In r2 students_info /\
      current_group r1 <> desired_group r1 /\
      current_group r2 = desired_group r1 /\
      desired_group r2 = current_group r1 /\
      valid_edge r1 r2 = true) /\
  NoDup (plan_ids M).

Lemma plan_ids_in : forall M x,
    In x (plan_ids M)
    <-> exists p, In p M /\ (x = student_id (fst p) \/ x = student_id (snd p)).
Proof.
  intros M x. unfold plan_ids. rewrite in_flat_map. split.
  - intros (p & Hp & Hx). exists p. split; [exact Hp|]. simpl in Hx.
    destruct Hx as [<-|[<-|[]]]; auto.
  - intros (p & Hp & Hx). exists p. split; [exact Hp|]. simpl.
    destruct Hx as [->| ->]; auto.
Qed.

(** Two pairs of a plan that share an id are the same pair. *)
Lemma plan_share : forall M p q x,
    NoDup (plan_ids M) -> In p M -> In q M ->
    (x = student_id (fst p) \/ x = student_id (snd p)) ->
    (x = student_id (fst q) \/ x = student_id (snd q)) ->
    p = q.
Proof.
  induction M as [|p0 M IH]; intros p q x Hnd Hp Hq Hxp Hxq; [contradiction|].
  simpl in Hnd. inversion Hnd as [|? ? Ha Hnd1]; subst.
  inversion Hnd1 as [|? ? Hb Hnd2]; subst.
  assert (Htail : forall r, In r M ->
             (x = student_id (fst r) \/ x = student_id (snd r)) ->
             (x = student_id (fst p0) \/ x = student_id (snd p0)) -> False).
  { intros r Hr Hxr Hx0.
    assert (Hin : In x (plan_ids M)) by (apply plan_ids_in; exists r; auto).
    destruct Hx0 as [E|E]; subst x.
    - apply Ha. right. exact Hin.
    - apply Hb. exact Hin. }
  destruct Hp as [<-|Hp]; destruct Hq as [<-|Hq].
  - reflexivity.
  - exfalso. eapply Htail; eauto.
  - exfalso. eapply Htail; eauto.
  - eapply IH; eauto.
Qed.

Lemma plan_nodup : forall M, NoDup (plan_ids M) -> NoDup M.
Proof.
  induction M as [|p M IH]; intros Hnd; [constructor|].
  simpl in Hnd. inversion Hnd as [|? ? Ha Hnd1]; subst.
  inversion Hnd1 as [|? ? Hb Hnd2]; subst.
  constructor; [|apply IH; exact Hnd2].
  intros Hin. apply Hb. apply plan_ids_in. exists p. auto.
Qed.

Lemma filter_orb_length : forall (A : Type) (f g : A -> bool) (l : list A),
    List.length (filter (fun x => f x || g x) l)
    <= List.length (filter f l) + List.length (filter g l).
Proof.
  intros A f g. induction l as [|a l IH]; simpl; [lia|].
  destruct (f a), (g a); simpl; lia.
Qed.

(** The matching of a partition is at least as large as any set of
    disjoint consenting pairs of that partition. *)
Lemma partition_matching_max : forall students_info fuel k graph left_ids ml m,
    NoDup (map student_id students_info) ->
    msp_fuel students_info <= fuel ->
    build_graph
      (dict_get_default gkey_eqb (swaps_of students_info) k [])
      (dict_get_default gkey_eqb (swaps_of students_info) (reverse_key k) [])
      [] [] = (graph, left_ids) ->
    hopcroft_karp (DefaultDict graph) left_ids fuel = Ok ml ->
    NoDup (map fst m) -> NoDup (map snd m) ->
    (forall u v, In (u, v) m -> swap_pair students_info k u v) ->
    List.length m <= List.length ml.
Proof.
  intros students_info fuel k graph left_ids ml m Hnd Hfuel Hbuild Hrun
         Hm1 Hm2 Hm3.
  rewrite !swaps_get in Hbuild.
  apply build_graph_edge in Hbuild. destruct Hbuild as [Hleft Hedge].
  destruct (@hopcroft_karp_correct (DefaultDict graph) left_ids fuel)
    as (s & _ & Hrun' & Hfin).
  { intros u _. simpl. eauto. }
  { subst left_ids. apply NoDup_map_filter. exact Hnd. }
  { unfold hk_fuel, msp_fuel in *. subst left_ids. rewrite length_map.
    pose proof (filter_length_le (in_part k) students_info). lia. }
  rewrite Hrun in Hrun'. inversion Hrun'; subst ml.
  apply (hk_final_maximum Hfin).
  split; [exact Hm1|]. split; [exact Hm2|].
  intros u v Hin.
  destruct (Hm3 u v Hin) as (r1 & r2 & H1 & H2 & H3 & H4 & H5 & H6 & H7).
  split.
  - subst left_ids u. apply in_map. apply filter_In. auto.
  - apply Hedge. exists r1, r2. rewrite !filter_In. tauto.
Qed.

Section PairsCount.
Context {S : Type} {PS : PySet S}.
Variable students_info : list student.
Hypothesis ids_nodup : NoDup (map student_id students_info).
Variable M : list (student * student).
Hypothesis M_valid : valid_swaps students_info M.

(** The pairs of [M] whose partition is already processed. *)
Definition counted (P : S) : list (student * student) :=
  filter (fun p => set_mem P (key_of (fst p))) M.

(** A pair of [M] read from the side of partition [k]. *)
Definition orient (k : gkey) (p : student * student) : Z * Z :=
  if gkey_eqb k (key_of (fst p))
  then (student_id (fst p), student_id (snd p))
  else (student_id (snd p), student_id (fst p)).

Lemma plan_pair_parts : forall r1 r2,
    In (r1, r2) M ->
    In r1 students_info /\ In r2 students_info /\
    in_part (key_of r1) r1 = true /\
    in_part (reverse_key (key_of r1)) r2 = true /\
    valid_edge r1 r2 = true.
Proof.
  intros r1 r2 Hin.
  destruct (proj1 M_valid r1 r2 Hin) as (H1 & H2 & H3 & H4 & H5 & H6).
  split; [exact H1|]. split; [exact H2|]. split; [|split; [|exact H6]].
  - apply in_part_spec. auto.
  - apply in_part_spec. split; [congruence|].
    unfold key_of, reverse_key. simpl. congruence.
Qed.

Lemma orient_swap_pair : forall k p,
    In p M ->
    gkey_eqb k (key_of (fst p)) || gkey_eqb (reverse_key k) (key_of (fst p)) = true ->
    swap_pair students_info k (fst (orient k p)) (snd (orient k p)).
Proof.
  intros k [r1 r2] Hin Hk. simpl in Hk.
  destruct (plan_pair_parts r1 r2 Hin) as (H1 & H2 & H3 & H4 & H5).
  unfold orient. simpl. destruct (gkey_eqb k (key_of r1)) eqn:E; simpl.
  - apply gkey_eqb_spec in E. subst k. exists r1, r2. tauto.
  - simpl in Hk. apply gkey_eqb_spec in Hk.
    assert (Ek : k = reverse_key (key_of r1)).
    { rewrite <- Hk. symmetry. apply reverse_key_involutive. }
    clear Hk E. subst k. exists r2, r1.
    rewrite valid_edge_sym, reverse_key_involutive. tauto.
Qed.

Lemma orient_ids : forall k p,
    (fst (orient k p) = student_id (fst p) \/ fst (orient k p) = student_id (snd p)) /\
    (snd (orient k p) = student_id (fst p) \/ snd (orient k p) = student_id (snd p)).
Proof.
  intros k p. unfold orient. destruct (gkey_eqb k (key_of (fst p))); simpl; auto.
Qed.

(** The pairs of [M] that belong to the partition of [k] are no more than
    the edges of a matching that is maximum for that partition. *)
Lemma plan_partition_bound : forall k (ml : list (Z * Z)),
    (forall m, NoDup (map fst m) -> NoDup (map snd m) ->
               (forall u v, In (u, v) m -> swap_pair students_info k u v) ->
               List.length m <= List.length ml) ->
    List.length
      (filter (fun p => gkey_eqb k (key_of (fst p))
                        || gkey_eqb (reverse_key k) (key_of (fst p))) M)
    <= List.length ml.
Proof.
  intros k ml Hmax.
  set (N := filter (fun p => gkey_eqb k (key_of (fst p))
                             || gkey_eqb (reverse_key k) (key_of (fst p))) M).
  assert (HN : forall p, In p N -> In p M /\
             gkey_eqb k (key_of (fst p))
             || gkey_eqb (reverse_key k) (key_of (fst p)) = true).
  { intros p Hp. apply filter_In in Hp. exact Hp. }
  assert (HndN : NoDup N).
  { apply NoDup_filter. apply plan_nodup. apply (proj2 M_valid). }
  rewrite <- (length_map (orient k) N). apply Hmax.
  - rewrite map_map. apply NoDup_map_inj_on; [exact HndN|].
    intros p q Hp Hq E.
    apply (plan_share M p q (fst (orient k p)) (proj2 M_valid));
      [apply HN, Hp|apply HN, Hq|apply orient_ids|rewrite E; apply orient_ids].
  - rewrite map_map. apply NoDup_map_inj_on; [exact HndN|].
    intros p q Hp Hq E.
    apply (plan_share M p q (snd (orient k p)) (proj2 M_valid));
      [apply HN, Hp|apply HN, Hq|apply orient_ids|rewrite E; apply orient_ids].
  - intros u v Hin. apply in_map_iff in Hin. destruct Hin as (p & E & Hp).
    destruct (HN p Hp) as [HpM Hk].
    pose proof (orient_swap_pair k p HpM Hk) as Hsw.
    rewrite E in Hsw. exact Hsw.
Qed.

Lemma pairs_loop_count : forall fuel keys (P : S) acc,
    msp_fuel students_info <= fuel ->
    (forall k, In k keys -> In k (map fst (swaps_of students_info))) ->
    pairs_inv students_info P acc ->
    List.length (counted P) <= List.length acc ->
    exists out P',
      pairs_loop fuel (swaps_of students_info) keys P acc = Ok out /\
      pairs_inv students_info P' out /\
      (forall k, In k keys -> set_mem P' k = true) /\
      (forall k, set_mem P k = true -> set_mem P' k = true) /\
      List.length (counted P') <= List.length out.
Proof.
  intros fuel keys. induction keys as [|[A B] keys IH];
    intros P acc Hfuel Hkeys Hinv Hcnt; simpl.
  - exists acc, P. split; [reflexivity|]. split; [exact Hinv|].
    split; [intros k []|]. split; [auto|exact Hcnt].
  - assert (Hkeys' : forall k, In k keys -> In k (map fst (swaps_of students_info)))
      by (intros k Hk; apply Hkeys; right; exact Hk).
    assert (HAB : In (A, B) (map fst (swaps_of students_info)))
      by (apply Hkeys; left; reflexivity).
    assert (Hstep : forall P1 acc1,
               pairs_inv students_info P1 acc1 ->
               List.length (counted P1) <= List.length acc1 ->
               set_mem P1 (A, B) = true ->
               (forall k, set_mem P k = true -> set_mem P1 k = true) ->
               exists out P',
                 pairs_loop fuel (swaps_of students_info) keys P1 acc1 = Ok out /\
                 pairs_inv students_info P' out /\
                 (forall k, (A, B) = k \/ In k keys -> set_mem P' k = true) /\
                 (forall k, set_mem P k = true -> set_mem P' k = true) /\
                 List.length (counted P') <= List.length out).
    { intros P1 acc1 Hinv1 Hcnt1 HP1 Hmono.
      destruct (IH P1 acc1 Hfuel Hkeys' Hinv1 Hcnt1)
        as (out & P' & Hrun & Hinv' & Hall & Hmono' & Hcnt').
      exists out, P'. split; [exact Hrun|]. split; [exact Hinv'|].
      split; [|split; [auto|exact Hcnt']].
      intros k [<-|Hk]; auto. }
    destruct (set_mem P (A, B)) eqn:EP.
    + apply Hstep; auto.
    + change (B, A) with (reverse_key (A, B)).
      destruct (dict_mem gkey_eqb (swaps_of students_info) (reverse_key (A, B)))
        eqn:Erev; simpl.
      * destruct (build_graph
                    (dict_get_default gkey_eqb (swaps_of students_info) (A, B) [])
                    (dict_get_default gkey_eqb (swaps_of students_info)
                                      (reverse_key (A, B)) []) [] [])
          as [graph left_ids] eqn:Ebuild.
        destruct (@partition_matching students_info ids_nodup fuel (A, B)
                    graph left_ids Hfuel HAB Ebuild)
          as (Hne & ml & Hrun & Hnd1 & Hnd2 & Hsw & Hnonempty).
        destruct left_ids as [|u0 left_ids]; [congruence|].
        rewrite Hrun. simpl.
        apply Hstep.
        -- apply pairs_inv_match; auto.
        -- rewrite length_app, length_map.
           assert (Hnew : List.length
                     (filter (fun p => gkey_eqb (A, B) (key_of (fst p))
                                       || gkey_eqb (reverse_key (A, B)) (key_of (fst p))) M)
                   <= List.length ml).
           { apply plan_partition_bound. intros m Hm1 Hm2 Hm3.
             apply (partition_matching_max students_info fuel (A, B) graph
                      (u0 :: left_ids) ml m ids_nodup Hfuel Ebuild Hrun Hm1 Hm2 Hm3). }
           assert (Hsplit : List.length
                     (counted (set_add (set_add P (A, B)) (reverse_key (A, B))))
                   <= List.length (counted P)
                      + List.length
                          (filter (fun p => gkey_eqb (A, B) (key_of (fst p))
                                            || gkey_eqb (reverse_key (A, B))
                                                        (key_of (fst p))) M)).
           { unfold counted.
             rewrite (filter_ext _
                        (fun p => set_mem P (key_of (fst p))
                                  || (gkey_eqb (A, B) (key_of (fst p))
                                      || gkey_eqb (reverse_key (A, B))
                                                  (key_of (fst p))))).
             - apply filter_orb_length.
             - intros p. rewrite !set_mem_add.
               destruct (gkey_eqb (reverse_key (A, B)) (key_of (fst p))),
                 (gkey_eqb (A, B) (key_of (fst p))),
                 (set_mem P (key_of (fst p))); reflexivity. }
           lia.
        -- rewrite !set_mem_add_true. auto.
        -- intros k Hk. rewrite !set_mem_add_true. auto.
      * apply Hstep.
        -- apply pairs_inv_skip; auto.
        -- assert (E : counted (set_add P (A, B)) = counted P).
           { unfold counted. apply filter_ext_in. intros [r1 r2] Hp.
             rewrite set_mem_add. simpl.
             destruct (gkey_eqb (A, B) (key_of r1)) eqn:Ek; [|reflexivity].
             apply gkey_eqb_spec in Ek.
             destruct (plan_pair_parts r1 r2 Hp) as (_ & H2 & _ & H4 & _).
             rewrite <- Ek in H4.
             assert (Hm : dict_mem gkey_eqb (swaps_of students_info)
                                   (reverse_key (A, B)) = true)
               by (apply swaps_mem; exists r2; auto).
             congruence. }
           rewrite E. exact Hcnt.
        -- rewrite set_mem_add_true. auto.
        -- intros k Hk. rewrite set_mem_add_true. auto.
Qed.

Lemma counted_all : forall (P : S),
    (forall k, In k (map fst (swaps_of students_info)) -> set_mem P k = true) ->
    counted P = M.
Proof.
  intros P Hall. unfold counted.
  rewrite (filter_ext_in _ (fun _ => true)).
  - assert (Hf : forall l : list (student * student),
               filter (fun _ => true) l = l).
    { induction l as [|p l IHl]; simpl; [reflexivity|]. rewrite IHl. reflexivity. }
    apply Hf.
  - intros [r1 r2] Hp. simpl.
    destruct (plan_pair_parts r1 r2 Hp) as (H1 & _ & H3 & _).
    apply Hall. apply swaps_keys. exists r1. auto.
Qed.
End PairsCount.

Lemma match_student_pairs_max :
  forall (S : Type) (PS : PySet S) students_info fuel,
    NoDup (map student_id students_info) ->
    msp_fuel students_info <= fuel ->
    exists out P,
      match_student_pairs fuel students_info = Ok out /\
      pairs_inv students_info P out /\
      forall M, valid_swaps students_info M ->
                List.length M <= List.length out.
Proof.
  intros S PS students_info fuel Hnd Hfuel.
  destruct (@match_student_pairs_spec S PS students_info Hnd fuel Hfuel)
    as (out & P & Hrun & Hinv & _).
  exists out, P. split; [exact Hrun|]. split; [exact Hinv|].
  intros M HM.
  destruct (@pairs_loop_count S PS students_info Hnd M HM fuel
              (map fst (swaps_of students_info)) set_empty [] Hfuel
              (fun k H => H) (pairs_inv_init students_info))
    as (out' & P' & Hrun' & _ & Hall & _ & Hcnt).
  { unfold counted. rewrite (filter_ext _ (fun _ => false)).
    - assert (Hf : forall l : list (student * student),
                 List.length (filter (fun _ => false) l) = 0).
      { induction l as [|p l IHl]; simpl; [reflexivity|exact IHl]. }
      rewrite Hf. simpl. lia.
    - intros p. apply set_mem_empty. }
  rewrite match_student_pairs_unfold in Hrun. rewrite Hrun in Hrun'.
  inversion Hrun'; subst out'.
  rewrite (@counted_all S PS students_info M HM P' Hall) in Hcnt. exact Hcnt.
Qed.

(** X8. For every input with pairwise-distinct ids, the output of
    [match_student_pairs] is as long as any list of swaps the requests
    allow: no set of disjoint pairs of requests that need a swap, go in
    opposite directions and consent to each other has more pairs. *)
Theorem output_is_maximum :
  forall (S : Type) (PS : PySet S) students_info fuel,
    NoDup (map student_id students_info) ->
    msp_fuel students_info <= fuel ->
    exists out,
      match_student_pairs fuel students_info = Ok out /\
      forall M, valid_swaps students_info M ->
                List.length M <= List.length out.
Proof.
  intros S PS students_info fuel Hnd Hfuel.
  destruct (match_student_pairs_max S PS students_info fuel Hnd Hfuel)
    as (out & P & Hrun & _ & Hmax).
  exists out. auto.
Qed.

Lemma plan_ids_of_map : forall Mo,
    plan_ids Mo
    = ids_of (map (fun p => (student_id (fst p), student_id (snd p))) Mo).
Proof.
  induction Mo as [|p Mo IH]; simpl; [reflexivity|]. rewrite <- IH. reflexivity.
Qed.

(** The output read back as a list of pairs of requests. *)
Lemma output_plan :
  forall (S : Type) (PS : PySet S) students_info (P : S) out,
    pairs_inv students_info P out ->
    exists Mo,
      map (fun p => (student_id (fst p), student_id (snd p))) Mo = out /\
      valid_swaps students_info Mo.
Proof.
  intros S PS students_info P out Hinv.
  assert (Hrec : forall l,
             (forall a b, In (a, b) l -> In (a, b) out) ->
             exists Mo,
               map (fun p => (student_id (fst p), student_id (snd p))) Mo = l /\
               forall r1 r2,
                 In (r1, r2) Mo ->
                 In r1 students_info /\ In r2 students_info /\
                 current_group r1 <> desired_group r1 /\
                 current_group r2 = desired_group r1 /\
                 desired_group r2 = current_group r1 /\
                 valid_edge r1 r2 = true).
  { induction l as [|[a b] l IH]; intros Hl.
    - exists []. split; [reflexivity|]. intros r1 r2 [].
    - destruct IH as (Mo & Hmap & Hok).
      { intros a0 b0 H. apply Hl. right. exact H. }
      destruct (pairs_inv_records S PS students_info P out a b Hinv
                  (Hl a b (or_introl eq_refl)))
        as (q1 & q2 & Hq1 & Hq2 & Hid1 & Hid2 & Hne & Hkey & Hvalid).
      exists ((q1, q2) :: Mo). split.
      + simpl. rewrite Hmap, Hid1, Hid2. reflexivity.
      + intros r1 r2 [E|Hin]; [|apply Hok; exact Hin].
        inversion E; subst r1 r2.
        unfold key_of, reverse_key in Hkey. simpl in Hkey.
        injection Hkey as E1 E2. tauto. }
  destruct (Hrec out (fun a b H => H)) as (Mo & Hmap & Hok).
  exists Mo. split; [exact Hmap|]. split; [exact Hok|].
  rewrite plan_ids_of_map, Hmap. apply (pi_nodup Hinv).
Qed.

Lemma unmatched_pair_impossible :
  forall (S : Type) (PS : PySet S) students_info fuel r1 r2,
    NoDup (map student_id students_info) ->
    msp_fuel students_info <= fuel ->
    In r1 students_info -> In r2 students_info ->
    current_group r1 <> desired_group r1 ->
    current_group r2 = desired_group r1 ->
    desired_group r2 = current_group r1 ->
    valid_edge r1 r2 = true ->
    exists out P,
      match_student_pairs fuel students_info = Ok out /\
      pairs_inv students_info P out /\
      (In (student_id r1) (ids_of out) \/ In (student_id r2) (ids_of out)).
Proof.
  intros S PS students_info fuel r1 r2 Hnd Hfuel Hr1 Hr2 Hne Hc Hd Hv.
  destruct (match_student_pairs_max S PS students_info fuel Hnd Hfuel)
    as (out & P & Hrun & Hinv & Hmax).
  exists out, P. split; [exact Hrun|]. split; [exact Hinv|].
  destruct (in_dec Z.eq_dec (student_id r1) (ids_of out)) as [H1|H1]; [auto|].
  destruct (in_dec Z.eq_dec (student_id r2) (ids_of out)) as [H2|H2]; [auto|].
  exfalso.
  destruct (output_plan S PS students_info P out Hinv) as (Mo & Hmap & Hok & Hndo).
  assert (Hids : plan_ids Mo = ids_of out) by (rewrite plan_ids_of_map, Hmap; reflexivity).
  assert (HM : valid_swaps students_info ((r1, r2) :: Mo)).
  { split.
    - intros q1 q2 [E|Hin]; [|apply Hok; exact Hin].
      inversion E; subst q1 q2. tauto.
    - simpl. rewrite Hids. constructor; [|constructor].
      + intros [E|Hin]; [|contradiction].
        assert (r2 = r1) by (apply (@id_inj students_info Hnd); auto).
        subst r2. congruence.
      + exact H2.
      + apply (pi_nodup Hinv). }
  specialize (Hmax _ HM). simpl in Hmax.
  rewrite <- Hmap, length_map in Hmax. lia.
Qed.

(** X9. For every input with pairwise-distinct ids, the output leaves no
    swap undone: of two requests that need a swap, go in opposite
    directions and consent to each other, at least one is in an output
    pair. *)
Theorem no_missed_swap :
  forall (S : Type) (PS : PySet S) students_info fuel r1 r2,
    NoDup (map student_id students_info) ->
    msp_fuel students_info <= fuel ->
    In r1 students_info -> In r2 students_info ->
    current_group r1 <> desired_group r1 ->
    current_group r2 = desired_group r1 ->
    desired_group r2 = current_group r1 ->
    valid_edge r1 r2 = true ->
    exists out,
      match_student_pairs fuel students_info = Ok out /\
      (In (student_id r1) (ids_of out) \/ In (student_id r2) (ids_of out)).
Proof.
  intros S PS students_info fuel r1 r2 Hnd Hfuel Hr1 Hr2 Hne Hc Hd Hv.
  destruct (unmatched_pair_impossible S PS students_info fuel r1 r2
              Hnd Hfuel Hr1 Hr2 Hne Hc Hd Hv) as (out & P & Hrun & _ & H).
  exists out. auto.
Qed.

(** A matched non-flexible request is paired with the partner it names. *)
Lemma restricted_partner :
  forall (S : Type) (PS : PySet S) students_info (P : S) out r j,
    NoDup (map student_id students_info) ->
    pairs_inv students_info P out ->
    In r students_info ->
    accept_swap r = false -> teammate_id r = Some j ->
    In (student_id r) (ids_of out) ->
    In (student_id r, j) out \/ In (j, student_id r) out.
Proof.
  intros S PS students_info P out r j Hnd Hinv Hr Hacc Hteam Hin.
  apply ids_of_in in Hin. destruct Hin as (a & b & Hab & Hx).
  destruct (pairs_inv_records S PS students_info P out a b Hinv Hab)
    as (q1 & q2 & Hq1 & Hq2 & Hid1 & Hid2 & _ & _ & Hvalid).
  apply valid_edge_spec in Hvalid. destruct Hvalid as [Hv1 Hv2].
  destruct Hx as [Hx|Hx].
  - assert (r = q1) by (apply (@id_inj students_info Hnd); congruence).
    subst q1. left. destruct Hv1 as [Hv1|Hv1]; [congruence|].
    rewrite Hteam in Hv1. inversion Hv1. subst. exact Hab.
  - assert (r = q2) by (apply (@id_inj students_info Hnd); congruence).
    subst q2. right. destruct Hv2 as [Hv2|Hv2]; [congruence|].
    rewrite Hteam in Hv2. inversion Hv2. subst. exact Hab.
Qed.

(** X10. For every input with pairwise-distinct ids, two non-flexible
    requests that need a swap, go in opposite directions and name each
    other are always paired together: the sorted pair of their ids is in
    the output. *)
Theorem mutual_partners_paired :
  forall (S : Type) (PS : PySet S) students_info fuel r1 r2,
    NoDup (map student_id students_info) ->
    msp_fuel students_info <= fuel ->
    In r1 students_info -> In r2 students_info ->
    current_group r1 <> desired_group r1 ->
    current_group r2 = desired_group r1 ->
    desired_group r2 = current_group r1 ->
    accept_swap r1 = false -> teammate_id r1 = Some (student_id r2) ->
    accept_swap r2 = false -> teammate_id r2 = Some (student_id r1) ->
    exists out,
      match_student_pairs fuel students_info = Ok out /\
      In (sorted_pair (student_id r1, student_id r2)) out.
Proof.
  intros S PS students_info fuel r1 r2 Hnd Hfuel Hr1 Hr2 Hne Hc Hd
         Ha1 Ht1 Ha2 Ht2.
  assert (Hv : valid_edge r1 r2 = true) by (apply valid_edge_spec; auto).
  destruct (unmatched_pair_impossible S PS students_info fuel r1 r2
              Hnd Hfuel Hr1 Hr2 Hne Hc Hd Hv) as (out & P & Hrun & Hinv & H).
  exists out. split; [exact Hrun|].
  assert (Hsorted : forall a b, In (a, b) out -> (a <= b)%Z).
  { rewrite match_student_pairs_unfold in Hrun.
    apply (pairs_loop_sorted S PS _ _ _ _ _ _ Hrun). intros a b []. }
  assert (Hin : In (student_id r1, student_id r2) out \/
                In (student_id r2, student_id r1) out).
  { destruct H as [H|H].
    - apply (restricted_partner S PS students_info P out r1 _ Hnd Hinv Hr1 Ha1 Ht1 H).
    - destruct (restricted_partner S PS students_info P out r2 _ Hnd Hinv Hr2 Ha2 Ht2 H);
        auto. }
  destruct Hin as [Hin|Hin].
  - rewrite (proj1 (sorted_pair_le _ _ (Hsorted _ _ Hin))). exact Hin.
  - rewrite (proj2 (sorted_pair_le _ _ (Hsorted _ _ Hin))). exact Hin.
Qed.

(* ================================================================== *)
(** ** Concrete runs of the further properties *)

Open Scope string_scope.

(** The requests from G1 to G2 and those from G2 to G1 of the scenarios. *)
Definition example_U : list student :=
  [mk_student 1 "G1" "G2" true None; mk_student 3 "G1" "G2" false (Some 4%Z)].

Definition example_V : list student :=
  [mk_student 2 "G2" "G1" true None; mk_student 4 "G2" "G1" false (Some 3%Z)].

Lemma example_U_nodup : NoDup (map student_id example_U).
Proof.
  unfold example_U. simpl.
  repeat constructor; simpl; intros H;
    repeat (destruct H as [H|H]; [discriminate|]); exact H.
Defined.

Lemma eligibility_graph_adjacency_witness :
  exists graph left_ids,
    build_graph example_U example_V [] [] = (graph, left_ids) /\
    left_ids = [1; 3]%Z /\
    graph_getitem (DefaultDict graph) (Some 1%Z) = Ok [2%Z] /\
    graph_getitem (DefaultDict graph) (Some 3%Z) = Ok [4%Z] /\
    graph_getitem (DefaultDict graph) (Some 2%Z) = Ok [].
Proof.
  destruct (build_graph example_U example_V [] []) as [graph left_ids] eqn:E.
  exists graph, left_ids. split; [reflexivity|].
  destruct (eligibility_graph_adjacency example_U example_V graph left_ids
              example_U_nodup E) as (H1 & H2 & H3).
  split; [exact H1|]. split; [|split].
  - apply (H2 (mk_student 1 "G1" "G2" true None)). simpl. auto.
  - apply (H2 (mk_student 3 "G1" "G2" false (Some 4%Z))). simpl. auto.
  - apply H3. simpl. intros [H|[H|[]]]; discriminate.
Defined.

Lemma no_opposite_requests_no_pairs_witness :
  match_student_pairs (S := list gkey) (PS := ListSet) 0
    [mk_student 5 "G1" "G2" false (Some 6%Z);
     mk_student 6 "G2" "G3" true None;
     mk_student 7 "G1" "G1" true None] = Ok [].
Proof.
  apply (no_opposite_requests_no_pairs (list gkey) ListSet 0).
  intros r1 r2 H1 H2 Hn1 Hn2 [E1 E2]. simpl in H1, H2.
  destruct H1 as [<-|[<-|[<-|[]]]]; destruct H2 as [<-|[<-|[<-|[]]]];
    simpl in *; try discriminate; congruence.
Defined.

Lemma output_is_maximum_witness :
  exists out,
    match_student_pairs (S := list gkey) (PS := ListSet) 19 example_students
    = Ok out /\
    forall M, valid_swaps example_students M ->
              List.length M <= List.length out.
Proof.
  apply (output_is_maximum (list gkey) ListSet example_students 19
           example_students_nodup example_students_fuel).
Defined.

Lemma no_missed_swap_witness :
  exists out,
    match_student_pairs (S := list gkey) (PS := ListSet) 19 example_students
    = Ok out /\
    (In 1%Z (ids_of out) \/ In 2%Z (ids_of out)).
Proof.
  apply (no_missed_swap (list gkey) ListSet example_students 19
           (mk_student 1 "G1" "G2" true None)
           (mk_student 2 "G2" "G1" true None)
           example_students_nodup example_students_fuel).
  - simpl. tauto.
  - simpl. tauto.
  - discriminate.
  - reflexivity.
  - reflexivity.
  - reflexivity.
Defined.

Lemma mutual_partners_paired_witness :
  exists out,
    match_student_pairs (S := list gkey) (PS := ListSet) 19 example_students
    = Ok out /\
    In (3, 4)%Z out.
Proof.
  apply (mutual_partners_paired (list gkey) ListSet example_students 19
           (mk_student 3 "G1" "G2" false (Some 4%Z))
           (mk_student 4 "G2" "G1" false (Some 3%Z))
           example_students_nodup example_students_fuel).
  - simpl. tauto.
  - simpl. tauto.
  - discriminate.
  - reflexivity.
  - reflexivity.
  - reflexivity.
  - reflexivity.
  - reflexivity.
  - reflexivity.
Defined.

Close Scope string_scope.

(* ================================================================== *)
(** ** A left node missing from a plain [dict] *)

Lemma bfs_init_queue : forall us d q d' q',
    bfs_init us [] d q = (d', q') -> q' = (q ++ map Some us)%list.
Proof.
  induction us as [|u us IH]; intros d q d' q' H; simpl in H.
  - inversion H; subst. rewrite app_nil_r. reflexivity.
  - apply IH in H. rewrite H, <- app_assoc. reflexivity.
Qed.

Lemma dist_get_fin_present : forall d a n,
    dist_get d a = Fin n -> dict_get okey_eqb d a = Some (Fin n).
Proof.
  intros d a n H. unfold dist_get, dict_get_default in H.
  destruct (dict_get okey_eqb d a); [congruence|discriminate].
Qed.

(** The scan of [graph[x]] while nothing is matched: only [dist[None]]
    changes and only the sentinel is appended. *)
Lemma bfs_scan_unmatched : forall vs x d q,
    dict_get okey_eqb d (Some x) = Some (Fin 0) ->
    (dict_get okey_eqb d None = Some INF \/
     dict_get okey_eqb d None = Some (Fin 1)) ->
    exists d' extra,
      bfs_scan (Some x) vs [] d q = Ok (d', (q ++ extra)%list) /\
      (forall y, dict_get okey_eqb d' (Some y) = dict_get okey_eqb d (Some y)) /\
      (dict_get okey_eqb d' None = Some INF \/
       dict_get okey_eqb d' None = Some (Fin 1)).
Proof.
  induction vs as [|v vs IH]; intros x d q Hx Hn; simpl.
  - exists d, []. rewrite app_nil_r. auto.
  - unfold dist_get, dict_get_default. destruct Hn as [Hn|Hn]; rewrite Hn; simpl.
    + unfold dict_getitem. rewrite Hx. simpl.
      destruct (IH x (dict_set okey_eqb d None (Fin 1)) (q ++ [None])%list)
        as (d' & extra & Hrun & Hsome & Hnone).
      * rewrite (dict_get_set_other okey_eqb okey_eqb_spec); [exact Hx|discriminate].
      * right. apply (dict_get_set_same okey_eqb okey_eqb_spec).
      * exists d', (None :: extra). rewrite Hrun, <- app_assoc. simpl.
        split; [reflexivity|]. split; [|exact Hnone].
        intros y. rewrite Hsome.
        apply (dict_get_set_other okey_eqb okey_eqb_spec). discriminate.
    + destruct (IH x d q Hx (or_intror Hn)) as (d' & extra & Hrun & Hsome & Hnone).
      exists d', extra. auto.
Qed.

Lemma bfs_loop_missing_key : forall items us fuel d q,
    List.length us < fuel ->
    (forall y, In y us -> dict_get okey_eqb d (Some y) = Some (Fin 0)) ->
    (dict_get okey_eqb d None = Some INF \/
     dict_get okey_eqb d None = Some (Fin 1)) ->
    (exists u, In u us /\ dict_get Z.eqb items u = None) ->
    bfs_loop (Dict items) fuel [] d (map Some us ++ q)%list = KeyError.
Proof.
  intros items. induction us as [|u0 us IH]; intros fuel d q Hfuel Hd Hn Hex.
  - destruct Hex as (u & [] & _).
  - destruct fuel as [|fuel]; [simpl in Hfuel; lia|]. simpl in Hfuel.
    change (map Some (u0 :: us) ++ q)%list
      with (Some u0 :: map Some us ++ q)%list.
    assert (Hhead :
      bfs_loop (Dict items) (S fuel) [] d (Some u0 :: map Some us ++ q)%list
      = (adj <- dict_getitem Z.eqb items u0 ;;
         ' (d', q'') <- bfs_scan (Some u0) adj [] d (map Some us ++ q)%list ;;
         bfs_loop (Dict items) fuel [] d' q'')).
    { simpl. unfold dict_getitem at 1 2.
      rewrite (Hd u0 (or_introl eq_refl)).
      destruct Hn as [Hn|Hn]; rewrite Hn; reflexivity. }
    rewrite Hhead. unfold dict_getitem.
    destruct (dict_get Z.eqb items u0) as [adj|] eqn:Eadj; simpl; [|reflexivity].
    destruct (bfs_scan_unmatched adj u0 d (map Some us ++ q)%list
                (Hd u0 (or_introl eq_refl)) Hn)
      as (d' & extra & Hrun & Hsome & Hnone).
    rewrite Hrun. simpl. rewrite <- app_assoc. apply IH.
    + lia.
    + intros y Hy. rewrite Hsome. apply Hd. right. exact Hy.
    + exact Hnone.
    + destruct Hex as (u & [<-|Hu] & Hmiss); [congruence|]. exists u. auto.
Qed.

(** X11. With a plain [dict] as graph, a left node that is not a key of the
    graph makes [hopcroft_karp] raise [KeyError], in the first [bfs],
    whatever the other entries of the graph are. *)
Theorem missing_left_node_raises_KeyError : forall items left_nodes fuel u,
    In u left_nodes ->
    dict_get Z.eqb items u = None ->
    List.length left_nodes < fuel ->
    hopcroft_karp (Dict items) left_nodes fuel = KeyError.
Proof.
  intros items left_nodes fuel u Hu Hmiss Hfuel.
  unfold hopcroft_karp. destruct fuel as [|rounds]; [lia|].
  remember (S rounds) as fuel eqn:Ef. rewrite Ef at 1. simpl hk_while.
  assert (Hbfs : bfs (Dict items) left_nodes fuel hk_init = KeyError).
  { unfold bfs. simpl.
    destruct (bfs_init left_nodes [] [] []) as [d0 q0] eqn:Einit.
    pose proof (bfs_init_queue _ _ _ _ _ Einit) as Hq. simpl in Hq. subst q0.
    destruct (bfs_init_spec [] left_nodes [] [] Einit) as (H1 & _).
    rewrite <- (app_nil_r (map Some left_nodes)).
    rewrite (bfs_loop_missing_key items left_nodes fuel); [reflexivity|lia| | |].
    - intros y Hy.
      rewrite (dict_get_set_other okey_eqb okey_eqb_spec) by discriminate.
      apply dist_get_fin_present. rewrite (H1 y Hy). reflexivity.
    - left. apply (dict_get_set_same okey_eqb okey_eqb_spec).
    - exists u. auto. }
  rewrite Hbfs. reflexivity.
Qed.

Lemma missing_left_node_raises_KeyError_witness :
  hopcroft_karp (Dict [(1, [10]); (3, [10; 11])]%Z) [1; 2; 3]%Z 4 = KeyError.
Proof.
  apply (missing_left_node_raises_KeyError _ _ 4 2%Z).
  - simpl. auto.
  - reflexivity.
  - simpl. lia.
Defined.
